(** * Epicycle animation: the numerical pipeline of [epicycles.py]

    A shallow embedding of the sampling, stitching, normalisation,
    Fourier selection and animation pre-computation functions, and the
    properties that the design document states about them.

    Modelling conventions.
    - A numpy [float64] is an exact real ([R]): rounding is not
      modelled.  The only IEEE special values the embedded code can
      produce from finite data come from a division by zero; they are
      kept explicit in [npfloat].
    - A Python [complex] / numpy [complex128] is a pair of reals.
    - A Python [int] that counts things is a [nat]; a DFT frequency is a [Z].
    - An (n, 2) numpy array is a list of points (rows).
    - A raised exception is the [Raise] outcome; the [while] loop of the
      stitcher runs on fuel, and [OutOfFuel] marks an exhausted bound.
    - The timings of the scene are Python integers, as shipped; their
      quotient is a float, and what the machine makes of it is left
      open: the scene takes the division as a parameter. *)

From Stdlib Require Import Reals Lra Lia List ZArith Bool Arith PeanoNat.
From Stdlib Require Import Permutation Sorted.
Import ListNotations.

Local Open Scope R_scope.

(* ------------------------------------------------------------------ *)
(** ** Exceptions *)

Inductive exn : Type :=
| IndexError
| OverflowError
| RuntimeError
| TypeError
| ValueError
| ZeroDivisionError.

Inductive outcome (A : Type) : Type :=
| Ok (a : A)
| Raise (e : exn)
| OutOfFuel.

Arguments Ok {A} a.
Arguments Raise {A} e.
Arguments OutOfFuel {A}.

Definition bind {A B : Type} (m : outcome A) (k : A -> outcome B) : outcome B :=
  match m with
  | Ok a => k a
  | Raise e => Raise e
  | OutOfFuel => OutOfFuel
  end.

Declare Scope py_scope.
Delimit Scope py_scope with py.
Notation "x <- m ;; k" := (bind m (fun x => k))
  (at level 61, m at next level, right associativity) : py_scope.
Notation "' pat <- m ;; k" := (bind m (fun x => match x with pat => k end))
  (at level 61, pat pattern, m at next level, right associativity) : py_scope.
Local Open Scope py_scope.

(** A loop or a comprehension that builds a list, one element per item,
    and stops at the first exception. *)
Fixpoint mapM {A B : Type} (f : A -> outcome B) (l : list A) : outcome (list B) :=
  match l with
  | [] => Ok []
  | x :: rest =>
      y <- f x ;;
      ys <- mapM f rest ;;
      Ok (y :: ys)
  end.

(* ------------------------------------------------------------------ *)
(** ** Comparisons on floats *)

Definition Rltb (a b : R) : bool := if Rlt_dec a b then true else false.
Definition Rleb (a b : R) : bool := if Rle_dec a b then true else false.
Definition Rgtb (a b : R) : bool := Rltb b a.
Definition Rgeb (a b : R) : bool := Rleb b a.
Definition Reqb (a b : R) : bool := if Req_dec_T a b then true else false.

(** The result of a numpy division: finite, or one of the IEEE specials. *)
Inductive npfloat : Type :=
| Fin (r : R)
| PInf
| NInf
| NaN.

(** [x >= thr] for a numpy float and a finite threshold: any comparison
    with NaN is false. *)
Definition np_ge (x : npfloat) (thr : R) : bool :=
  match x with
  | Fin r => Rgeb r thr
  | PInf => true
  | NInf => false
  | NaN => false
  end.

(** numpy scalar division: no exception, a warning and a special value. *)
Definition np_truediv (a b : R) : npfloat :=
  if Reqb b 0 then
    (if Reqb a 0 then NaN else if Rltb 0 a then PInf else NInf)
  else Fin (a / b).

(* ------------------------------------------------------------------ *)
(** ** Complex numbers and points *)

Definition complex : Type := (R * R)%type.

Definition Cre (z : complex) : R := fst z.
Definition Cim (z : complex) : R := snd z.
Definition C0 : complex := (0, 0).
Definition Cadd (a b : complex) : complex := (fst a + fst b, snd a + snd b).
Definition Cmul (a b : complex) : complex :=
  (fst a * fst b - snd a * snd b, fst a * snd b + snd a * fst b).
Definition Cscale (a : complex) (r : R) : complex := (fst a * r, snd a * r).
Definition Cabs (z : complex) : R := sqrt (fst z * fst z + snd z * snd z).
(** [np.exp] on a complex argument. *)
Definition Cexp (z : complex) : complex :=
  (exp (fst z) * cos (snd z), exp (fst z) * sin (snd z)).

(** A row of an (n, 2) array. *)
Definition point : Type := (R * R)%type.
Definition contour : Type := list point.

Definition psub (p q : point) : point := (fst p - fst q, snd p - snd q).
(** [np.linalg.norm] of a 2-vector. *)
Definition norm (v : point) : R := sqrt (fst v * fst v + snd v * snd v).

Definition point_eq_dec (p q : point) : {p = q} + {p <> q}.
Proof.
  destruct p as [a b], q as [c d].
  destruct (Req_dec_T a c) as [->|Hac]; [|right; congruence].
  destruct (Req_dec_T b d) as [->|Hbd]; [left; reflexivity|right; congruence].
Defined.

(** [np.array_equal]: same shape and same entries. *)
Definition array_equal (a b : contour) : bool :=
  if list_eq_dec point_eq_dec a b then true else false.

(** Indexing a sequence at [0] and at [-1]. *)
Definition index_first {A : Type} (l : list A) : outcome A :=
  match l with
  | [] => Raise IndexError
  | x :: _ => Ok x
  end.

Definition index_last {A : Type} (l : list A) : outcome A :=
  match rev l with
  | [] => Raise IndexError
  | x :: _ => Ok x
  end.

(** Indexing at a non-negative position. *)
Definition index_at {A : Type} (l : list A) (i : nat) : outcome A :=
  match nth_error l i with
  | Some x => Ok x
  | None => Raise IndexError
  end.

(* ------------------------------------------------------------------ *)
(** ** Configuration *)

Record Config : Type := {
  animation_steps : nat;
  samples_per_path : nat;
  energy_threshold : R;
  min_epicycles : nat;
  max_epicycles : nat;
  scale_factor : R
}.

(** The values of the module-level [CONFIG] dictionary. *)
Definition CONFIG : Config := {|
  animation_steps := 2000;
  samples_per_path := 5000;
  energy_threshold := 999 / 1000;
  min_epicycles := 100;
  max_epicycles := 2000;
  scale_factor := 8
|}.

(* ------------------------------------------------------------------ *)
(** ** ContourStitcher: [connect_contours_tsp] *)

(** The three loop variables of the inner [for]; [best_dist = None] is
    the initial [float('inf')], below which every finite distance lies. *)
Record Best : Type := {
  best_contour : option contour;
  best_dist : option R;
  should_reverse : bool
}.

Definition Best_init : Best :=
  {| best_contour := None; best_dist := None; should_reverse := false |}.

Definition lt_best (d : R) (b : option R) : bool :=
  match b with
  | None => true
  | Some x => Rltb d x
  end.

(** One pass of the body of [for contour in remaining]. *)
Definition scan_contour (current_pos : point) (st : Best) (c : contour)
  : outcome Best :=
  c0 <- index_first c ;;
  let dist_start := norm (psub current_pos c0) in
  let st1 :=
    if lt_best dist_start (best_dist st)
    then {| best_contour := Some c; best_dist := Some dist_start;
            should_reverse := false |}
    else st in
  cl <- index_last c ;;
  let dist_end := norm (psub current_pos cl) in
  let st2 :=
    if lt_best dist_end (best_dist st1)
    then {| best_contour := Some c; best_dist := Some dist_end;
            should_reverse := true |}
    else st1 in
  Ok st2.

Fixpoint scan_remaining (current_pos : point) (st : Best)
  (remaining : list contour) : outcome Best :=
  match remaining with
  | [] => Ok st
  | c :: rest =>
      st' <- scan_contour current_pos st c ;;
      scan_remaining current_pos st' rest
  end.

(** The filter that rebuilds [remaining]. *)
Definition keep_contour (best : contour) (c : contour) : bool :=
  negb (array_equal c best) && negb (array_equal c (rev best)).

(** One iteration of the [while remaining] body: the contour appended to
    [ordered], the new [current_pos] and the new [remaining]. *)
Definition stitch_iteration (current_pos : point) (remaining : list contour)
  : outcome (contour * point * list contour) :=
  st <- scan_remaining current_pos Best_init remaining ;;
  match best_contour st with
  | None => Raise TypeError
  | Some bc =>
      let best := if should_reverse st then rev bc else bc in
      pos <- index_last best ;;
      Ok (best, pos, filter (keep_contour best) remaining)
  end.

Fixpoint stitch_loop (fuel : nat) (ordered : list contour)
  (current_pos : point) (remaining : list contour) : outcome (list contour) :=
  match remaining with
  | [] => Ok ordered
  | _ :: _ =>
      match fuel with
      | O => OutOfFuel
      | S fuel' =>
          '(best, pos, remaining') <- stitch_iteration current_pos remaining ;;
          stitch_loop fuel' (ordered ++ [best]) pos remaining'
      end
  end.

(** [np.concatenate] refuses an empty list of arrays. *)
Definition np_concatenate (arrays : list contour) : outcome contour :=
  match arrays with
  | [] => Raise ValueError
  | _ :: _ => Ok (concat arrays)
  end.

Definition connect_contours_tsp (contours : list contour) : outcome contour :=
  c0 <- index_first contours ;;
  current_pos <- index_first c0 ;;
  ordered <- stitch_loop (length contours) [] current_pos contours ;;
  np_concatenate ordered.

(* ------------------------------------------------------------------ *)
(** ** PathSampler and Normalizer: [load_and_process_svg] *)

(** What [svgpathtools] exposes of one path: its arc length, the inversion
    of arc length to parameter ([None] when the call raises, which the
    [try] absorbs) and the point at a parameter, a call that is outside the
    [try]: what it raises leaves the function. *)
Record Path : Type := {
  path_length : R;
  path_ilength : R -> option R;
  path_point : R -> outcome complex
}.

(** The arc length targeted by sample [i] of [M]. *)
Definition arc_length_target (M : nat) (L : R) (i : nat) : R :=
  (INR i / INR M) * L.

(** The parameter [t] at which sample [i] is taken: the one that the
    inversion returns for the target, or [i / M] when the inversion
    raised. *)
Definition sample_parameter (M : nat) (path : Path) (i : nat) : R :=
  let arc_length := arc_length_target M (path_length path) i in
  match path_ilength path arc_length with
  | Some t => t
  | None => INR i / INR M
  end.

(** The body of [for i in range(samples_per_path)]. *)
Definition sample_point (M : nat) (path : Path) (i : nat) : outcome point :=
  let t := sample_parameter M path i in
  p <- path_point path t ;;
  Ok (Cre p, - Cim p).

Definition sample_targets (cfg : Config) (path : Path) : list R :=
  map (arc_length_target (samples_per_path cfg) (path_length path))
      (seq 0 (samples_per_path cfg)).

Definition sample_path (cfg : Config) (path : Path) : outcome contour :=
  mapM (sample_point (samples_per_path cfg) path) (seq 0 (samples_per_path cfg)).

(** The loop [for path in paths]. *)
Definition sample_contours (cfg : Config) (paths : list Path)
  : outcome (list contour) :=
  mapM (sample_path cfg) paths.

Definition Rsum (l : list R) : R := fold_left Rplus l 0.

(** [np.mean(points, axis=0)]. *)
Definition np_mean_axis0 (pts : contour) : point :=
  (Rsum (map fst pts) / INR (length pts), Rsum (map snd pts) / INR (length pts)).

(** The entries of [np.abs(points)], row by row. *)
Definition abs_entries (pts : contour) : list R :=
  flat_map (fun p => [Rabs (fst p); Rabs (snd p)]) pts.

Definition np_max (l : list R) : outcome R :=
  match l with
  | [] => Raise ValueError
  | x :: rest => Ok (fold_left Rmax rest x)
  end.

(** "Close path if needed". *)
Definition close_path (ordered_points : contour) : outcome contour :=
  first <- index_first ordered_points ;;
  last <- index_last ordered_points ;;
  if Rgtb (norm (psub first last)) (1 / 1000000)
  then Ok (ordered_points ++ [first])
  else Ok ordered_points.

Definition center_points (ordered_points : contour) : contour :=
  let center := np_mean_axis0 ordered_points in
  map (fun p => psub p center) ordered_points.

Definition scale_points (cfg : Config) (max_extent : R) (pts : contour) : contour :=
  map (fun p => (fst p / max_extent * scale_factor cfg,
                 snd p / max_extent * scale_factor cfg)) pts.

(** "Center and normalize": the tail of [load_and_process_svg]. *)
Definition normalize_points (cfg : Config) (ordered_points : contour)
  : outcome contour :=
  closed <- close_path ordered_points ;;
  let centered := center_points closed in
  max_extent <- np_max (abs_entries centered) ;;
  if Rgtb max_extent 0
  then Ok (scale_points cfg max_extent centered)
  else Ok centered.

Definition stitch_contours (all_contours : list contour) : outcome contour :=
  match all_contours with
  | [c] => Ok c
  | _ => connect_contours_tsp all_contours
  end.

Definition load_and_process_svg (cfg : Config) (paths : list Path)
  : outcome contour :=
  all_contours <- sample_contours cfg paths ;;
  ordered_points <- stitch_contours all_contours ;;
  normalize_points cfg ordered_points.

(* ------------------------------------------------------------------ *)
(** ** FourierAnalyzer *)

Definition Cofr (r : R) : complex := (r, 0).
Definition Csum (l : list complex) : complex := fold_left Cadd l C0.
Definition Cdiv_real (z : complex) (r : R) : complex := (fst z / r, snd z / r).

(** The forward transform computed by [np.fft.fft]:
    [X_k = sum_n z_n * exp(-2 pi i k n / N)]. *)
Definition fft_bin (z : list complex) (k : nat) : complex :=
  let N := length z in
  Csum (map (fun nz : nat * complex =>
               Cmul (snd nz)
                    (Cexp (0, - (2 * PI * INR k * INR (fst nz) / INR N))))
            (combine (seq 0 N) z)).

Definition np_fft (z : list complex) : list complex :=
  map (fft_bin z) (seq 0 (length z)).

(** [np.fft.fftfreq(N, d=1.0/N).astype(int)]: the bins
    [0, 1, ..., (N-1)//2, -(N//2), ..., -1]. *)
Definition fftfreq (N : nat) : list Z :=
  map Z.of_nat (seq 0 (S ((N - 1) / 2)))
  ++ map (fun i => (- Z.of_nat (N / 2) + Z.of_nat i)%Z) (seq 0 (N / 2)).

(** A Python dict keyed by frequency, as its items in insertion order. *)
Definition dict : Type := list (Z * complex).

Fixpoint dict_set (d : dict) (k : Z) (v : complex) : dict :=
  match d with
  | [] => [(k, v)]
  | (k', v') :: rest =>
      if Z.eqb k' k then (k', v) :: rest else (k', v') :: dict_set rest k v
  end.

Definition dict_of_pairs (pairs : list (Z * complex)) : dict :=
  fold_left (fun d kv => dict_set d (fst kv) (snd kv)) pairs [].

(** On an array of no rows [z] is empty and [np.fft.fft] refuses it. *)
Definition compute_fourier_coefficients (points : contour) : outcome dict :=
  match points with
  | [] => Raise ValueError
  | _ :: _ =>
      let N := length points in
      let z := map (fun p : point => Cadd (Cofr (fst p)) (Cmul (0, 1) (Cofr (snd p))))
                   points in
      let fft_result := map (fun c => Cdiv_real c (INR N)) (np_fft z) in
      let frequencies := fftfreq N in
      Ok (dict_of_pairs (combine frequencies fft_result))
  end.

(** [sorted(items, key=lambda x: abs(x[1]), reverse=True)]: a stable sort
    by descending magnitude (equal keys keep their input order). *)
Fixpoint insert_desc (x : Z * complex) (l : list (Z * complex))
  : list (Z * complex) :=
  match l with
  | [] => [x]
  | y :: rest =>
      if Rltb (Cabs (snd x)) (Cabs (snd y))
      then y :: insert_desc x rest
      else x :: y :: rest
  end.

Definition sorted_by_magnitude (items : list (Z * complex)) : list (Z * complex) :=
  fold_right insert_desc [] items.

(** The numbers that flow through the energy sums: the [int] zero that
    [sum] starts from, or a numpy float. *)
Inductive pynum : Type :=
| PyInt (n : Z)
| NpFloat (r : R).

Definition pynum_R (a : pynum) : R :=
  match a with
  | PyInt n => IZR n
  | NpFloat r => r
  end.

Definition py_add_float (a : pynum) (x : R) : pynum := NpFloat (pynum_R a + x).

(** The builtin [sum] over numpy floats. *)
Definition py_sum (l : list R) : pynum := fold_left py_add_float l (PyInt 0).

(** [a / b]: between two Python ints a zero divisor raises; as soon as a
    numpy float takes part the division follows numpy. *)
Definition py_truediv (a b : pynum) : outcome npfloat :=
  match a, b with
  | PyInt x, PyInt y =>
      if Z.eqb y 0 then Raise ZeroDivisionError else Ok (Fin (IZR x / IZR y))
  | _, _ => Ok (np_truediv (pynum_R a) (pynum_R b))
  end.

Definition energy (c : complex) : R := Cabs c ^ 2.

(** "Find where we hit energy threshold": the value of [optimal_count]
    when the [for] loop ends ([0] when it never breaks). *)
Fixpoint threshold_scan (thr : R) (total_energy cumulative_energy : pynum)
  (i : nat) (items : list (Z * complex)) : outcome nat :=
  match items with
  | [] => Ok O
  | (_, coeff) :: rest =>
      let cumulative_energy' := py_add_float cumulative_energy (energy coeff) in
      energy_ratio <- py_truediv cumulative_energy' total_energy ;;
      if np_ge energy_ratio thr
      then Ok i
      else threshold_scan thr total_energy cumulative_energy' (S i) rest
  end.

(** The term count before the min/max limits are applied. *)
Definition pre_clamp_count (thr : R) (total_energy : pynum)
  (sorted_items : list (Z * complex)) : outcome nat :=
  optimal_count <- threshold_scan thr total_energy (PyInt 0) 1 sorted_items ;;
  if Nat.eqb optimal_count 0
  then Ok (length sorted_items)
  else Ok optimal_count.

(** "Apply min/max limits". *)
Definition clamp_count (cfg : Config) (optimal_count : nat) : nat :=
  Nat.max (min_epicycles cfg) (Nat.min optimal_count (max_epicycles cfg)).

(** The generator that "Calculate final energy" sums:
    [abs(sorted_items[i][1])**2 for i in range(optimal_count)]. *)
Definition final_energies (sorted_items : list (Z * complex)) (optimal_count : nat)
  : outcome (list R) :=
  mapM (fun i => x <- index_at sorted_items i ;; Ok (energy (snd x)))
       (seq 0 optimal_count).

Definition find_optimal_epicycles (cfg : Config) (coefficients : dict)
  : outcome (nat * list (Z * complex) * npfloat) :=
  let sorted_items := sorted_by_magnitude coefficients in
  let total_energy := py_sum (map (fun x => energy (snd x)) sorted_items) in
  optimal_count <- pre_clamp_count (energy_threshold cfg) total_energy sorted_items ;;
  let optimal_count := clamp_count cfg optimal_count in
  energies <- final_energies sorted_items optimal_count ;;
  let final_energy := py_sum energies in
  final_ratio <- py_truediv final_energy total_energy ;;
  Ok (optimal_count, firstn optimal_count sorted_items, final_ratio).

(* ------------------------------------------------------------------ *)
(** ** AnimationPrecomputer: [precompute_animation] *)

Definition vec3 : Type := (R * R * R)%type.
Definition origin : vec3 := (0, 0, 0).

Record Circle : Type := { center : vec3; radius : R }.
Record Vector : Type := { start : vec3; end_ : vec3 }.
Record Frame : Type := { circles : list Circle; vectors : list Vector }.

(** [coeff * np.exp(2j * np.pi * freq * t)]. *)
Definition term_value (t : R) (term : Z * complex) : complex :=
  Cmul (snd term)
       (Cexp (Cmul (Cmul (Cmul (0, 2) (Cofr PI)) (Cofr (IZR (fst term)))) (Cofr t))).

(** The first inner loop: [z += coeff * np.exp(...)]. *)
Definition pen_sum (t : R) (coefficients : list (Z * complex)) : complex :=
  fold_left (fun z term => Cadd z (term_value t term)) coefficients C0.

Definition pos_of (z : complex) : vec3 := (Cre z, Cim z, 0).

(** The second inner loop, with its four loop variables. *)
Fixpoint chain_loop (t : R) (coefficients : list (Z * complex))
  (cs : list Circle) (vs : list Vector) (current_z : complex) (prev_pos : vec3)
  : list Circle * list Vector :=
  match coefficients with
  | [] => (cs, vs)
  | term :: rest =>
      let radius := Cabs (snd term) in
      let cs' := cs ++ [{| center := prev_pos; radius := radius |}] in
      let next_z := Cadd current_z (term_value t term) in
      let next_pos := pos_of next_z in
      let vs' := vs ++ [{| start := prev_pos; end_ := next_pos |}] in
      chain_loop t rest cs' vs' next_z next_pos
  end.

Definition frame_at (coefficients : list (Z * complex)) (num_steps step : nat)
  : vec3 * Frame :=
  let t := INR step / INR num_steps in
  let z := pen_sum t coefficients in
  let '(cs, vs) := chain_loop t coefficients [] [] C0 origin in
  (pos_of z, {| circles := cs; vectors := vs |}).

Definition precompute_animation (coefficients : list (Z * complex))
  (num_steps : nat) : list vec3 * list Frame :=
  let states := map (frame_at coefficients num_steps) (seq 0 num_steps) in
  (map fst states, map snd states).

(** The numerical part of [main]. *)
Definition main (cfg : Config) (paths : list Path)
  : outcome (nat * npfloat * list vec3 * list Frame) :=
  points <- load_and_process_svg cfg paths ;;
  coefficients <- compute_fourier_coefficients points ;;
  '(num_epicycles, optimal_coeffs, energy_kept) <-
      find_optimal_epicycles cfg coefficients ;;
  let '(path_points, epicycle_states) :=
      precompute_animation optimal_coeffs (animation_steps cfg) in
  Ok (num_epicycles, energy_kept, path_points, epicycle_states).

(* ------------------------------------------------------------------ *)
(** ** Vocabulary of the statements *)

Definition first_point (c : contour) : point := hd (0, 0) c.
Definition last_point (c : contour) : point := last c (0, 0).

(** Distance from a position to the two ends of a contour. *)
Definition dist_first (pos : point) (c : contour) : R :=
  norm (psub pos (first_point c)).
Definition dist_last (pos : point) (c : contour) : R :=
  norm (psub pos (last_point c)).

(** A contour as it is appended: as it is, or point-reversed. *)
Definition oriented (reversed : bool) (c : contour) : contour :=
  if reversed then rev c else c.

(** [b] is [c] in one of its two orientations. *)
Definition same_block (c b : contour) : Prop := b = c \/ b = rev c.

(** No contour is empty, and no two of them (at different positions) are
    equal or point-reverses of one another. *)
Definition nonempty_contours (cs : list contour) : Prop :=
  Forall (fun c => c <> []) cs.
Definition distinct_up_to_reversal (cs : list contour) : Prop :=
  ForallOrdPairs (fun a b => a <> b /\ a <> rev b) cs.

Definition total_points (cs : list contour) : nat :=
  length (concat cs).

(** What the inner [for] has established after looking at [seen]. *)
Definition scan_inv (pos : point) (seen : list contour) (st : Best) : Prop :=
  match seen with
  | [] => st = Best_init
  | _ :: _ =>
      exists bc d,
        best_contour st = Some bc /\ best_dist st = Some d /\ In bc seen /\
        d = (if should_reverse st then dist_last pos bc else dist_first pos bc) /\
        (forall c, In c seen -> d <= dist_first pos c /\ d <= dist_last pos c) /\
        (should_reverse st = true -> dist_last pos bc < dist_first pos bc)
  end.

(** The squared magnitudes of a list of terms, in order. *)
Definition energies (items : list (Z * complex)) : list R :=
  map (fun x => energy (snd x)) items.

(** Energy of the first [k] terms over the energy of all of them, as a
    numpy quotient. *)
Definition cumulative_ratio (items : list (Z * complex)) (k : nat) : npfloat :=
  np_truediv (Rsum (firstn k (energies items))) (Rsum (energies items)).

Definition reaches_threshold (thr : R) (items : list (Z * complex)) (k : nat)
  : Prop :=
  np_ge (cumulative_ratio items k) thr = true.

(** [K0] as the design document words it: the smallest prefix length
    whose cumulative energy ratio reaches the threshold, and the number
    of terms when no prefix does. *)
Definition smallest_reaching_prefix (thr : R) (items : list (Z * complex))
  (K0 : nat) : Prop :=
  ((1 <= K0 <= length items)%nat /\ reaches_threshold thr items K0 /\
   forall k, (1 <= k < K0)%nat -> ~ reaches_threshold thr items k)
  \/
  (K0 = length items /\
   forall k, (1 <= k <= length items)%nat -> ~ reaches_threshold thr items k).

(** Magnitudes never increase along the list. *)
Definition descending_magnitude (items : list (Z * complex)) : Prop :=
  StronglySorted (fun a b => Cabs (snd b) <= Cabs (snd a)) items.

(** The circles and vectors that [chain_loop] appends, as lists. *)
Fixpoint chain_circles (t : R) (coefficients : list (Z * complex))
  (current_z : complex) (prev_pos : vec3) : list Circle :=
  match coefficients with
  | [] => []
  | term :: rest =>
      let next_z := Cadd current_z (term_value t term) in
      {| center := prev_pos; radius := Cabs (snd term) |}
        :: chain_circles t rest next_z (pos_of next_z)
  end.

Fixpoint chain_vectors (t : R) (coefficients : list (Z * complex))
  (current_z : complex) (prev_pos : vec3) : list Vector :=
  match coefficients with
  | [] => []
  | term :: rest =>
      let next_z := Cadd current_z (term_value t term) in
      {| start := prev_pos; end_ := pos_of next_z |}
        :: chain_vectors t rest next_z (pos_of next_z)
  end.

(** Frame consistency for a frame of [K] circles and vectors with pen
    position [pen]. *)
Definition frame_consistent (K : nat) (pen : vec3) (f : Frame) : Prop :=
  length (vectors f) = K /\ length (circles f) = K /\
  forall i, (i < K)%nat ->
    exists v c,
      nth_error (vectors f) i = Some v /\ nth_error (circles f) i = Some c /\
      center c = start v /\
      (i = O -> start v = origin) /\
      (i = (K - 1)%nat -> end_ v = pen) /\
      ((S i < K)%nat ->
         exists v' c',
           nth_error (vectors f) (S i) = Some v' /\
           nth_error (circles f) (S i) = Some c' /\
           end_ v = start v' /\ end_ v = center c').

(** The truncated Fourier series at time [t], written out:
    the sum of [c * (cos(2 pi f t) + i sin(2 pi f t))] over the terms. *)
Fixpoint fourier_sum (t : R) (terms : list (Z * complex)) : complex :=
  match terms with
  | [] => C0
  | (f, c) :: rest =>
      let theta := 2 * PI * IZR f * t in
      Cadd (fst c * cos theta - snd c * sin theta,
            fst c * sin theta + snd c * cos theta)
           (fourier_sum t rest)
  end.

(** The shipped configuration with another number of samples per path. *)
Definition config_with_samples (M : nat) : Config := {|
  animation_steps := animation_steps CONFIG;
  samples_per_path := M;
  energy_threshold := energy_threshold CONFIG;
  min_epicycles := min_epicycles CONFIG;
  max_epicycles := max_epicycles CONFIG;
  scale_factor := scale_factor CONFIG
|}.


(** A path reduced to the point (0,0).  Its arc length is 0, the
    inversion raises, and the library answers [point] at the parameters 0
    and 1 only: elsewhere it finds no segment and raises. *)
Definition point_path : Path := {|
  path_length := 0;
  path_ilength := fun _ => None;
  path_point := fun t =>
    if Reqb t 0 then Ok (0, 0)
    else if Reqb t 1 then Ok (0, 0)
    else Raise RuntimeError
|}.

(** The segment from (0,0) to (1,0), of length 1; the inversion raises. *)
Definition segment_path : Path := {|
  path_length := 1;
  path_ilength := fun _ => None;
  path_point := fun t => Ok (t, 0)
|}.

(** The polyline (0,0) -> (2,0) -> (1,0), of length 3, parametrised by
    arc length over [0,1]: it is open and folds back over itself.  The
    inversion raises. *)
Definition zigzag_path : Path := {|
  path_length := 3;
  path_ilength := fun _ => None;
  path_point := fun T =>
    if Rle_dec T (2 / 3) then Ok (3 * T, 0) else Ok (4 - 3 * T, 0)
|}.

(** The row that sampling stores for the point [p]. *)
Definition sampled_row (p : complex) : point := (Cre p, - Cim p).

(** [path.point] answers at every parameter at which the sampler calls
    it. *)
Definition samples_defined (cfg : Config) (path : Path) : Prop :=
  forall i, (i < samples_per_path cfg)%nat ->
    exists p, path_point path (sample_parameter (samples_per_path cfg) path i) = Ok p.

(** The shipped configuration with other limits on the term count. *)
Definition config_with_limits (lo hi : nat) : Config := {|
  animation_steps := animation_steps CONFIG;
  samples_per_path := samples_per_path CONFIG;
  energy_threshold := energy_threshold CONFIG;
  min_epicycles := lo;
  max_epicycles := hi;
  scale_factor := scale_factor CONFIG
|}.

(** The input contours that are not yet used once the blocks [ordered]
    have been appended: those equal neither to a block nor to the
    reverse of a block. *)
Definition unused (contours ordered : list contour) : list contour :=
  filter (fun c => forallb (fun b => keep_contour b c) ordered) contours.

(** The states [(ordered, current_pos, remaining)] in which the
    [while remaining] loop tests its condition. *)
Inductive loop_state (contours : list contour)
  : list contour -> point -> list contour -> Prop :=
| ls_init p0 c0 rest :
    contours = (p0 :: c0) :: rest ->
    loop_state contours [] p0 contours
| ls_step ordered pos remaining best pos' remaining' :
    loop_state contours ordered pos remaining ->
    remaining <> [] ->
    stitch_iteration pos remaining = Ok (best, pos', remaining') ->
    loop_state contours (ordered ++ [best]) pos' remaining'.

(** The point of the unit circle at angle [x]. *)
Definition cis (x : R) : complex := (cos x, sin x).

Definition Csub (a b : complex) : complex := (fst a - fst b, snd a - snd b).
Definition Cone : complex := (1, 0).

(** Sum of [g 0], ..., [g (N-1)]. *)
Definition Csum_to (N : nat) (g : nat -> complex) : complex :=
  Csum (map g (seq 0 N)).

(** The complex conjugate. *)
Definition Cconj (z : complex) : complex := (fst z, - snd z).

(** The squared distance of a point from the origin. *)
Definition norm_sq (p : point) : R := fst p * fst p + snd p * snd p.

(* ------------------------------------------------------------------ *)
(** ** The scene: [EpicycleAnimation] *)

(** The timing entries of [CONFIG]: Python integers, as shipped. *)
Record Timing : Type := {
  draw_time : Z;
  duration : Z
}.

Definition TIMING : Timing := {| draw_time := 20; duration := 40 |}.

(** [a / b] on two Python integers: ZeroDivisionError when [b] is 0,
    and otherwise what the machine makes of the quotient, a float or, when
    it is too large for one, OverflowError.  That is the parameter
    [float_div]: nothing is assumed of it. *)
Definition py_int_truediv (float_div : Z -> Z -> outcome R) (a b : Z)
  : outcome R :=
  if (b =? 0)%Z then Raise ZeroDivisionError else float_div a b.

(** [int(x)] on a float: truncation towards zero. *)
Definition py_int (x : R) : Z :=
  if Rle_dec 0 x then Zfloor x else Zceil x.

(** [l[i]] for a Python integer index: negative indices count from the
    end. *)
Definition py_getitem {A : Type} (l : list A) (i : Z) : outcome A :=
  if (0 <=? i)%Z then index_at l (Z.to_nat i)
  else if (- Z.of_nat (length l) <=? i)%Z
       then index_at l (Z.to_nat (Z.of_nat (length l) + i))
       else Raise IndexError.

(** The body of [for loop_num in range(num_loops)] in [construct]: the
    run times of the successive [self.play] calls. *)
Fixpoint play_loops (timing : Timing) (loop_nums : list nat) : list Z :=
  match loop_nums with
  | [] => []
  | loop_num :: rest =>
      let remaining_time :=
        (duration timing - Z.of_nat loop_num * draw_time timing)%Z in
      let this_loop_duration := Z.min (draw_time timing) remaining_time in
      if (this_loop_duration <=? 0)%Z
      then []
      else this_loop_duration :: play_loops timing rest
  end.

(** [int(np.ceil(duration / draw_time))]. *)
Definition num_loops (float_div : Z -> Z -> outcome R) (timing : Timing)
  : outcome Z :=
  q <- py_int_truediv float_div (duration timing) (draw_time timing) ;;
  Ok (Zceil q).

(** [construct], as the list of run times it plays. *)
Definition construct (float_div : Z -> Z -> outcome R) (timing : Timing)
  (path_points : list vec3) : outcome (list Z) :=
  n <- num_loops float_div timing ;;
  _ <- index_first path_points ;;
  Ok (play_loops timing (seq 0 (Z.to_nat n))).

(** The sum of a list of run times. *)
Definition Zsum (l : list Z) : Z := fold_right Z.add 0%Z l.

(** [update_animation(mob, alpha)]: the pen position and the state that
    are displayed. *)
Definition update_animation (path_points : list vec3)
  (epicycle_states : list Frame) (alpha : R) : outcome (vec3 * Frame) :=
  let num_steps := Z.of_nat (length path_points) in
  let step_idx := py_int (alpha * IZR (num_steps - 1)) in
  p <- py_getitem path_points step_idx ;;
  state <- py_getitem epicycle_states step_idx ;;
  Ok (p, state).

(** Euclidean distance of two positions. *)
Definition dist3 (a b : vec3) : R :=
  sqrt ((fst (fst b) - fst (fst a)) * (fst (fst b) - fst (fst a))
        + (snd (fst b) - snd (fst a)) * (snd (fst b) - snd (fst a))
        + (snd b - snd a) * (snd b - snd a)).

(* ================================================================== *)
(** * Properties *)

(** ** Booleans and indexing *)

Lemma Rltb_true a b : a < b -> Rltb a b = true.
Proof. intros H. unfold Rltb. destruct (Rlt_dec a b); [reflexivity | contradiction]. Qed.

Lemma Rltb_false a b : ~ a < b -> Rltb a b = false.
Proof. intros H. unfold Rltb. destruct (Rlt_dec a b); [contradiction | reflexivity]. Qed.

Lemma Rltb_spec a b : Rltb a b = true <-> a < b.
Proof.
  unfold Rltb. destruct (Rlt_dec a b); split; intros; try assumption;
    try reflexivity; try discriminate; contradiction.
Qed.

Lemma Rleb_spec a b : Rleb a b = true <-> a <= b.
Proof.
  unfold Rleb. destruct (Rle_dec a b); split; intros; try assumption;
    try reflexivity; try discriminate; contradiction.
Qed.

Lemma Reqb_spec a b : Reqb a b = true <-> a = b.
Proof.
  unfold Reqb. destruct (Req_dec_T a b); split; intros; try assumption;
    try reflexivity; try discriminate; contradiction.
Qed.

Lemma Reqb_refl a : Reqb a a = true.
Proof. apply Reqb_spec. reflexivity. Qed.

Lemma array_equal_spec a b : array_equal a b = true <-> a = b.
Proof.
  unfold array_equal. destruct (list_eq_dec point_eq_dec a b); split; intros;
    try assumption; try reflexivity; try discriminate; contradiction.
Qed.

Lemma array_equal_refl a : array_equal a a = true.
Proof. apply array_equal_spec. reflexivity. Qed.

Lemma array_equal_neq a b : a <> b -> array_equal a b = false.
Proof.
  intros H. destruct (array_equal a b) eqn:E; [|reflexivity].
  apply array_equal_spec in E. contradiction.
Qed.

Lemma index_first_ok (c : contour) :
  c <> [] -> index_first c = Ok (first_point c).
Proof. destruct c; [congruence | reflexivity]. Qed.

Lemma index_last_ok (c : contour) :
  c <> [] -> index_last c = Ok (last_point c).
Proof.
  intros H. destruct (exists_last H) as [l [x ->]].
  unfold index_last, last_point. rewrite rev_unit, last_last. reflexivity.
Qed.

Lemma rev_nonempty (c : contour) : c <> [] -> rev c <> [].
Proof.
  intros H E. apply (f_equal (@rev point)) in E. rewrite rev_involutive in E.
  simpl in E. contradiction.
Qed.

Lemma oriented_nonempty b (c : contour) : c <> [] -> oriented b c <> [].
Proof. destruct b; simpl; [apply rev_nonempty | trivial]. Qed.

Lemma oriented_length b (c : contour) : length (oriented b c) = length c.
Proof. destruct b; simpl; [apply length_rev | reflexivity]. Qed.

Lemma oriented_same_block b c : same_block c (oriented b c).
Proof. destruct b; [right | left]; reflexivity. Qed.

(** ** The inner scan of the stitcher *)

Lemma scan_contour_ok pos st c :
  c <> [] ->
  scan_contour pos st c =
    Ok (let st1 :=
          if lt_best (dist_first pos c) (best_dist st)
          then {| best_contour := Some c; best_dist := Some (dist_first pos c);
                  should_reverse := false |}
          else st in
        if lt_best (dist_last pos c) (best_dist st1)
        then {| best_contour := Some c; best_dist := Some (dist_last pos c);
                should_reverse := true |}
        else st1).
Proof.
  intros H. unfold scan_contour.
  rewrite (index_first_ok c H), (index_last_ok c H). reflexivity.
Qed.

(** A distance bound over [seen ++ [c]]: from the invariant for the
    contours already seen, from the two tests for the new one. *)
Ltac bound_seen Hmin H :=
  destruct H as [<-|H];
  [ destruct (Hmin _ (or_introl eq_refl)); lra
  | apply in_app_or in H; destruct H as [H|[<-|[]]];
    [ destruct (Hmin _ (or_intror H)); lra | lra ] ].

Ltac in_last := right; apply in_or_app; right; left; reflexivity.

Lemma scan_contour_inv pos seen st c :
  c <> [] -> scan_inv pos seen st ->
  exists st', scan_contour pos st c = Ok st' /\ scan_inv pos (seen ++ [c]) st'.
Proof.
  intros Hc Hinv. rewrite (scan_contour_ok pos st c Hc).
  eexists; split; [reflexivity|].
  destruct seen as [|s0 seen].
  - simpl in Hinv. subst st. simpl.
    destruct (Rltb (dist_last pos c) (dist_first pos c)) eqn:E; simpl.
    + apply Rltb_spec in E.
      exists c, (dist_last pos c). repeat split; auto; simpl in *;
        destruct H as [<-|[]]; lra.
    + assert (~ dist_last pos c < dist_first pos c) as N
          by (intro A; apply Rltb_spec in A; congruence).
      exists c, (dist_first pos c). repeat split; auto; simpl in *;
        try discriminate; destruct H as [<-|[]]; lra.
  - simpl in Hinv. destruct Hinv as (bc & d & Hb & Hd & Hin & Hval & Hmin & Hrev).
    change ((s0 :: seen) ++ [c]) with (s0 :: (seen ++ [c])).
    cbv beta iota delta [scan_inv].
    rewrite Hd. simpl lt_best.
    destruct (Rltb (dist_first pos c) d) eqn:E1; simpl.
    + apply Rltb_spec in E1.
      destruct (Rltb (dist_last pos c) (dist_first pos c)) eqn:E2; simpl.
      * apply Rltb_spec in E2.
        exists c, (dist_last pos c). repeat split; auto.
        -- in_last.
        -- bound_seen Hmin H.
        -- bound_seen Hmin H.
      * assert (~ dist_last pos c < dist_first pos c) as N
            by (intro A; apply Rltb_spec in A; congruence).
        exists c, (dist_first pos c). repeat split; auto; try discriminate.
        -- in_last.
        -- bound_seen Hmin H.
        -- bound_seen Hmin H.
    + assert (~ dist_first pos c < d) as N1
          by (intro A; apply Rltb_spec in A; congruence).
      rewrite Hd. simpl lt_best.
      destruct (Rltb (dist_last pos c) d) eqn:E2; simpl.
      * apply Rltb_spec in E2.
        exists c, (dist_last pos c). repeat split; auto.
        -- in_last.
        -- bound_seen Hmin H.
        -- bound_seen Hmin H.
        -- intros _. lra.
      * assert (~ dist_last pos c < d) as N2
            by (intro A; apply Rltb_spec in A; congruence).
        exists bc, d. repeat split; auto.
        -- destruct Hin as [Hin|Hin]; [left; exact Hin|].
           right. apply in_or_app. left. exact Hin.
        -- bound_seen Hmin H.
        -- bound_seen Hmin H.
Qed.

Lemma scan_remaining_inv pos rest : forall seen st,
  nonempty_contours rest -> scan_inv pos seen st ->
  exists st', scan_remaining pos st rest = Ok st' /\ scan_inv pos (seen ++ rest) st'.
Proof.
  induction rest as [|c rest IH]; intros seen st Hne Hinv.
  - exists st. rewrite app_nil_r. split; [reflexivity | exact Hinv].
  - inversion Hne as [|? ? Hc Hrest]; subst.
    destruct (scan_contour_inv pos seen st c Hc Hinv) as (st1 & E1 & Hinv1).
    destruct (IH (seen ++ [c]) st1 Hrest Hinv1) as (st2 & E2 & Hinv2).
    exists st2. simpl. rewrite E1. simpl. rewrite E2.
    rewrite <- app_assoc in Hinv2. split; [reflexivity | exact Hinv2].
Qed.

(** ** One iteration of the stitching loop *)

Lemma stitch_iteration_spec pos remaining :
  remaining <> [] -> nonempty_contours remaining ->
  exists c reversed,
    In c remaining /\
    (forall c', In c' remaining ->
       Rmin (dist_first pos c) (dist_last pos c) <= dist_first pos c' /\
       Rmin (dist_first pos c) (dist_last pos c) <= dist_last pos c') /\
    (reversed = true <-> dist_last pos c < dist_first pos c) /\
    stitch_iteration pos remaining =
      Ok (oriented reversed c, last_point (oriented reversed c),
          filter (keep_contour (oriented reversed c)) remaining).
Proof.
  intros Hnil Hne.
  destruct (scan_remaining_inv pos remaining [] Best_init Hne eq_refl)
    as (st & E & Hinv).
  simpl in Hinv. destruct remaining as [|r0 remaining]; [congruence|].
  destruct Hinv as (bc & d & Hb & Hd & Hin & Hval & Hmin & Hrev).
  exists bc, (should_reverse st).
  assert (Hbc : bc <> []).
  { exact (proj1 (Forall_forall _ _) Hne bc Hin). }
  destruct (Hmin bc Hin) as [Hf Hl].
  assert (Hd' : d = Rmin (dist_first pos bc) (dist_last pos bc)).
  { unfold Rmin. destruct (should_reverse st) eqn:Er.
    - specialize (Hrev eq_refl).
      destruct (Rle_dec (dist_first pos bc) (dist_last pos bc)); lra.
    - destruct (Rle_dec (dist_first pos bc) (dist_last pos bc)); lra. }
  split; [exact Hin|]. split; [|split].
  - intros c' Hc'. rewrite <- Hd'. apply Hmin. exact Hc'.
  - split; [exact Hrev|]. intros Hlt.
    destruct (should_reverse st); [reflexivity|]. lra.
  - unfold stitch_iteration. rewrite E. cbn [bind]. rewrite Hb. cbv zeta.
    change (if should_reverse st then rev bc else bc)
      with (oriented (should_reverse st) bc).
    rewrite (index_last_ok _ (oriented_nonempty (should_reverse st) bc Hbc)).
    reflexivity.
Qed.

(** ** Stitching two copies of one contour *)

Lemma norm_self p : norm (psub p p) = 0.
Proof.
  unfold norm, psub. simpl.
  replace ((fst p - fst p) * (fst p - fst p) + (snd p - snd p) * (snd p - snd p))
    with 0 by ring.
  apply sqrt_0.
Qed.

Lemma norm_unit_x a b : norm (psub (a, b) (a + 1, b)) = 1.
Proof.
  unfold norm, psub. simpl.
  replace ((a - (a + 1)) * (a - (a + 1)) + (b - b) * (b - b)) with 1 by ring.
  apply sqrt_1.
Qed.

Lemma norm_nonneg v : 0 <= norm v.
Proof. unfold norm. apply sqrt_pos. Qed.

Lemma stitch_segment_twice (B : contour) :
  B = [(0, 0); (1, 0)] \/ B = [(1, 0); (0, 0)] ->
  connect_contours_tsp [[(0, 0); (1, 0)]; B] = Ok [(0, 0); (1, 0)].
Proof.
  intros HB.
  assert (D0 : dist_first (0, 0) [(0, 0); (1, 0)] = 0) by apply norm_self.
  assert (D1 : dist_last (0, 0) [(0, 0); (1, 0)] = 1).
  { unfold dist_last, last_point. simpl last.
    replace (1, 0) with (0 + 1, 0) by (f_equal; ring). apply norm_unit_x. }
  assert (DB : 0 <= dist_first (0, 0) B /\ 0 <= dist_last (0, 0) B)
    by (split; apply norm_nonneg).
  assert (KB : keep_contour [(0, 0); (1, 0)] B = false).
  { unfold keep_contour. destruct HB as [-> | ->].
    - rewrite array_equal_refl. reflexivity.
    - apply andb_false_iff. right. apply negb_false_iff.
      apply array_equal_spec. reflexivity. }
  assert (NB : B <> []) by (destruct HB as [-> | ->]; discriminate).
  unfold connect_contours_tsp. cbn [index_first bind length stitch_loop].
  unfold stitch_iteration. cbn [scan_remaining].
  rewrite (scan_contour_ok (0, 0) Best_init [(0, 0); (1, 0)]) by discriminate.
  cbn [bind best_dist Best_init lt_best]. rewrite D0, D1.
  rewrite (Rltb_false 1 0) by lra. cbn [bind].
  rewrite (scan_contour_ok (0, 0) _ B NB).
  cbn [bind best_dist lt_best].
  rewrite (Rltb_false (dist_first (0, 0) B) 0) by lra.
  cbn [best_dist lt_best].
  rewrite (Rltb_false (dist_last (0, 0) B) 0) by lra.
  cbn [best_contour should_reverse bind].
  rewrite (index_last_ok [(0, 0); (1, 0)]) by discriminate.
  cbn [bind filter]. rewrite KB.
  unfold keep_contour at 1. rewrite array_equal_refl.
  cbn [negb andb app stitch_loop bind np_concatenate concat].
  reflexivity.
Qed.

(** C1 - evaluation at two inputs.  Given the same two-point contour
    twice, or that contour and its point-reverse, the stitcher returns
    the two points of one copy: four points went in, two come out, and
    the second contour is not a block of the output. *)
Theorem stitch_loses_equal_contours :
  connect_contours_tsp [[(0, 0); (1, 0)]; [(0, 0); (1, 0)]] = Ok [(0, 0); (1, 0)] /\
  connect_contours_tsp [[(0, 0); (1, 0)]; [(1, 0); (0, 0)]] = Ok [(0, 0); (1, 0)] /\
  total_points [[(0, 0); (1, 0)]; [(0, 0); (1, 0)]] = 4%nat /\
  total_points [[(0, 0); (1, 0)]; [(1, 0); (0, 0)]] = 4%nat /\
  length [(0, 0); (1, 0)] = 2%nat.
Proof.
  split; [apply stitch_segment_twice; left; reflexivity|].
  split; [apply stitch_segment_twice; right; reflexivity|].
  repeat split.
Qed.

(** ** The stitching loop ends, and what it appends *)

Lemma keep_contour_chosen reversed c :
  keep_contour (oriented reversed c) c = false.
Proof.
  unfold keep_contour. destruct reversed; simpl.
  - rewrite rev_involutive, array_equal_refl. apply andb_false_r.
  - rewrite array_equal_refl. reflexivity.
Qed.

Lemma filter_drops_one {A : Type} (f : A -> bool) (x : A) (l : list A) :
  In x l -> f x = false -> (length (filter f l) < length l)%nat.
Proof.
  induction l as [|a l IH]; intros Hin Hf; [destruct Hin|].
  simpl. destruct Hin as [->|Hin].
  - rewrite Hf. pose proof (filter_length_le f l). lia.
  - specialize (IH Hin Hf). destruct (f a); simpl; lia.
Qed.

Lemma nonempty_contours_filter f cs :
  nonempty_contours cs -> nonempty_contours (filter f cs).
Proof.
  unfold nonempty_contours. rewrite !Forall_forall.
  intros H c Hc. apply filter_In in Hc. apply H. tauto.
Qed.

Lemma stitch_loop_blocks : forall fuel ordered pos remaining,
  nonempty_contours remaining -> (length remaining <= fuel)%nat ->
  exists blocks,
    stitch_loop fuel ordered pos remaining = Ok (ordered ++ blocks) /\
    Forall (fun b => exists c, In c remaining /\ same_block c b) blocks /\
    (remaining <> [] -> blocks <> []).
Proof.
  induction fuel as [|fuel IH]; intros ordered pos remaining Hne Hlen.
  - destruct remaining; [|simpl in Hlen; lia].
    exists []. rewrite app_nil_r. repeat split; auto.
  - destruct remaining as [|r0 rest] eqn:Er.
    + exists []. rewrite app_nil_r. repeat split; auto.
    + rewrite <- Er in *.
      assert (Hnil : remaining <> []) by (rewrite Er; discriminate).
      destruct (stitch_iteration_spec pos remaining Hnil Hne)
        as (c & reversed & Hin & _ & _ & E).
      set (best := oriented reversed c) in *.
      set (remaining' := filter (keep_contour best) remaining) in *.
      assert (Hlt : (length remaining' < length remaining)%nat).
      { apply (filter_drops_one _ c); [exact Hin | apply keep_contour_chosen]. }
      destruct (IH (ordered ++ [best]) (last_point best) remaining'
                  (nonempty_contours_filter _ _ Hne) ltac:(lia))
        as (blocks & Eb & Hb & _).
      exists (best :: blocks). split; [|split].
      * rewrite Er. cbn [stitch_loop]. rewrite <- Er. rewrite E. cbn [bind].
        rewrite Eb, <- app_assoc. reflexivity.
      * constructor.
        -- exists c. split; [exact Hin | apply oriented_same_block].
        -- eapply Forall_impl; [|exact Hb].
           intros b (c' & Hc' & Hs). exists c'. split; [|exact Hs].
           apply filter_In in Hc'. tauto.
      * discriminate.
Qed.

(** The stitcher returns on every non-empty list of non-empty contours:
    its loop bound is never exhausted and nothing is raised. *)
Lemma connect_contours_tsp_returns contours :
  contours <> [] -> nonempty_contours contours ->
  exists blocks,
    connect_contours_tsp contours = Ok (concat blocks) /\
    blocks <> [] /\
    Forall (fun b => exists c, In c contours /\ same_block c b) blocks.
Proof.
  intros Hnil Hne. destruct contours as [|c0 rest]; [congruence|].
  assert (Hc0 : c0 <> []) by (inversion Hne; assumption).
  destruct (stitch_loop_blocks (length (c0 :: rest)) [] (first_point c0)
              (c0 :: rest) Hne (le_n _)) as (blocks & E & Hb & Hnb).
  exists blocks. split; [|split; [apply Hnb; discriminate | exact Hb]].
  unfold connect_contours_tsp. cbn [index_first bind].
  rewrite (index_first_ok c0 Hc0). cbn [bind]. rewrite E. cbn [bind app].
  destruct blocks; [exfalso; apply Hnb; [discriminate | reflexivity]|].
  reflexivity.
Qed.

(** The bound on the loop is an artefact of the embedding: it is never
    exhausted, whatever the contours. *)
Lemma scan_remaining_ok_nonempty pos : forall remaining st st',
  scan_remaining pos st remaining = Ok st' -> nonempty_contours remaining.
Proof.
  induction remaining as [|c remaining IH]; intros st st' E; [constructor|].
  cbn [scan_remaining] in E.
  destruct c as [|p c]; [discriminate|].
  rewrite scan_contour_ok in E by discriminate. cbn [bind] in E.
  constructor; [discriminate | eapply IH; exact E].
Qed.

Lemma scan_remaining_bounded pos : forall remaining st,
  scan_remaining pos st remaining <> OutOfFuel.
Proof.
  induction remaining as [|c remaining IH]; intros st; [discriminate|].
  cbn [scan_remaining]. destruct c as [|p c]; [discriminate|].
  rewrite scan_contour_ok by discriminate. cbn [bind]. apply IH.
Qed.

Lemma stitch_iteration_cases pos remaining :
  (exists e, stitch_iteration pos remaining = Raise e) \/
  (nonempty_contours remaining /\
   exists r, stitch_iteration pos remaining = Ok r).
Proof.
  unfold stitch_iteration.
  destruct (scan_remaining pos Best_init remaining) as [st|e|] eqn:E.
  - cbn [bind]. destruct (best_contour st) as [bc|]; [|left; eexists; reflexivity].
    destruct (index_last (if should_reverse st then rev bc else bc)) as [x|e|] eqn:El;
      cbn [bind].
    + right. split; [eapply scan_remaining_ok_nonempty; exact E|].
      eexists. reflexivity.
    + left. eexists. reflexivity.
    + unfold index_last in El. destruct (rev _); discriminate.
  - left. eexists. reflexivity.
  - exfalso. eapply scan_remaining_bounded. exact E.
Qed.

Lemma stitch_loop_bounded : forall fuel ordered pos remaining,
  (length remaining <= fuel)%nat ->
  stitch_loop fuel ordered pos remaining <> OutOfFuel.
Proof.
  intros fuel ordered pos remaining Hlen.
  destruct remaining as [|r0 rest] eqn:Er; [destruct fuel; discriminate|].
  rewrite <- Er in *.
  destruct fuel as [|fuel]; [rewrite Er in Hlen; simpl in Hlen; lia|].
  destruct (stitch_iteration_cases pos remaining) as [[e E] | [Hne _]].
  - rewrite Er. cbn [stitch_loop]. rewrite <- Er, E. discriminate.
  - destruct (stitch_loop_blocks (S fuel) ordered pos remaining Hne Hlen)
      as (blocks & E & _).
    rewrite E. discriminate.
Qed.

Lemma connect_contours_tsp_bounded contours :
  connect_contours_tsp contours <> OutOfFuel.
Proof.
  unfold connect_contours_tsp.
  destruct contours as [|c0 rest]; [discriminate|]. cbn [index_first bind].
  destruct c0 as [|p0 c0]; [discriminate|]. cbn [index_first bind].
  match goal with
  | |- context [stitch_loop ?fuel ?o ?p ?r] =>
      destruct (stitch_loop fuel o p r) as [ordered|e|] eqn:E
  end.
  - cbn [bind]. destruct ordered; discriminate.
  - discriminate.
  - exfalso. eapply stitch_loop_bounded; [|exact E]. apply le_n.
Qed.

(** ** The states of the stitching loop *)

Lemma filter_all_true {A : Type} (f : A -> bool) (l : list A) :
  (forall x, In x l -> f x = true) -> filter f l = l.
Proof.
  induction l as [|a l IH]; intros H; [reflexivity|].
  simpl. rewrite (H a (or_introl eq_refl)). f_equal.
  apply IH. intros x Hx. apply H. right. exact Hx.
Qed.

Lemma stitch_iteration_remaining pos remaining best pos' remaining' :
  stitch_iteration pos remaining = Ok (best, pos', remaining') ->
  remaining' = filter (keep_contour best) remaining.
Proof.
  unfold stitch_iteration.
  destruct (scan_remaining pos Best_init remaining) as [st| |]; cbn [bind];
    try discriminate.
  destruct (best_contour st) as [bc|]; [|discriminate].
  destruct (index_last (if should_reverse st then rev bc else bc)); cbn [bind];
    try discriminate.
  intros E. injection E as <- _ <-. reflexivity.
Qed.

Lemma unused_nil contours : unused contours [] = contours.
Proof. unfold unused. apply filter_all_true. reflexivity. Qed.

Lemma unused_snoc contours ordered best :
  filter (keep_contour best) (unused contours ordered)
  = unused contours (ordered ++ [best]).
Proof.
  unfold unused. induction contours as [|c contours IH]; [reflexivity|].
  cbn [filter]. rewrite forallb_app. cbn [forallb]. rewrite andb_true_r.
  destruct (forallb (fun b => keep_contour b c) ordered); cbn [filter andb].
  - rewrite IH. reflexivity.
  - exact IH.
Qed.

Lemma loop_state_unused contours ordered pos remaining :
  loop_state contours ordered pos remaining ->
  remaining = unused contours ordered.
Proof.
  induction 1 as [p0 c0 rest E | ordered pos remaining best pos' remaining' _ IH _ E].
  - symmetry. apply unused_nil.
  - apply stitch_iteration_remaining in E. rewrite E, IH. apply unused_snoc.
Qed.

Lemma loop_state_start contours pos remaining :
  loop_state contours [] pos remaining ->
  exists c0 rest,
    contours = c0 :: rest /\ pos = first_point c0 /\ remaining = contours /\
    connect_contours_tsp contours =
      (ordered <- stitch_loop (length contours) [] pos contours ;;
       np_concatenate ordered).
Proof.
  intros H. remember [] as ordered eqn:Eo.
  destruct H as [p0 c0 rest E | ordered pos remaining best pos' remaining' _ _ _].
  - subst contours. exists (p0 :: c0), rest. repeat split; reflexivity.
  - destruct ordered; discriminate.
Qed.

(** The greedy step.  The loop starts at the first point of the first
    contour with every contour in [remaining].  In every state it
    reaches, [remaining] holds the input contours that the filter has
    kept (those equal neither to an appended block nor to its reverse),
    and the iteration appends a contour [c] of [remaining] one of whose
    two end points is at minimal Euclidean distance from the current
    position among all end points of the contours of [remaining]; [c] is
    appended point-reversed exactly when its last point is strictly
    nearer than its first, and the current position becomes the last
    point of what was appended. *)
Lemma loop_state_greedy_step :
  forall (contours ordered : list contour) (pos : point) (remaining : list contour),
    nonempty_contours contours ->
    loop_state contours ordered pos remaining ->
    remaining = unused contours ordered /\
    (ordered = [] ->
       exists c0 rest,
         contours = c0 :: rest /\ pos = first_point c0 /\ remaining = contours /\
         connect_contours_tsp contours =
           (ordered <- stitch_loop (length contours) [] pos contours ;;
            np_concatenate ordered)) /\
    (remaining <> [] ->
       exists c reversed,
         In c remaining /\
         (forall c', In c' remaining ->
            Rmin (dist_first pos c) (dist_last pos c) <= dist_first pos c' /\
            Rmin (dist_first pos c) (dist_last pos c) <= dist_last pos c') /\
         (reversed = true <-> dist_last pos c < dist_first pos c) /\
         (forall fuel,
            stitch_loop (S fuel) ordered pos remaining =
              stitch_loop fuel (ordered ++ [oriented reversed c])
                (last_point (oriented reversed c))
                (filter (keep_contour (oriented reversed c)) remaining)) /\
         loop_state contours (ordered ++ [oriented reversed c])
           (last_point (oriented reversed c))
           (filter (keep_contour (oriented reversed c)) remaining)).
Proof.
  intros contours ordered pos remaining Hne Hstate.
  pose proof (loop_state_unused _ _ _ _ Hstate) as Hun.
  split; [exact Hun|]. split.
  - intros ->. apply loop_state_start. exact Hstate.
  - intros Hnil.
    assert (Hne' : nonempty_contours remaining).
    { rewrite Hun. apply nonempty_contours_filter. exact Hne. }
    destruct (stitch_iteration_spec pos remaining Hnil Hne')
      as (c & reversed & Hin & Hmin & Hrev & E).
    exists c, reversed.
    split; [exact Hin|]. split; [exact Hmin|]. split; [exact Hrev|]. split.
    + intros fuel. destruct remaining as [|r0 remaining]; [congruence|].
      cbn [stitch_loop]. rewrite E. reflexivity.
    + eapply ls_step; [exact Hstate | exact Hnil | exact E].
Qed.

(** ** Stitching contours that differ pairwise, up to reversal *)

Lemma keep_contour_other reversed c x :
  x <> c -> x <> rev c -> keep_contour (oriented reversed c) x = true.
Proof.
  intros H1 H2. unfold keep_contour. destruct reversed; simpl.
  - rewrite rev_involutive.
    rewrite (array_equal_neq x (rev c) H2), (array_equal_neq x c H1). reflexivity.
  - rewrite (array_equal_neq x c H1), (array_equal_neq x (rev c) H2). reflexivity.
Qed.

Lemma rev_swap (a b : contour) : a <> rev b -> b <> rev a.
Proof. intros H E. apply H. rewrite E, rev_involutive. reflexivity. Qed.

Lemma filter_removes_chosen reversed c l :
  distinct_up_to_reversal l -> In c l ->
  Permutation l (c :: filter (keep_contour (oriented reversed c)) l).
Proof.
  unfold distinct_up_to_reversal.
  induction l as [|a l IH]; intros Hd Hin; [destruct Hin|].
  inversion Hd as [|? ? Ha Hl]; subst.
  cbn [filter]. destruct Hin as [->|Hin].
  - rewrite keep_contour_chosen. rewrite filter_all_true; [reflexivity|].
    intros x Hx. rewrite Forall_forall in Ha. destruct (Ha x Hx) as [N1 N2].
    apply keep_contour_other; [congruence | apply rev_swap; exact N2].
  - rewrite Forall_forall in Ha. destruct (Ha c Hin) as [N1 N2].
    rewrite (keep_contour_other reversed c a N1 N2).
    eapply Permutation_trans; [apply perm_skip; apply IH; assumption|].
    apply perm_swap.
Qed.

Lemma distinct_filter f l :
  distinct_up_to_reversal l -> distinct_up_to_reversal (filter f l).
Proof.
  unfold distinct_up_to_reversal.
  induction 1 as [|a l Ha Hl IH]; simpl; [constructor|].
  destruct (f a); [|exact IH].
  constructor; [|exact IH].
  rewrite Forall_forall in *. intros x Hx. apply filter_In in Hx. apply Ha. tauto.
Qed.

Lemma same_block_length c b : same_block c b -> length b = length c.
Proof. intros [-> | ->]; [reflexivity | apply length_rev]. Qed.

Lemma blocks_total_points perm blocks :
  Forall2 same_block perm blocks -> total_points blocks = total_points perm.
Proof.
  unfold total_points.
  induction 1 as [|c b perm blocks Hs _ IH]; [reflexivity|].
  simpl. rewrite !length_app, IH, (same_block_length c b Hs). reflexivity.
Qed.

Lemma total_points_perm l l' :
  Permutation l l' -> total_points l = total_points l'.
Proof.
  unfold total_points.
  induction 1; simpl; rewrite ?length_app in *; lia.
Qed.

Lemma stitch_loop_complete : forall fuel ordered pos remaining,
  nonempty_contours remaining -> distinct_up_to_reversal remaining ->
  (length remaining <= fuel)%nat ->
  exists perm blocks,
    stitch_loop fuel ordered pos remaining = Ok (ordered ++ blocks) /\
    Permutation perm remaining /\ Forall2 same_block perm blocks.
Proof.
  induction fuel as [|fuel IH]; intros ordered pos remaining Hne Hd Hlen.
  - destruct remaining; [|simpl in Hlen; lia].
    exists [], []. rewrite app_nil_r. repeat split; constructor.
  - destruct remaining as [|r0 rest] eqn:Er.
    + exists [], []. rewrite app_nil_r. repeat split; constructor.
    + rewrite <- Er in *.
      assert (Hnil : remaining <> []) by (rewrite Er; discriminate).
      destruct (stitch_iteration_spec pos remaining Hnil Hne)
        as (c & reversed & Hin & _ & _ & E).
      pose proof (filter_removes_chosen reversed c remaining Hd Hin) as Hp.
      set (best := oriented reversed c) in *.
      set (remaining' := filter (keep_contour best) remaining) in *.
      assert (Hlen' : (length remaining' <= fuel)%nat).
      { apply Permutation_length in Hp. simpl in Hp. lia. }
      destruct (IH (ordered ++ [best]) (last_point best) remaining'
                  (nonempty_contours_filter _ _ Hne) (distinct_filter _ _ Hd) Hlen')
        as (perm & blocks & Eb & Hperm & Hb).
      exists (c :: perm), (best :: blocks). split; [|split].
      * rewrite Er. cbn [stitch_loop]. rewrite <- Er. rewrite E. cbn [bind].
        rewrite Eb, <- app_assoc. reflexivity.
      * rewrite Hp. apply perm_skip. exact Hperm.
      * constructor; [apply oriented_same_block | exact Hb].
Qed.

(** Stitch completeness where it holds: when no contour is empty and no
    two contours are equal or reverses of one another, the output is the
    concatenation of the input contours in some order, each as it is or
    point-reversed, and so has as many points as the input. *)
Lemma connect_contours_tsp_complete contours :
  contours <> [] -> nonempty_contours contours ->
  distinct_up_to_reversal contours ->
  exists perm blocks traversal,
    connect_contours_tsp contours = Ok traversal /\
    traversal = concat blocks /\
    Permutation perm contours /\ Forall2 same_block perm blocks /\
    length traversal = total_points contours.
Proof.
  intros Hnil Hne Hd. destruct contours as [|c0 rest]; [congruence|].
  assert (Hc0 : c0 <> []) by (inversion Hne; assumption).
  destruct (stitch_loop_complete (length (c0 :: rest)) [] (first_point c0)
              (c0 :: rest) Hne Hd (le_n _)) as (perm & blocks & E & Hp & Hb).
  exists perm, blocks, (concat blocks). split; [|repeat split; auto].
  - unfold connect_contours_tsp. cbn [index_first bind].
    rewrite (index_first_ok c0 Hc0). cbn [bind]. rewrite E. cbn [bind app].
    destruct blocks; [|reflexivity].
    inversion Hb; subst. apply Permutation_nil in Hp. discriminate.
  - change (length (concat blocks)) with (total_points blocks).
    rewrite (blocks_total_points perm blocks Hb). apply total_points_perm. exact Hp.
Qed.

(** With contours that differ pairwise, up to reversal, [remaining]
    holds exactly the input contours that have not been appended. *)
Lemma loop_state_not_yet_appended contours ordered pos remaining :
  nonempty_contours contours -> distinct_up_to_reversal contours ->
  loop_state contours ordered pos remaining ->
  exists used,
    Forall2 same_block used ordered /\
    Permutation (used ++ remaining) contours /\
    nonempty_contours remaining /\ distinct_up_to_reversal remaining.
Proof.
  intros Hne Hd.
  induction 1 as [p0 c0 rest E | ordered pos remaining best pos' remaining' _ IH Hnil E].
  - exists []. split; [constructor|]. split; [reflexivity|]. split; assumption.
  - destruct IH as (used & Hused & Hperm & Hne' & Hd').
    destruct (stitch_iteration_spec pos remaining Hnil Hne')
      as (c & reversed & Hin & _ & _ & E').
    assert (Eq : best = oriented reversed c /\
                 remaining' = filter (keep_contour (oriented reversed c)) remaining)
      by (split; congruence).
    destruct Eq as [-> ->].
    pose proof (filter_removes_chosen reversed c remaining Hd' Hin) as Hp.
    exists (used ++ [c]). split; [|split; [|split]].
    + apply Forall2_app; [exact Hused|].
      constructor; [apply oriented_same_block | constructor].
    + rewrite <- app_assoc. cbn [app]. rewrite <- Hp. exact Hperm.
    + apply nonempty_contours_filter. exact Hne'.
    + apply distinct_filter. exact Hd'.
Qed.

(** ** A contour that is never appended *)

Lemma norm_pos v : fst v <> 0 \/ snd v <> 0 -> 0 < norm v.
Proof.
  intros H. unfold norm. apply sqrt_lt_R0. destruct H; nra.
Qed.

(** The end points of the far segment, seen from the end of the near
    one: its first point is the nearer of the two. *)
Lemma far_segment_distances :
  0 < dist_first (1, 0) [(5, 5); (6, 5)] /\
  dist_first (1, 0) [(5, 5); (6, 5)] < dist_last (1, 0) [(5, 5); (6, 5)].
Proof.
  unfold dist_first, dist_last, first_point, last_point, norm, psub.
  cbn [hd last fst snd]. split.
  - apply sqrt_lt_R0. lra.
  - apply sqrt_lt_1_alt. lra.
Qed.

(** C8 - evaluation at one input.  Given the segment [A] from (0,0) to
    (1,0), the far segment [C] from (5,5) to (6,5) and [A] once more, the
    loop appends the first contour and reaches the position (1,0) with
    only [C] in [remaining]: the third contour, which has not been
    appended and ends at distance 0 from that position, is gone.  The
    second iteration appends [C], whose two end points are farther, and
    the loop ends: the third contour is never appended. *)
Theorem stitch_skips_nearer_duplicate :
  loop_state [[(0, 0); (1, 0)]; [(5, 5); (6, 5)]; [(0, 0); (1, 0)]]
    [[(0, 0); (1, 0)]] (1, 0) [[(5, 5); (6, 5)]] /\
  dist_last (1, 0) [(0, 0); (1, 0)] = 0 /\
  0 < dist_first (1, 0) [(5, 5); (6, 5)] /\
  0 < dist_last (1, 0) [(5, 5); (6, 5)] /\
  stitch_iteration (1, 0) [[(5, 5); (6, 5)]] = Ok ([(5, 5); (6, 5)], (6, 5), []) /\
  connect_contours_tsp [[(0, 0); (1, 0)]; [(5, 5); (6, 5)]; [(0, 0); (1, 0)]]
    = Ok [(0, 0); (1, 0); (5, 5); (6, 5)].
Proof.
  set (A := [(0, 0); (1, 0)] : contour).
  set (C := [(5, 5); (6, 5)] : contour).
  destruct far_segment_distances as [HC0 HC1]. fold C in HC0, HC1.
  assert (DA0 : dist_first (0, 0) A = 0) by apply norm_self.
  assert (DA1 : dist_last (0, 0) A = 1).
  { unfold dist_last, last_point, A. simpl last.
    replace (1, 0) with (0 + 1, 0) by (f_equal; ring). apply norm_unit_x. }
  assert (DC : 0 < dist_first (0, 0) C /\ 0 < dist_last (0, 0) C).
  { unfold dist_first, dist_last, first_point, last_point, C.
    cbn [hd last]. split; apply norm_pos; left; cbn [psub fst snd]; lra. }
  assert (KC : keep_contour A C = true).
  { apply (keep_contour_other false A C);
      unfold A, C; cbn [rev app]; intros E; injection E; intros; lra. }
  assert (KCA : keep_contour C A = true).
  { apply (keep_contour_other false C A);
      unfold A, C; cbn [rev app]; intros E; injection E; intros; lra. }
  assert (KA : keep_contour A A = false) by apply (keep_contour_chosen false A).
  assert (KCC : keep_contour C C = false) by apply (keep_contour_chosen false C).
  (* first iteration, from (0,0) *)
  assert (E1 : stitch_iteration (0, 0) [A; C; A] = Ok (A, (1, 0), [C])).
  { unfold stitch_iteration. cbn [scan_remaining].
    rewrite (scan_contour_ok (0, 0) Best_init A) by discriminate.
    cbn [bind best_dist Best_init lt_best]. rewrite DA0, DA1.
    rewrite (Rltb_false 1 0) by lra. cbn [bind].
    rewrite (scan_contour_ok (0, 0) _ C) by discriminate.
    cbn [bind best_dist lt_best].
    rewrite (Rltb_false (dist_first (0, 0) C) 0) by lra.
    cbn [best_dist lt_best].
    rewrite (Rltb_false (dist_last (0, 0) C) 0) by lra. cbn [bind].
    rewrite (scan_contour_ok (0, 0) _ A) by discriminate.
    cbn [bind best_dist lt_best]. rewrite DA0, DA1.
    rewrite (Rltb_false 0 0) by lra. cbn [best_dist lt_best].
    rewrite (Rltb_false 1 0) by lra.
    cbn [best_contour should_reverse bind].
    rewrite (index_last_ok A) by discriminate. cbn [bind filter].
    rewrite KA, KC. reflexivity. }
  (* second iteration, from (1,0) *)
  assert (E2 : stitch_iteration (1, 0) [C] = Ok (C, (6, 5), [])).
  { unfold stitch_iteration. cbn [scan_remaining].
    rewrite (scan_contour_ok (1, 0) Best_init C) by discriminate.
    cbn [bind best_dist Best_init lt_best].
    rewrite (Rltb_false (dist_last (1, 0) C) (dist_first (1, 0) C)) by lra.
    cbn [best_contour should_reverse bind].
    rewrite (index_last_ok C) by discriminate. cbn [bind filter].
    rewrite KCC. reflexivity. }
  split; [|split; [|split; [|split; [|split]]]].
  - change [A] with ([] ++ [A]).
    apply ls_step with (pos := (0, 0)) (remaining := [A; C; A]);
      [|discriminate | exact E1].
    apply ls_init with (p0 := (0, 0)) (c0 := [(1, 0)]) (rest := [C; A]).
    reflexivity.
  - apply norm_self.
  - exact HC0.
  - lra.
  - exact E2.
  - assert (E0 : index_first A = Ok (0, 0)) by reflexivity.
    unfold connect_contours_tsp. fold A C. cbn [index_first bind].
    rewrite E0. cbn [bind length stitch_loop].
    match goal with
    | |- context [stitch_iteration ?p ?r] =>
        replace (stitch_iteration p r) with (Ok (A, (1, 0), [C]))
          by (symmetry; exact E1)
    end.
    cbn [bind app stitch_loop].
    match goal with
    | |- context [stitch_iteration ?p ?r] =>
        replace (stitch_iteration p r) with (Ok (C, (6, 5), @nil contour))
          by (symmetry; exact E2)
    end.
    cbn [bind app stitch_loop np_concatenate concat].
    reflexivity.
Qed.

(** ** Sorting by magnitude *)

Lemma insert_desc_perm x l : Permutation (insert_desc x l) (x :: l).
Proof.
  induction l as [|y l IH]; simpl; [reflexivity|].
  destruct (Rltb (Cabs (snd x)) (Cabs (snd y))); [|reflexivity].
  eapply Permutation_trans; [apply perm_skip; exact IH | apply perm_swap].
Qed.

Lemma sorted_by_magnitude_perm items :
  Permutation (sorted_by_magnitude items) items.
Proof.
  induction items as [|x items IH]; simpl; [reflexivity|].
  eapply Permutation_trans; [apply insert_desc_perm | apply perm_skip; exact IH].
Qed.

Lemma sorted_by_magnitude_length items :
  length (sorted_by_magnitude items) = length items.
Proof. apply Permutation_length, sorted_by_magnitude_perm. Qed.

Lemma insert_desc_descending x l :
  descending_magnitude l -> descending_magnitude (insert_desc x l).
Proof.
  unfold descending_magnitude.
  induction 1 as [|y l Hl IH Hy]; simpl; [repeat constructor|].
  destruct (Rltb (Cabs (snd x)) (Cabs (snd y))) eqn:E.
  - apply Rltb_spec in E. constructor; [exact IH|].
    rewrite Forall_forall in *. intros z Hz.
    apply (Permutation_in _ (insert_desc_perm x l)) in Hz.
    destruct Hz as [<-|Hz]; [lra | apply Hy; exact Hz].
  - assert (N : ~ Cabs (snd x) < Cabs (snd y))
      by (intro A; apply Rltb_spec in A; congruence).
    constructor; [constructor; assumption|].
    constructor; [lra|].
    rewrite Forall_forall in *. intros z Hz. specialize (Hy z Hz). lra.
Qed.

Lemma sorted_by_magnitude_descending items :
  descending_magnitude (sorted_by_magnitude items).
Proof.
  induction items as [|x items IH]; simpl; [constructor|].
  apply insert_desc_descending. exact IH.
Qed.

(** The sort is stable: terms of one magnitude keep their input order. *)
Lemma insert_desc_stable m x l :
  filter (fun y => Reqb (Cabs (snd y)) m) (insert_desc x l)
  = filter (fun y => Reqb (Cabs (snd y)) m) (x :: l).
Proof.
  induction l as [|y l IH]; [reflexivity|].
  cbn [insert_desc]. destruct (Rltb (Cabs (snd x)) (Cabs (snd y))) eqn:E;
    [|reflexivity].
  apply Rltb_spec in E. cbn [filter] in *. rewrite IH.
  destruct (Reqb (Cabs (snd x)) m) eqn:Ex, (Reqb (Cabs (snd y)) m) eqn:Ey;
    try reflexivity.
  apply Reqb_spec in Ex, Ey. lra.
Qed.

Lemma sorted_by_magnitude_stable m items :
  filter (fun y => Reqb (Cabs (snd y)) m) (sorted_by_magnitude items)
  = filter (fun y => Reqb (Cabs (snd y)) m) items.
Proof.
  induction items as [|x items IH]; [reflexivity|].
  cbn [sorted_by_magnitude fold_right]. rewrite insert_desc_stable.
  cbn [filter]. fold (sorted_by_magnitude items). rewrite IH. reflexivity.
Qed.

(** ** Energy sums *)

Lemma py_add_float_fold l : forall r,
  fold_left py_add_float l (NpFloat r) = NpFloat (fold_left Rplus l r).
Proof. induction l as [|x l IH]; intros r; simpl; [reflexivity | apply IH]. Qed.

Lemma py_sum_value l : pynum_R (py_sum l) = Rsum l.
Proof.
  unfold py_sum, Rsum. destruct l as [|x l]; simpl; [reflexivity|].
  unfold py_add_float at 2. simpl. rewrite py_add_float_fold. reflexivity.
Qed.

Lemma py_sum_float l : l <> [] -> py_sum l = NpFloat (Rsum l).
Proof.
  destruct l as [|x l]; [congruence|]. intros _.
  unfold py_sum, Rsum. simpl. unfold py_add_float at 2. simpl.
  apply py_add_float_fold.
Qed.

Lemma py_truediv_float_l a b :
  py_truediv (NpFloat a) b = Ok (np_truediv a (pynum_R b)).
Proof. reflexivity. Qed.

Lemma py_truediv_float_r a b :
  py_truediv a (NpFloat b) = Ok (np_truediv (pynum_R a) b).
Proof. destruct a; reflexivity. Qed.

(** ** The threshold scan *)

Lemma threshold_scan_spec thr total : forall items cumulative i,
  exists k,
    threshold_scan thr total cumulative i items = Ok k /\
    ((k = O /\
      forall j, (1 <= j <= length items)%nat ->
        np_ge (np_truediv (fold_left Rplus (firstn j (energies items))
                                     (pynum_R cumulative))
                          (pynum_R total)) thr = false)
     \/
     (exists j, (1 <= j <= length items)%nat /\ k = (i + j - 1)%nat /\
        np_ge (np_truediv (fold_left Rplus (firstn j (energies items))
                                     (pynum_R cumulative))
                          (pynum_R total)) thr = true /\
        forall j', (1 <= j' < j)%nat ->
          np_ge (np_truediv (fold_left Rplus (firstn j' (energies items))
                                       (pynum_R cumulative))
                            (pynum_R total)) thr = false)).
Proof.
  induction items as [|[freq coeff] items IH]; intros cumulative i.
  - exists O. split; [reflexivity|]. left. split; [reflexivity|].
    intros j Hj. simpl in Hj. lia.
  - cbn [threshold_scan]. unfold py_add_float at 1.
    rewrite py_truediv_float_l. cbn [bind].
    destruct (np_ge (np_truediv (pynum_R cumulative + energy coeff) (pynum_R total)) thr)
      eqn:E.
    + exists i. split; [reflexivity|]. right. exists 1%nat.
      split; [simpl; lia|]. split; [lia|]. split; [exact E|].
      intros j' Hj'. lia.
    + destruct (IH (py_add_float cumulative (energy coeff)) (S i))
        as (k & Ek & Hk).
      exists k. split; [exact Ek|].
      destruct Hk as [[-> Hnone] | (j & Hj & -> & Hreach & Hbefore)].
      * left. split; [reflexivity|]. intros j Hj.
        destruct j as [|j]; [lia|]. simpl in Hj. simpl.
        destruct j as [|j]; [exact E|].
        apply (Hnone (S j)). lia.
      * right. exists (S j).
        split; [simpl; lia|]. split; [lia|]. split; [exact Hreach|].
        intros j' Hj'. destruct j' as [|j']; [lia|]. simpl.
        destruct j' as [|j']; [exact E|].
        apply (Hbefore (S j')). lia.
Qed.

Lemma pre_clamp_count_spec thr items :
  exists K0,
    pre_clamp_count thr (py_sum (energies items)) items = Ok K0 /\
    smallest_reaching_prefix thr items K0.
Proof.
  destruct (threshold_scan_spec thr (py_sum (energies items)) items (PyInt 0) 1)
    as (k & Ek & Hk).
  rewrite py_sum_value in Hk. change (pynum_R (PyInt 0)) with 0 in Hk.
  unfold pre_clamp_count. rewrite Ek. cbn [bind].
  destruct Hk as [[-> Hnone] | (j & Hj & -> & Hreach & Hbefore)].
  - exists (length items). split; [reflexivity|]. right. split; [reflexivity|].
    intros k Hk. pose proof (Hnone k Hk) as F.
    fold (Rsum (firstn k (energies items))) in F.
    unfold reaches_threshold, cumulative_ratio. rewrite F. discriminate.
  - exists j. replace (1 + j - 1)%nat with j by lia.
    destruct j as [|j]; [lia|]. split; [reflexivity|]. left.
    split; [exact Hj|]. split; [exact Hreach|].
    intros k Hk. pose proof (Hbefore k Hk) as F.
    fold (Rsum (firstn k (energies items))) in F.
    unfold reaches_threshold, cumulative_ratio. rewrite F. discriminate.
Qed.

Lemma smallest_reaching_prefix_le thr items K0 :
  smallest_reaching_prefix thr items K0 -> (K0 <= length items)%nat.
Proof. intros [[H _] | [-> _]]; lia. Qed.

(** ** Recomputing the final energy *)

Lemma skipn_nth_error {A : Type} (l : list A) : forall a x,
  nth_error l a = Some x -> skipn a l = x :: skipn (S a) l.
Proof.
  induction l as [|y l IH]; intros a x H.
  - destruct a; discriminate.
  - destruct a as [|a]; simpl in *; [congruence | apply IH; exact H].
Qed.

Lemma final_energies_from (sorted_items : list (Z * complex)) : forall n a,
  (a + n <= length sorted_items)%nat ->
  mapM (fun i => x <- index_at sorted_items i ;; Ok (energy (snd x))) (seq a n)
  = Ok (firstn n (skipn a (energies sorted_items))).
Proof.
  induction n as [|n IH]; intros a Ha; [reflexivity|].
  cbn [seq mapM]. unfold index_at at 1.
  destruct (nth_error sorted_items a) as [x|] eqn:Ex.
  - cbn [bind]. rewrite (IH (S a)) by lia. cbn [bind].
    unfold energies at 2.
    rewrite (skipn_nth_error _ a (energy (snd x)));
      [reflexivity | rewrite nth_error_map, Ex; reflexivity].
  - apply nth_error_None in Ex. lia.
Qed.

Lemma final_energies_ok sorted_items K :
  (K <= length sorted_items)%nat ->
  final_energies sorted_items K = Ok (firstn K (energies sorted_items)).
Proof. intros H. unfold final_energies. rewrite final_energies_from; [reflexivity | lia]. Qed.

Lemma final_energies_past (sorted_items : list (Z * complex)) : forall n a,
  (a <= length sorted_items < a + n)%nat ->
  mapM (fun i => x <- index_at sorted_items i ;; Ok (energy (snd x))) (seq a n)
  = Raise IndexError.
Proof.
  induction n as [|n IH]; intros a Ha; [lia|].
  cbn [seq mapM]. unfold index_at at 1.
  destruct (nth_error sorted_items a) as [x|] eqn:Ex.
  - assert (a < length sorted_items)%nat
      by (apply nth_error_Some; congruence).
    cbn [bind]. rewrite (IH (S a)) by lia. reflexivity.
  - reflexivity.
Qed.

Lemma final_energies_raise sorted_items K :
  (length sorted_items < K)%nat ->
  final_energies sorted_items K = Raise IndexError.
Proof. intros H. unfold final_energies. apply final_energies_past. lia. Qed.

Lemma clamp_count_le cfg K0 N :
  (K0 <= N)%nat -> (min_epicycles cfg <= N)%nat -> (clamp_count cfg K0 <= N)%nat.
Proof. unfold clamp_count. lia. Qed.

Lemma clamp_count_ge_min cfg K0 : (min_epicycles cfg <= clamp_count cfg K0)%nat.
Proof. unfold clamp_count. lia. Qed.

(** The selection function, cut at the recomputation of the energy. *)
Lemma find_optimal_epicycles_steps cfg coefficients :
  exists K0,
    pre_clamp_count (energy_threshold cfg)
      (py_sum (energies (sorted_by_magnitude coefficients)))
      (sorted_by_magnitude coefficients) = Ok K0 /\
    smallest_reaching_prefix (energy_threshold cfg)
      (sorted_by_magnitude coefficients) K0 /\
    find_optimal_epicycles cfg coefficients =
      (es <- final_energies (sorted_by_magnitude coefficients) (clamp_count cfg K0) ;;
       final_ratio <- py_truediv (py_sum es)
                        (py_sum (energies (sorted_by_magnitude coefficients))) ;;
       Ok (clamp_count cfg K0,
           firstn (clamp_count cfg K0) (sorted_by_magnitude coefficients),
           final_ratio)).
Proof.
  destruct (pre_clamp_count_spec (energy_threshold cfg)
              (sorted_by_magnitude coefficients)) as (K0 & E & H).
  exists K0. split; [exact E|]. split; [exact H|].
  unfold find_optimal_epicycles. fold (energies (sorted_by_magnitude coefficients)).
  rewrite E. reflexivity.
Qed.

Lemma find_optimal_epicycles_too_few cfg coefficients :
  (length coefficients < min_epicycles cfg)%nat ->
  find_optimal_epicycles cfg coefficients = Raise IndexError.
Proof.
  intros H.
  destruct (find_optimal_epicycles_steps cfg coefficients) as (K0 & _ & _ & ->).
  rewrite final_energies_raise; [reflexivity|].
  rewrite sorted_by_magnitude_length.
  pose proof (clamp_count_ge_min cfg K0). lia.
Qed.

Lemma np_ge_weaken x thr1 thr2 :
  thr1 <= thr2 -> np_ge x thr2 = true -> np_ge x thr1 = true.
Proof.
  intros H. destruct x; simpl; auto. unfold Rgeb.
  rewrite !Rleb_spec. lra.
Qed.

Lemma firstn_energies K items : firstn K (energies items) = energies (firstn K items).
Proof. unfold energies. apply firstn_map. Qed.

(** ** Selection of the epicycles *)

(** C2 - evaluation outside the domain.  With the shipped configuration
    a coefficient set of one term makes the selection raise IndexError
    (the clamped count is 100); and on an empty coefficient set with no
    lower limit the final quotient is the integer division [0 / 0]. *)
Lemma find_optimal_epicycles_raises :
  find_optimal_epicycles CONFIG [(0%Z, (1, 0))] = Raise IndexError /\
  find_optimal_epicycles
    {| animation_steps := 4; samples_per_path := 4; energy_threshold := 999 / 1000;
       min_epicycles := 0; max_epicycles := 2000; scale_factor := 8 |} []
  = Raise ZeroDivisionError.
Proof.
  split.
  - apply find_optimal_epicycles_too_few. simpl. lia.
  - reflexivity.
Qed.

(** The empty prefix holds no energy: it is below every positive
    threshold. *)
Lemma empty_prefix_below_threshold thr items :
  0 < thr -> ~ reaches_threshold thr items 0.
Proof.
  intros Hthr. unfold reaches_threshold, cumulative_ratio. cbn [firstn].
  unfold np_truediv. change (Rsum []) with 0.
  destruct (Reqb (Rsum (energies items)) 0).
  - rewrite Reqb_refl. discriminate.
  - cbn [np_ge]. unfold Rgeb. intros H. apply Rleb_spec in H.
    unfold Rdiv in H. rewrite Rmult_0_l in H. lra.
Qed.

(** What the selection returns when the sorted list is long enough for
    the clamped count. *)
Lemma find_optimal_epicycles_ok :
  forall (cfg : Config) (coefficients : dict),
    (1 <= length coefficients)%nat ->
    (min_epicycles cfg <= length coefficients)%nat ->
    exists K0 K,
      smallest_reaching_prefix (energy_threshold cfg)
        (sorted_by_magnitude coefficients) K0 /\
      K = Nat.max (min_epicycles cfg) (Nat.min K0 (max_epicycles cfg)) /\
      find_optimal_epicycles cfg coefficients =
        Ok (K, firstn K (sorted_by_magnitude coefficients),
            cumulative_ratio (sorted_by_magnitude coefficients) K) /\
      length (firstn K (sorted_by_magnitude coefficients)) = K /\
      Permutation (sorted_by_magnitude coefficients) coefficients /\
      descending_magnitude (sorted_by_magnitude coefficients) /\
      (0 < energy_threshold cfg ->
       ~ reaches_threshold (energy_threshold cfg)
           (sorted_by_magnitude coefficients) 0).
Proof.
  intros cfg coefficients HN Hmin.
  destruct (find_optimal_epicycles_steps cfg coefficients) as (K0 & _ & HK0 & E).
  pose proof (smallest_reaching_prefix_le _ _ _ HK0) as HK0le.
  rewrite sorted_by_magnitude_length in HK0le.
  pose proof (clamp_count_le cfg K0 _ HK0le Hmin) as HK.
  exists K0, (clamp_count cfg K0).
  split; [exact HK0|]. split; [reflexivity|].
  split; [|split; [|split; [|split]]].
  - rewrite E. rewrite final_energies_ok
      by (rewrite sorted_by_magnitude_length; exact HK).
    cbn [bind]. rewrite (py_sum_float (energies (sorted_by_magnitude coefficients))).
    + rewrite py_truediv_float_r, py_sum_value. reflexivity.
    + intros Hnil. apply (f_equal (@length R)) in Hnil.
      unfold energies in Hnil.
      rewrite length_map, sorted_by_magnitude_length in Hnil. simpl in Hnil. lia.
  - apply firstn_length_le. rewrite sorted_by_magnitude_length. exact HK.
  - apply sorted_by_magnitude_perm.
  - apply sorted_by_magnitude_descending.
  - apply empty_prefix_below_threshold.
Qed.

(** C2 (amended) - for every coefficient set of [N >= 1] terms with
    [min_epicycles <= N], the selection returns [K], the first [K] pairs
    of the list sorted by descending magnitude, and the energy ratio of
    those [K] terms, where [K = max(min_epicycles, min(K0, max_epicycles))]
    and [K0] is the smallest prefix length (from 1, and from 0 when the
    threshold is positive) whose cumulative energy ratio reaches the
    threshold, or [N] when none does; the returned list has exactly [K]
    terms. *)
Theorem find_optimal_epicycles_spec :
  forall (cfg : Config) (coefficients : dict),
    (1 <= length coefficients)%nat ->
    (min_epicycles cfg <= length coefficients)%nat ->
    exists K0 K,
      smallest_reaching_prefix (energy_threshold cfg)
        (sorted_by_magnitude coefficients) K0 /\
      K = Nat.max (min_epicycles cfg) (Nat.min K0 (max_epicycles cfg)) /\
      find_optimal_epicycles cfg coefficients =
        Ok (K, firstn K (sorted_by_magnitude coefficients),
            cumulative_ratio (sorted_by_magnitude coefficients) K) /\
      length (firstn K (sorted_by_magnitude coefficients)) = K /\
      Permutation (sorted_by_magnitude coefficients) coefficients /\
      descending_magnitude (sorted_by_magnitude coefficients) /\
      (0 < energy_threshold cfg ->
       ~ reaches_threshold (energy_threshold cfg)
           (sorted_by_magnitude coefficients) 0).
Proof. exact find_optimal_epicycles_ok. Qed.

(** C6 - energy monotonicity.  For a fixed coefficient set the threshold
    scan returns a pre-clamp count at every threshold, and a larger
    threshold never gives a smaller count. *)
Theorem pre_clamp_count_monotone :
  forall (coefficients : dict) (thr1 thr2 : R),
    thr1 <= thr2 ->
    exists K1 K2,
      pre_clamp_count thr1
        (py_sum (energies (sorted_by_magnitude coefficients)))
        (sorted_by_magnitude coefficients) = Ok K1 /\
      pre_clamp_count thr2
        (py_sum (energies (sorted_by_magnitude coefficients)))
        (sorted_by_magnitude coefficients) = Ok K2 /\
      (K1 <= K2)%nat.
Proof.
  intros coefficients thr1 thr2 Hthr.
  set (items := sorted_by_magnitude coefficients).
  destruct (pre_clamp_count_spec thr1 items) as (K1 & E1 & H1).
  destruct (pre_clamp_count_spec thr2 items) as (K2 & E2 & H2).
  exists K1, K2. split; [exact E1|]. split; [exact E2|].
  destruct H2 as [(Hr2 & Hreach2 & _) | (-> & _)].
  - assert (Hreach1 : reaches_threshold thr1 items K2)
      by (exact (np_ge_weaken _ thr1 thr2 Hthr Hreach2)).
    destruct H1 as [(Hr1 & _ & Hfirst1) | (-> & Hnone1)].
    + destruct (le_lt_dec K1 K2) as [Hle|Hlt]; [exact Hle|].
      exfalso. apply (Hfirst1 K2); [lia | exact Hreach1].
    + exfalso. apply (Hnone1 K2); [lia | exact Hreach1].
  - apply (smallest_reaching_prefix_le thr1). exact H1.
Qed.

(** C9 - the recomputation of the final energy.  The threshold scan
    always returns a count [K0]; when [min_epicycles] exceeds the number
    [N] of terms, the generator that indexes the sorted list up to the
    clamped count raises IndexError, and so does the function; when
    [min_epicycles <= N] every index of that generator is in bounds. *)
Theorem final_energy_index_error :
  forall (cfg : Config) (coefficients : dict),
    exists K0,
      pre_clamp_count (energy_threshold cfg)
        (py_sum (energies (sorted_by_magnitude coefficients)))
        (sorted_by_magnitude coefficients) = Ok K0 /\
      ((length coefficients < min_epicycles cfg)%nat ->
         (length coefficients < clamp_count cfg K0)%nat /\
         final_energies (sorted_by_magnitude coefficients) (clamp_count cfg K0)
           = Raise IndexError /\
         find_optimal_epicycles cfg coefficients = Raise IndexError) /\
      ((min_epicycles cfg <= length coefficients)%nat ->
         (clamp_count cfg K0 <= length coefficients)%nat /\
         final_energies (sorted_by_magnitude coefficients) (clamp_count cfg K0)
           = Ok (firstn (clamp_count cfg K0)
                   (energies (sorted_by_magnitude coefficients))) /\
         find_optimal_epicycles cfg coefficients <> Raise IndexError).
Proof.
  intros cfg coefficients.
  destruct (find_optimal_epicycles_steps cfg coefficients) as (K0 & EK0 & HK0 & E).
  pose proof (smallest_reaching_prefix_le _ _ _ HK0) as HK0le.
  rewrite sorted_by_magnitude_length in HK0le.
  exists K0. split; [exact EK0|]. split.
  - intros Hlt. pose proof (clamp_count_ge_min cfg K0) as Hge.
    split; [lia|]. split.
    + apply final_energies_raise. rewrite sorted_by_magnitude_length. lia.
    + apply find_optimal_epicycles_too_few. exact Hlt.
  - intros Hle. pose proof (clamp_count_le cfg K0 _ HK0le Hle) as HK.
    assert (Ef : final_energies (sorted_by_magnitude coefficients) (clamp_count cfg K0)
                 = Ok (firstn (clamp_count cfg K0)
                         (energies (sorted_by_magnitude coefficients)))).
    { apply final_energies_ok. rewrite sorted_by_magnitude_length. exact HK. }
    split; [exact HK|]. split; [exact Ef|].
    rewrite E, Ef. cbn [bind].
    destruct (py_sum (firstn (clamp_count cfg K0)
                        (energies (sorted_by_magnitude coefficients))))
      as [x|x],
      (py_sum (energies (sorted_by_magnitude coefficients))) as [y|y];
      cbn [py_truediv bind]; try discriminate.
    destruct (Z.eqb y 0); cbn [bind]; discriminate.
Qed.

(** ** The nested chain of a frame *)

Lemma chain_loop_lists t : forall coefficients cs vs z prev,
  chain_loop t coefficients cs vs z prev =
    (cs ++ chain_circles t coefficients z prev,
     vs ++ chain_vectors t coefficients z prev).
Proof.
  induction coefficients as [|term rest IH]; intros cs vs z prev; simpl.
  - rewrite !app_nil_r. reflexivity.
  - rewrite IH, <- !app_assoc. reflexivity.
Qed.

Lemma chain_vectors_length t : forall coefficients z prev,
  length (chain_vectors t coefficients z prev) = length coefficients.
Proof. induction coefficients; intros; simpl; [|rewrite IHcoefficients]; reflexivity. Qed.

Lemma chain_circles_length t : forall coefficients z prev,
  length (chain_circles t coefficients z prev) = length coefficients.
Proof. induction coefficients; intros; simpl; [|rewrite IHcoefficients]; reflexivity. Qed.

Lemma chain_head t term rest z prev :
  exists v c,
    nth_error (chain_vectors t (term :: rest) z prev) 0 = Some v /\
    nth_error (chain_circles t (term :: rest) z prev) 0 = Some c /\
    start v = prev /\ center c = prev /\
    end_ v = pos_of (Cadd z (term_value t term)).
Proof. simpl. eexists _, _. repeat split. Qed.

(** Every link of the chain: circle and vector start together, the
    first at [prev], each end is the next start and the next centre,
    and the last end is the position of the whole sum. *)
Lemma chain_links t : forall coefficients z prev i,
  (i < length coefficients)%nat ->
  exists v c,
    nth_error (chain_vectors t coefficients z prev) i = Some v /\
    nth_error (chain_circles t coefficients z prev) i = Some c /\
    center c = start v /\
    (i = O -> start v = prev) /\
    (i = (length coefficients - 1)%nat ->
       end_ v = pos_of (fold_left (fun z term => Cadd z (term_value t term))
                          coefficients z)) /\
    ((S i < length coefficients)%nat ->
       exists v' c',
         nth_error (chain_vectors t coefficients z prev) (S i) = Some v' /\
         nth_error (chain_circles t coefficients z prev) (S i) = Some c' /\
         end_ v = start v' /\ end_ v = center c').
Proof.
  induction coefficients as [|term rest IH]; intros z prev i Hi; [simpl in Hi; lia|].
  destruct i as [|i].
  - cbn [chain_vectors chain_circles nth_error length].
    eexists _, _. split; [reflexivity|]. split; [reflexivity|].
    cbn [center start end_]. split; [reflexivity|]. split; [reflexivity|]. split.
    + intros Hlast. destruct rest; [reflexivity | simpl in Hlast; lia].
    + intros Hnext. destruct rest as [|term' rest']; [simpl in Hnext; lia|].
      destruct (chain_head t term' rest' (Cadd z (term_value t term))
                  (pos_of (Cadd z (term_value t term))))
        as (v' & c' & Ev & Ec & Hs & Hc & _).
      exists v', c'. rewrite Hs, Hc. repeat split; assumption.
  - simpl in Hi.
    destruct (IH (Cadd z (term_value t term)) (pos_of (Cadd z (term_value t term)))
                i ltac:(lia)) as (v & c & Ev & Ec & Hcs & _ & Hlast & Hnext).
    exists v, c. cbn [chain_vectors chain_circles nth_error length fold_left].
    split; [exact Ev|]. split; [exact Ec|]. split; [exact Hcs|].
    split; [discriminate|]. split.
    + intros Hl. apply Hlast. lia.
    + intros Hn. apply Hnext. lia.
Qed.

Lemma frame_at_consistent coefficients num_steps step :
  frame_consistent (length coefficients)
    (fst (frame_at coefficients num_steps step))
    (snd (frame_at coefficients num_steps step)).
Proof.
  unfold frame_at. rewrite chain_loop_lists. cbn [fst snd app circles vectors].
  unfold frame_consistent. cbn [circles vectors].
  split; [apply chain_vectors_length|]. split; [apply chain_circles_length|].
  intros i Hi.
  destruct (chain_links (INR step / INR num_steps) coefficients C0 origin i Hi)
    as (v & c & Ev & Ec & Hcs & Hfirst & Hlast & Hnext).
  exists v, c. repeat split; assumption.
Qed.

Lemma precompute_animation_nth coefficients num_steps s :
  (s < num_steps)%nat ->
  nth_error (fst (precompute_animation coefficients num_steps)) s
    = Some (fst (frame_at coefficients num_steps s)) /\
  nth_error (snd (precompute_animation coefficients num_steps)) s
    = Some (snd (frame_at coefficients num_steps s)).
Proof.
  intros Hs. unfold precompute_animation. cbn [fst snd].
  rewrite !nth_error_map.
  assert (E : nth_error (seq 0 num_steps) s = Some s).
  { rewrite nth_error_nth' with (d := O) by (rewrite length_seq; exact Hs).
    rewrite seq_nth by exact Hs. reflexivity. }
  rewrite E. split; reflexivity.
Qed.

(** C3 - frame consistency.  In every frame produced from [K] terms,
    the first vector starts at the origin, every vector starts at the
    centre of the circle of the same index, every vector but the last
    ends where the next vector starts and where the next circle is
    centred, and the last vector ends at the pen position of the frame,
    which is the position of the same left-to-right sum of the terms. *)
Theorem precompute_animation_frame_consistent :
  forall (coefficients : list (Z * complex)) (num_steps s : nat),
    (s < num_steps)%nat ->
    exists pen frame,
      nth_error (fst (precompute_animation coefficients num_steps)) s = Some pen /\
      nth_error (snd (precompute_animation coefficients num_steps)) s = Some frame /\
      frame_consistent (length coefficients) pen frame /\
      pen = pos_of (pen_sum (INR s / INR num_steps) coefficients) /\
      length (fst (precompute_animation coefficients num_steps)) = num_steps /\
      length (snd (precompute_animation coefficients num_steps)) = num_steps.
Proof.
  intros coefficients num_steps s Hs.
  destruct (precompute_animation_nth coefficients num_steps s Hs) as [Ep Ef].
  exists (fst (frame_at coefficients num_steps s)),
         (snd (frame_at coefficients num_steps s)).
  split; [exact Ep|]. split; [exact Ef|].
  split; [apply frame_at_consistent|].
  split.
  - unfold frame_at. destruct (chain_loop _ _ _ _ _ _). reflexivity.
  - unfold precompute_animation. cbn [fst snd].
    rewrite !length_map, length_seq. split; reflexivity.
Qed.

(** ** The pen position as a Fourier sum *)

Lemma Cadd_C0_r z : Cadd z C0 = z.
Proof. destruct z as [a b]. unfold Cadd, C0. simpl. f_equal; ring. Qed.

Lemma Cadd_C0_l z : Cadd C0 z = z.
Proof. destruct z as [a b]. unfold Cadd, C0. simpl. f_equal; ring. Qed.

Lemma Cadd_assoc a b c : Cadd (Cadd a b) c = Cadd a (Cadd b c).
Proof. unfold Cadd. simpl. f_equal; ring. Qed.

Lemma phase_argument f t :
  Cmul (Cmul (Cmul (0, 2) (Cofr PI)) (Cofr (IZR f))) (Cofr t)
  = (0, 2 * PI * IZR f * t).
Proof. unfold Cmul, Cofr. simpl. f_equal; ring. Qed.

Lemma term_value_euler t f c :
  term_value t (f, c) =
    (fst c * cos (2 * PI * IZR f * t) - snd c * sin (2 * PI * IZR f * t),
     fst c * sin (2 * PI * IZR f * t) + snd c * cos (2 * PI * IZR f * t)).
Proof.
  unfold term_value. cbn [fst snd]. rewrite phase_argument.
  unfold Cexp, Cmul. cbn [fst snd]. rewrite exp_0. f_equal; ring.
Qed.

Lemma pen_sum_from t : forall terms z,
  fold_left (fun z term => Cadd z (term_value t term)) terms z
  = Cadd z (fourier_sum t terms).
Proof.
  induction terms as [|[f c] terms IH]; intros z.
  - simpl. rewrite Cadd_C0_r. reflexivity.
  - cbn [fold_left fourier_sum]. rewrite IH, term_value_euler, Cadd_assoc.
    reflexivity.
Qed.

Lemma pen_sum_fourier t terms : pen_sum t terms = fourier_sum t terms.
Proof. unfold pen_sum. rewrite pen_sum_from. apply Cadd_C0_l. Qed.

Lemma frame_at_pen coefficients num_steps s :
  fst (frame_at coefficients num_steps s)
  = pos_of (fourier_sum (INR s / INR num_steps) coefficients).
Proof.
  unfold frame_at. destruct (chain_loop _ _ _ _ _ _). cbn [fst].
  rewrite pen_sum_fourier. reflexivity.
Qed.

Lemma fourier_sum_unit t :
  fourier_sum t [(1%Z, (1, 0))] = (cos (2 * PI * t), sin (2 * PI * t)).
Proof.
  cbn [fourier_sum fst snd]. rewrite Cadd_C0_r.
  replace (2 * PI * 1 * t) with (2 * PI * t) by ring.
  f_equal; ring.
Qed.

(** C5 - the pen position.  At every step [s < S] the pen position is
    the sum over the retained terms of
    [coefficient * exp(2 pi i frequency s / S)]; for the single term of
    frequency 1 and coefficient 1 and four steps, the pen visits
    (1,0), (0,1), (-1,0), (0,-1). *)
Theorem pen_position_fourier_sum :
  (forall (coefficients : list (Z * complex)) (num_steps s : nat),
      (s < num_steps)%nat ->
      nth_error (fst (precompute_animation coefficients num_steps)) s
      = Some (pos_of (fourier_sum (INR s / INR num_steps) coefficients))) /\
  fst (precompute_animation [(1%Z, (1, 0))] 4)
  = [(1, 0, 0); (0, 1, 0); (-1, 0, 0); (0, -1, 0)].
Proof.
  split.
  - intros coefficients num_steps s Hs.
    destruct (precompute_animation_nth coefficients num_steps s Hs) as [-> _].
    rewrite frame_at_pen. reflexivity.
  - unfold precompute_animation. cbn [seq map fst].
    rewrite !frame_at_pen, !fourier_sum_unit. unfold pos_of, Cre, Cim. cbn [fst snd].
    replace (2 * PI * (INR 0 / INR 4)) with 0 by (simpl; lra).
    replace (2 * PI * (INR 1 / INR 4)) with (PI / 2) by (simpl; lra).
    replace (2 * PI * (INR 2 / INR 4)) with PI by (simpl; lra).
    replace (2 * PI * (INR 3 / INR 4)) with (3 * (PI / 2)) by (simpl; lra).
    rewrite cos_0, sin_0, cos_PI2, sin_PI2, cos_PI, sin_PI, cos_3PI2, sin_3PI2.
    reflexivity.
Qed.

(** ** The sampler *)

Lemma mapM_ok_length {A B : Type} (f : A -> outcome B) : forall l ys,
  mapM f l = Ok ys -> length ys = length l.
Proof.
  induction l as [|x l IH]; intros ys E; cbn [mapM] in E.
  - injection E as <-. reflexivity.
  - destruct (f x) as [y| |]; cbn [bind] in E; try discriminate.
    destruct (mapM f l) as [ys'| |]; cbn [bind] in E; try discriminate.
    injection E as <-. simpl. f_equal. apply IH. reflexivity.
Qed.

Lemma mapM_ok_nth {A B : Type} (f : A -> outcome B) : forall l ys i x,
  mapM f l = Ok ys -> nth_error l i = Some x ->
  exists y, f x = Ok y /\ nth_error ys i = Some y.
Proof.
  induction l as [|a l IH]; intros ys i x E Hx; [destruct i; discriminate|].
  cbn [mapM] in E.
  destruct (f a) as [y| |] eqn:Ea; cbn [bind] in E; try discriminate.
  destruct (mapM f l) as [ys'| |] eqn:El; cbn [bind] in E; try discriminate.
  injection E as <-. destruct i as [|i].
  - injection Hx as <-. exists y. split; [exact Ea | reflexivity].
  - apply (IH ys' i x eq_refl Hx).
Qed.

Lemma mapM_ok_in {A B : Type} (f : A -> outcome B) : forall l ys y,
  mapM f l = Ok ys -> In y ys -> exists x, In x l /\ f x = Ok y.
Proof.
  induction l as [|a l IH]; intros ys y E Hy; cbn [mapM] in E.
  - injection E as <-. destruct Hy.
  - destruct (f a) as [b| |] eqn:Ea; cbn [bind] in E; try discriminate.
    destruct (mapM f l) as [ys'| |] eqn:El; cbn [bind] in E; try discriminate.
    injection E as <-. destruct Hy as [<-|Hy].
    + exists a. split; [left; reflexivity | exact Ea].
    + destruct (IH ys' y eq_refl Hy) as (x & Hx & Ex).
      exists x. split; [right; exact Hx | exact Ex].
Qed.

Lemma mapM_all_ok {A B : Type} (f : A -> outcome B) : forall l,
  (forall x, In x l -> exists y, f x = Ok y) -> exists ys, mapM f l = Ok ys.
Proof.
  induction l as [|a l IH]; intros H; [exists []; reflexivity|].
  destruct (H a (or_introl eq_refl)) as (y & Ey).
  destruct IH as (ys & Eys); [intros x Hx; apply H; right; exact Hx|].
  exists (y :: ys). cbn [mapM]. rewrite Ey. cbn [bind]. rewrite Eys. reflexivity.
Qed.

Lemma mapM_const {A B : Type} (f : A -> outcome B) (y : B) : forall l,
  (forall x, In x l -> f x = Ok y) -> mapM f l = Ok (repeat y (length l)).
Proof.
  induction l as [|a l IH]; intros H; [reflexivity|].
  cbn [mapM]. rewrite (H a (or_introl eq_refl)). cbn [bind].
  rewrite IH by (intros x Hx; apply H; right; exact Hx). reflexivity.
Qed.

(** The first item on which the body raises decides the outcome. *)
Lemma mapM_raise {A B : Type} (f : A -> outcome B) e : forall l1 x l2,
  (forall a, In a l1 -> exists y, f a = Ok y) -> f x = Raise e ->
  mapM f (l1 ++ x :: l2) = Raise e.
Proof.
  induction l1 as [|a l1 IH]; intros x l2 H Ex.
  - cbn [app mapM]. rewrite Ex. reflexivity.
  - cbn [app mapM]. destruct (H a (or_introl eq_refl)) as (y & ->). cbn [bind].
    rewrite IH; [reflexivity | | exact Ex].
    intros b Hb. apply H. right. exact Hb.
Qed.

Lemma sample_path_length cfg path pts :
  sample_path cfg path = Ok pts -> length pts = samples_per_path cfg.
Proof.
  intros E. apply mapM_ok_length in E. rewrite length_seq in E. exact E.
Qed.

Lemma sample_path_nth cfg path pts i :
  sample_path cfg path = Ok pts -> (i < samples_per_path cfg)%nat ->
  exists p,
    path_point path (sample_parameter (samples_per_path cfg) path i) = Ok p /\
    nth_error pts i = Some (sampled_row p).
Proof.
  intros E Hi.
  destruct (mapM_ok_nth _ _ _ i i E) as (y & Ey & Hy).
  - rewrite nth_error_nth' with (d := O) by (rewrite length_seq; exact Hi).
    rewrite seq_nth by exact Hi. reflexivity.
  - unfold sample_point in Ey.
    destruct (path_point path _) as [p| |]; cbn [bind] in Ey; try discriminate.
    injection Ey as <-. exists p. split; [reflexivity | exact Hy].
Qed.

Lemma sample_path_returns cfg path :
  samples_defined cfg path -> exists pts, sample_path cfg path = Ok pts.
Proof.
  intros H. apply mapM_all_ok. intros i Hi. apply in_seq in Hi.
  destruct (H i) as (p & Ep); [lia|].
  unfold sample_point. rewrite Ep. eexists. reflexivity.
Qed.

(** What [path.point] raises at a sampled parameter leaves the sampler. *)
Lemma sample_path_raises cfg path i e :
  (i < samples_per_path cfg)%nat ->
  (forall j, (j < i)%nat ->
     exists p, path_point path (sample_parameter (samples_per_path cfg) path j) = Ok p) ->
  path_point path (sample_parameter (samples_per_path cfg) path i) = Raise e ->
  sample_path cfg path = Raise e.
Proof.
  intros Hi Hbefore Ei. unfold sample_path.
  replace (samples_per_path cfg) with (i + S (samples_per_path cfg - S i))%nat at 2
    by lia.
  rewrite seq_app. cbn [seq Nat.add]. apply mapM_raise.
  - intros j Hj. apply in_seq in Hj. destruct (Hbefore j) as (p & Ep); [lia|].
    unfold sample_point. rewrite Ep. eexists. reflexivity.
  - unfold sample_point. rewrite Ei. reflexivity.
Qed.

Lemma arc_length_target_below M L i :
  (i < M)%nat -> 0 < L -> 0 <= arc_length_target M L i < L.
Proof.
  intros Hi HL. unfold arc_length_target.
  assert (HM : 0 < INR M) by (apply lt_0_INR; lia).
  assert (Hi0 : 0 <= INR i) by apply pos_INR.
  assert (HiM : INR i < INR M) by (apply lt_INR; exact Hi).
  assert (Hq0 : 0 <= INR i / INR M).
  { apply Rmult_le_pos; [exact Hi0 | left; apply Rinv_0_lt_compat; exact HM]. }
  assert (Hq1 : INR i / INR M < 1).
  { apply Rmult_lt_reg_r with (INR M); [exact HM|].
    unfold Rdiv. rewrite Rmult_assoc, Rinv_l by lra. lra. }
  split; nra.
Qed.

Lemma fallback_parameter_below M i : (i < M)%nat -> 0 <= INR i / INR M < 1.
Proof.
  intros Hi.
  pose proof (arc_length_target_below M 1 i Hi Rlt_0_1) as H.
  unfold arc_length_target in H. rewrite Rmult_1_r in H. exact H.
Qed.

Lemma sampled_row_injective p q : sampled_row p = sampled_row q -> p = q.
Proof.
  destruct p as [a b], q as [c d]. unfold sampled_row, Cre, Cim. cbn [fst snd].
  intros E. injection E as E1 E2. f_equal; lra.
Qed.

Lemma zigzag_path_defined cfg : samples_defined cfg zigzag_path.
Proof.
  intros i _. cbn [zigzag_path path_point].
  destruct (Rle_dec _ _); eexists; reflexivity.
Qed.

(** C10 - evaluation at two paths.  A path of arc length 0 sampled once
    yields one point, and its only target is 0, the arc length itself;
    and the open polyline (0,0) -> (2,0) -> (1,0), which starts at (0,0)
    and ends at (1,0), sampled three times has its final end point (1,0)
    as its second sample. *)
Lemma sampler_reaches_far_end :
  (sample_path (config_with_samples 1) point_path = Ok [(0, - 0)] /\
   In (path_length point_path)
      (sample_targets (config_with_samples 1) point_path)) /\
  (path_point zigzag_path 0 = Ok (0, 0) /\
   path_point zigzag_path 1 = Ok (1, 0) /\
   exists pts,
     sample_path (config_with_samples 3) zigzag_path = Ok pts /\
     nth_error pts 1 = Some (sampled_row (1, 0))).
Proof.
  split; [split|split; [|split]].
  - unfold sample_path, sample_point, sample_parameter.
    cbn [config_with_samples samples_per_path seq mapM point_path
         path_length path_ilength path_point].
    replace (INR 0 / INR 1) with 0 by (simpl; lra).
    rewrite Reqb_refl. reflexivity.
  - left. unfold arc_length_target. simpl. lra.
  - cbn [zigzag_path path_point].
    destruct (Rle_dec 0 (2 / 3)) as [_|N]; [|exfalso; lra].
    do 2 f_equal. lra.
  - cbn [zigzag_path path_point].
    destruct (Rle_dec 1 (2 / 3)) as [A|_]; [exfalso; lra|].
    do 2 f_equal. lra.
  - destruct (sample_path_returns (config_with_samples 3) zigzag_path
                (zigzag_path_defined _)) as (pts & E).
    exists pts. split; [exact E|].
    destruct (sample_path_nth _ _ pts 1%nat E) as (p & Ep & Hn); [simpl; lia|].
    rewrite Hn. do 2 f_equal.
    unfold sample_parameter in Ep.
    cbn [config_with_samples samples_per_path zigzag_path path_length
         path_ilength path_point] in Ep.
    destruct (Rle_dec (INR 1 / INR 3) (2 / 3)) as [_|N];
      [|exfalso; apply N; simpl; lra].
    injection Ep as <-. f_equal. simpl. lra.
Qed.

(** C10 (amended) - for every path on which [path.point] answers at the
    sampled parameters, the sampler produces exactly [samples_per_path]
    points; the point of index [i] is taken at the parameter that the
    inversion returns for the arc length [(i/M) L], or at [i/M] when the
    inversion raises, for [i = 0 .. M-1] only; when [L > 0] every one of
    these targets lies in [0, L), so the arc length [L] itself is not a
    target; and when every sampled parameter is below 1, as every
    fallback parameter is, and the path does not pass through its final
    end point before parameter 1, the final end point is not among the
    sampled points. *)
Theorem sample_path_targets :
  forall (cfg : Config) (path : Path),
    let M := samples_per_path cfg in
    let L := path_length path in
    samples_defined cfg path ->
    exists pts,
      sample_path cfg path = Ok pts /\
      length pts = M /\
      sample_targets cfg path = map (fun i => INR i / INR M * L) (seq 0 M) /\
      (forall i, (i < M)%nat ->
         exists p,
           path_point path
             (match path_ilength path (INR i / INR M * L) with
              | Some t => t
              | None => INR i / INR M
              end) = Ok p /\
           nth_error pts i = Some (sampled_row p)) /\
      (0 < L -> forall a, In a (sample_targets cfg path) -> 0 <= a < L) /\
      (forall pend,
         path_point path 1 = Ok pend ->
         (forall i t, (i < M)%nat ->
            path_ilength path (INR i / INR M * L) = Some t -> 0 <= t < 1) ->
         (forall t p, 0 <= t < 1 -> path_point path t = Ok p -> p <> pend) ->
         ~ In (sampled_row pend) pts).
Proof.
  intros cfg path M L Hdef.
  destruct (sample_path_returns cfg path Hdef) as (pts & E).
  exists pts. split; [exact E|].
  split; [apply (sample_path_length cfg path pts E)|].
  split; [reflexivity|]. split; [|split].
  - intros i Hi. apply (sample_path_nth cfg path pts i E Hi).
  - intros HL a Ha. unfold sample_targets in Ha. apply in_map_iff in Ha.
    destruct Ha as (i & <- & Hi). apply in_seq in Hi.
    apply arc_length_target_below; [lia | exact HL].
  - intros pend Hend Hinv Hopen Hin.
    apply In_nth_error in Hin. destruct Hin as (i & Hi).
    assert (HiM : (i < M)%nat).
    { unfold M. rewrite <- (sample_path_length cfg path pts E).
      apply nth_error_Some. rewrite Hi. discriminate. }
    destruct (sample_path_nth cfg path pts i E HiM) as (p & Ep & Hn).
    assert (Hp : p = pend).
    { apply sampled_row_injective. rewrite Hi in Hn. congruence. }
    subst p. revert Ep. unfold sample_parameter, arc_length_target. fold M L.
    destruct (path_ilength path (INR i / INR M * L)) as [t|] eqn:Et; intros Ep.
    + apply (Hopen t pend (Hinv i t HiM Et) Ep). reflexivity.
    + apply (Hopen _ pend (fallback_parameter_below M i HiM) Ep). reflexivity.
Qed.

(** ** Normalisation *)

Lemma close_path_ok (pts : contour) :
  pts <> [] ->
  exists closed,
    close_path pts = Ok closed /\ closed <> [] /\
    (closed = pts \/ closed = pts ++ [first_point pts]).
Proof.
  intros H. unfold close_path.
  rewrite (index_first_ok pts H), (index_last_ok pts H). cbn [bind].
  destruct (Rgtb _ _).
  - eexists. split; [reflexivity|]. split; [|right; reflexivity].
    destruct pts; discriminate.
  - eexists. split; [reflexivity|]. split; [exact H | left; reflexivity].
Qed.

Lemma center_points_length pts : length (center_points pts) = length pts.
Proof. unfold center_points. apply length_map. Qed.

Lemma fold_left_Rmax_ge l : forall x, x <= fold_left Rmax l x.
Proof.
  induction l as [|a l IH]; intros x; simpl; [lra|].
  eapply Rle_trans; [apply (Rmax_l x a) | apply IH].
Qed.

Lemma Rmax_monotone (f : R -> R) x a :
  (forall u v, u <= v -> f u <= f v) -> Rmax (f x) (f a) = f (Rmax x a).
Proof.
  intros Hf. unfold Rmax.
  destruct (Rle_dec x a) as [Hxa|Hxa], (Rle_dec (f x) (f a)) as [Hf1|Hf1];
    try reflexivity.
  - exfalso. apply Hf1, Hf, Hxa.
  - apply Rle_antisym; [|exact Hf1]. apply Hf. lra.
Qed.

Lemma np_max_map_monotone (f : R -> R) l m :
  (forall u v, u <= v -> f u <= f v) ->
  np_max l = Ok m -> np_max (map f l) = Ok (f m).
Proof.
  intros Hf. destruct l as [|x l]; [discriminate|].
  simpl. intros E. injection E as <-. f_equal.
  revert x. induction l as [|a l IH]; intros x; simpl; [reflexivity|].
  rewrite (Rmax_monotone f x a Hf). apply IH.
Qed.

Lemma abs_entries_nonempty pts : pts <> [] -> abs_entries pts <> [].
Proof. destruct pts; [congruence | discriminate]. Qed.

Lemma np_max_abs_entries pts :
  pts <> [] -> exists m, np_max (abs_entries pts) = Ok m /\ 0 <= m.
Proof.
  intros H. destruct pts as [|p pts]; [congruence|].
  cbn [abs_entries flat_map app np_max]. eexists. split; [reflexivity|].
  eapply Rle_trans; [apply (Rabs_pos (fst p)) | apply fold_left_Rmax_ge].
Qed.

Lemma Rabs_scaled x m s :
  0 < m -> Rabs (x / m * s) = Rabs x / m * Rabs s.
Proof.
  intros Hm. unfold Rdiv. rewrite !Rabs_mult, Rabs_inv.
  rewrite (Rabs_pos_eq m) by lra. reflexivity.
Qed.

Lemma abs_entries_scale cfg m pts :
  0 < m ->
  abs_entries (scale_points cfg m pts)
  = map (fun a => a / m * Rabs (scale_factor cfg)) (abs_entries pts).
Proof.
  intros Hm. unfold abs_entries, scale_points.
  induction pts as [|p pts IH]; [reflexivity|].
  cbn [map flat_map app fst snd]. rewrite IH, !Rabs_scaled by exact Hm.
  reflexivity.
Qed.

(** After scaling, the largest absolute entry is the magnitude of the
    scale factor. *)
Lemma scale_points_extent cfg m pts :
  0 < m -> np_max (abs_entries pts) = Ok m ->
  np_max (abs_entries (scale_points cfg m pts)) = Ok (Rabs (scale_factor cfg)).
Proof.
  intros Hm E. rewrite abs_entries_scale by exact Hm.
  rewrite (np_max_map_monotone _ _ m) with (2 := E).
  - f_equal. field. lra.
  - intros u v Huv. pose proof (Rabs_pos (scale_factor cfg)) as Hs.
    assert (Hi : 0 < / m) by (apply Rinv_0_lt_compat; exact Hm).
    unfold Rdiv. apply Rmult_le_compat_r; [exact Hs|].
    apply Rmult_le_compat_r; lra.
Qed.

(** C4 - scale.  A non-empty traversal is closed and centred without
    error; when the largest absolute coordinate after centring is
    positive, the normalised output's largest absolute coordinate equals
    the configured (non-negative) scale factor; when it is zero, the
    output is the centred traversal, unscaled. *)
Theorem normalize_points_scale :
  forall (cfg : Config) (ordered_points : contour),
    ordered_points <> [] ->
    0 <= scale_factor cfg ->
    exists closed max_extent,
      close_path ordered_points = Ok closed /\
      np_max (abs_entries (center_points closed)) = Ok max_extent /\
      0 <= max_extent /\
      (0 < max_extent ->
         exists out,
           normalize_points cfg ordered_points = Ok out /\
           np_max (abs_entries out) = Ok (scale_factor cfg)) /\
      (max_extent = 0 ->
         normalize_points cfg ordered_points = Ok (center_points closed)).
Proof.
  intros cfg ordered_points Hne Hs.
  destruct (close_path_ok ordered_points Hne) as (closed & Ec & Hc & _).
  assert (Hcc : center_points closed <> []).
  { intros E. apply (f_equal (@length point)) in E.
    rewrite center_points_length in E. destruct closed; [congruence | discriminate]. }
  destruct (np_max_abs_entries _ Hcc) as (m & Em & Hm).
  exists closed, m. split; [exact Ec|]. split; [exact Em|]. split; [exact Hm|].
  unfold normalize_points. rewrite Ec. cbn [bind]. rewrite Em. cbn [bind].
  unfold Rgtb. split.
  - intros Hpos. rewrite (Rltb_true 0 m Hpos). eexists. split; [reflexivity|].
    rewrite (scale_points_extent cfg m _ Hpos Em).
    rewrite Rabs_pos_eq by exact Hs. reflexivity.
  - intros ->. rewrite Rltb_false by lra. reflexivity.
Qed.

(** ** The coefficient dictionary *)

Lemma dict_set_fresh d k v :
  ~ In k (map fst d) -> dict_set d k v = d ++ [(k, v)].
Proof.
  induction d as [|[k' v'] d IH]; intros H; [reflexivity|].
  simpl in *. destruct (Z.eqb_spec k' k) as [->|N].
  - exfalso. apply H. left. reflexivity.
  - f_equal. apply IH. intros Hin. apply H. right. exact Hin.
Qed.

Lemma dict_of_pairs_from pairs : forall d,
  NoDup (map fst (d ++ pairs)) ->
  fold_left (fun d kv => dict_set d (fst kv) (snd kv)) pairs d = d ++ pairs.
Proof.
  induction pairs as [|[k v] pairs IH]; intros d H.
  - rewrite app_nil_r. reflexivity.
  - cbn [fold_left fst snd].
    rewrite dict_set_fresh.
    + rewrite IH; rewrite <- app_assoc; [reflexivity | exact H].
    + rewrite map_app in H. apply NoDup_remove_2 in H.
      intros Hin. apply H. apply in_or_app. left. exact Hin.
Qed.

(** With pairwise different keys the dictionary holds the pairs as given. *)
Lemma dict_of_pairs_nodup pairs :
  NoDup (map fst pairs) -> dict_of_pairs pairs = pairs.
Proof. intros H. unfold dict_of_pairs. rewrite dict_of_pairs_from; [reflexivity | exact H]. Qed.

Lemma half_split N : (1 <= N)%nat -> (S ((N - 1) / 2) + N / 2 = N)%nat.
Proof.
  intros H.
  pose proof (Nat.div_mod_eq N 2) as E1.
  pose proof (Nat.div_mod_eq (N - 1) 2) as E2.
  pose proof (Nat.mod_upper_bound N 2 ltac:(lia)) as B1.
  pose proof (Nat.mod_upper_bound (N - 1) 2 ltac:(lia)) as B2.
  lia.
Qed.

Lemma fftfreq_length N : (1 <= N)%nat -> length (fftfreq N) = N.
Proof.
  intros H. unfold fftfreq.
  rewrite length_app, !length_map, !length_seq. apply half_split. exact H.
Qed.

Lemma NoDup_map_injective {A B : Type} (f : A -> B) (l : list A) :
  (forall x y, f x = f y -> x = y) -> NoDup l -> NoDup (map f l).
Proof.
  intros Hf. induction 1 as [|x l Hx Hl IH]; simpl; constructor; [|exact IH].
  rewrite in_map_iff. intros (y & E & Hy). apply Hf in E. subst. contradiction.
Qed.

Lemma fftfreq_NoDup N : NoDup (fftfreq N).
Proof.
  unfold fftfreq. apply NoDup_app.
  - apply NoDup_map_injective; [intros x y E; lia | apply seq_NoDup].
  - apply NoDup_map_injective; [intros x y E; lia | apply seq_NoDup].
  - intros a Ha Hb. apply in_map_iff in Ha. destruct Ha as (i & <- & _).
    apply in_map_iff in Hb. destruct Hb as (j & E & Hj). apply in_seq in Hj. lia.
Qed.

Lemma map_fst_combine {A B : Type} (l : list A) : forall (l' : list B),
  length l = length l' -> map fst (combine l l') = l.
Proof.
  induction l as [|a l IH]; intros [|b l'] H; simpl in *; try discriminate;
    [reflexivity|]. f_equal. apply IH. lia.
Qed.

Lemma map_snd_combine {A B : Type} (l : list A) : forall (l' : list B),
  length l = length l' -> map snd (combine l l') = l'.
Proof.
  induction l as [|a l IH]; intros [|b l'] H; simpl in *; try discriminate;
    [reflexivity|]. f_equal. apply IH. lia.
Qed.

Lemma compute_fourier_coefficients_unfold points :
  points <> [] ->
  compute_fourier_coefficients points =
    Ok (dict_of_pairs
          (combine (fftfreq (length points))
             (map (fun c => Cdiv_real c (INR (length points)))
                (np_fft (map (fun p : point =>
                                Cadd (Cofr (fst p)) (Cmul (0, 1) (Cofr (snd p))))
                             points))))).
Proof. destruct points; [congruence | reflexivity]. Qed.

Lemma np_fft_length z : length (np_fft z) = length z.
Proof. unfold np_fft. rewrite length_map, length_seq. reflexivity. Qed.

(** The analyser returns one coefficient per point, in the order of the
    frequency bins. *)
Lemma compute_fourier_coefficients_returns points :
  points <> [] ->
  exists fft_result,
    compute_fourier_coefficients points
      = Ok (combine (fftfreq (length points)) fft_result) /\
    length fft_result = length points /\
    fft_result =
      map (fun c => Cdiv_real c (INR (length points)))
          (np_fft (map (fun p : point =>
                          Cadd (Cofr (fst p)) (Cmul (0, 1) (Cofr (snd p)))) points)) /\
    length (combine (fftfreq (length points)) fft_result) = length points.
Proof.
  intros H.
  assert (HN : (1 <= length points)%nat)
    by (destruct points; [congruence | simpl; lia]).
  eexists. split; [|split; [|split; [reflexivity|]]].
  - rewrite (compute_fourier_coefficients_unfold points H).
    rewrite dict_of_pairs_nodup; [reflexivity|].
    rewrite map_fst_combine; [apply fftfreq_NoDup|].
    rewrite fftfreq_length by exact HN.
    rewrite length_map, np_fft_length, length_map. reflexivity.
  - rewrite length_map, np_fft_length, length_map. reflexivity.
  - rewrite length_combine, fftfreq_length by exact HN.
    rewrite length_map, np_fft_length, length_map. apply Nat.min_id.
Qed.

(** ** The whole run returns where the sampler does *)

Lemma sample_contours_length cfg paths cs :
  sample_contours cfg paths = Ok cs ->
  length cs = length paths /\
  Forall (fun c => length c = samples_per_path cfg) cs.
Proof.
  intros E. split; [apply (mapM_ok_length _ _ _ E)|].
  apply Forall_forall. intros c Hc.
  destruct (mapM_ok_in _ _ _ c E Hc) as (path & _ & Ep).
  apply (sample_path_length cfg path c Ep).
Qed.

Lemma sample_contours_returns cfg paths :
  Forall (samples_defined cfg) paths ->
  exists cs, sample_contours cfg paths = Ok cs.
Proof.
  intros H. apply mapM_all_ok. intros path Hp. apply sample_path_returns.
  apply (proj1 (Forall_forall _ _) H path Hp).
Qed.

Lemma length_nonempty (M : nat) (cs : list contour) :
  (1 <= M)%nat -> Forall (fun c => length c = M) cs -> nonempty_contours cs.
Proof.
  intros HM H. unfold nonempty_contours. eapply Forall_impl; [|exact H].
  intros c Hc E. subst c. simpl in Hc. lia.
Qed.

Lemma stitch_contours_returns (M : nat) (cs : list contour) :
  cs <> [] -> (1 <= M)%nat -> Forall (fun c => length c = M) cs ->
  exists pts, stitch_contours cs = Ok pts /\ (M <= length pts)%nat.
Proof.
  intros Hnil HM Hlen.
  assert (Hconn : exists pts, connect_contours_tsp cs = Ok pts /\ (M <= length pts)%nat).
  { destruct (connect_contours_tsp_returns cs Hnil (length_nonempty M cs HM Hlen))
      as (blocks & E & Hb & Hall).
    exists (concat blocks). split; [exact E|].
    destruct blocks as [|b blocks]; [congruence|].
    inversion Hall as [|? ? (c & Hc & Hs) _]; subst.
    simpl. rewrite length_app, (same_block_length c b Hs).
    rewrite Forall_forall in Hlen. rewrite (Hlen c Hc). lia. }
  destruct cs as [|c [|c' rest]]; [congruence | | exact Hconn].
  exists c. split; [reflexivity|]. inversion Hlen; subst. lia.
Qed.

Lemma scale_points_length cfg m pts : length (scale_points cfg m pts) = length pts.
Proof. unfold scale_points. apply length_map. Qed.

Lemma normalize_points_returns cfg pts :
  pts <> [] ->
  exists out, normalize_points cfg pts = Ok out /\ (length pts <= length out)%nat.
Proof.
  intros H. destruct (close_path_ok pts H) as (closed & Ec & Hc & Hshape).
  assert (Hl : (length pts <= length closed)%nat).
  { destruct Hshape as [-> | ->]; [lia | rewrite length_app; lia]. }
  assert (Hcc : center_points closed <> []).
  { intros E. apply (f_equal (@length point)) in E.
    rewrite center_points_length in E. destruct closed; [congruence | discriminate]. }
  destruct (np_max_abs_entries _ Hcc) as (m & Em & _).
  unfold normalize_points. rewrite Ec. cbn [bind]. rewrite Em. cbn [bind].
  destruct (Rgtb m 0); eexists; (split; [reflexivity|]);
    rewrite ?scale_points_length, center_points_length; exact Hl.
Qed.

Lemma load_and_process_svg_returns cfg paths :
  paths <> [] -> (1 <= samples_per_path cfg)%nat ->
  Forall (samples_defined cfg) paths ->
  exists points,
    load_and_process_svg cfg paths = Ok points /\
    (samples_per_path cfg <= length points)%nat.
Proof.
  intros Hnil HM Hdef. unfold load_and_process_svg.
  destruct (sample_contours_returns cfg paths Hdef) as (cs & Ecs).
  destruct (sample_contours_length cfg paths cs Ecs) as (Hcl & Hcm).
  rewrite Ecs. cbn [bind].
  destruct (stitch_contours_returns (samples_per_path cfg) cs) as (pts & E & Hl).
  - destruct cs; [destruct paths; [congruence | discriminate] | discriminate].
  - exact HM.
  - exact Hcm.
  - rewrite E. cbn [bind].
    destruct (normalize_points_returns cfg pts) as (out & Eo & Ho).
    + destruct pts; [simpl in Hl; lia | discriminate].
    + exists out. split; [exact Eo | lia].
Qed.

Lemma main_returns cfg paths :
  paths <> [] -> (1 <= samples_per_path cfg)%nat ->
  (min_epicycles cfg <= samples_per_path cfg)%nat ->
  Forall (samples_defined cfg) paths ->
  exists r, main cfg paths = Ok r.
Proof.
  intros Hnil HM Hmin Hdef.
  destruct (load_and_process_svg_returns cfg paths Hnil HM Hdef) as (points & E & Hl).
  assert (Hp : points <> []) by (destruct points; [simpl in Hl; lia | discriminate]).
  destruct (compute_fourier_coefficients_returns points Hp)
    as (fft_result & Ec & _ & _ & Hd).
  destruct (find_optimal_epicycles_ok cfg
              (combine (fftfreq (length points)) fft_result))
    as (K0 & K & _ & _ & Ef & _); [lia | lia |].
  unfold main. rewrite E. cbn [bind]. rewrite Ec. cbn [bind]. rewrite Ef.
  cbn [bind]. destruct (precompute_animation _ _). eexists. reflexivity.
Qed.

Lemma main_no_paths cfg : main cfg [] = Raise IndexError.
Proof. reflexivity. Qed.

(** ** A run on coincident points *)




Lemma sample_path_constant cfg path p :
  (forall i, (i < samples_per_path cfg)%nat ->
     sample_point (samples_per_path cfg) path i = Ok p) ->
  sample_path cfg path = Ok (repeat p (samples_per_path cfg)).
Proof.
  intros H. unfold sample_path.
  rewrite (mapM_const _ p) by (intros i Hi; apply in_seq in Hi; apply H; lia).
  rewrite length_seq. reflexivity.
Qed.









Lemma Cmul_C0_l x : Cmul C0 x = C0.
Proof. unfold Cmul, C0. simpl. f_equal; ring. Qed.













(* ================================================================== *)
(** * Further properties of the stitcher *)

Lemma scan_remaining_empty_contour pos : forall remaining st,
  In [] remaining -> scan_remaining pos st remaining = Raise IndexError.
Proof.
  induction remaining as [|c remaining IH]; intros st Hin; [destruct Hin|].
  cbn [scan_remaining]. destruct c as [|p c]; [reflexivity|].
  rewrite scan_contour_ok by discriminate. cbn [bind].
  apply IH. destruct Hin as [E|Hin]; [discriminate | exact Hin].
Qed.

Lemma nonempty_contours_no_empty contours :
  nonempty_contours contours <-> ~ In [] contours.
Proof.
  unfold nonempty_contours. rewrite Forall_forall. split.
  - intros H Hin. exact (H [] Hin eq_refl).
  - intros H c Hc E. subst c. contradiction.
Qed.

(** X1 - stitch completeness.  When no contour is empty and no two
    contours are equal or point-reverses of one another, the stitcher
    returns the concatenation of the input contours in some order, each
    as it is or point-reversed; the traversal has exactly the total
    number of input points. *)
Theorem stitch_complete_on_distinct_contours :
  forall contours : list contour,
    contours <> [] -> nonempty_contours contours ->
    distinct_up_to_reversal contours ->
    exists perm blocks traversal,
      connect_contours_tsp contours = Ok traversal /\
      traversal = concat blocks /\
      Permutation perm contours /\ Forall2 same_block perm blocks /\
      length traversal = total_points contours.
Proof. exact connect_contours_tsp_complete. Qed.

(** X2 - IndexError of the stitcher.  It raises IndexError exactly when
    the list of contours is empty or holds an empty contour. *)
Theorem connect_contours_tsp_error_cases :
  forall contours : list contour,
    connect_contours_tsp contours = Raise IndexError <->
    contours = [] \/ In [] contours.
Proof.
  intros contours. split.
  - intros E.
    destruct contours as [|c0 rest]; [left; reflexivity|]. right.
    destruct (in_dec (list_eq_dec point_eq_dec) [] (c0 :: rest)) as [Hin|Hnin];
      [exact Hin|]. exfalso.
    destruct (connect_contours_tsp_returns (c0 :: rest)) as (blocks & Eb & _).
    + discriminate.
    + apply Forall_forall. intros c Hc ->. apply Hnin. exact Hc.
    + rewrite Eb in E. discriminate.
  - intros [-> | Hin]; [reflexivity|].
    destruct contours as [|c0 rest]; [destruct Hin|].
    unfold connect_contours_tsp. cbn [index_first bind].
    destruct c0 as [|p0 c0]; [reflexivity|]. cbn [index_first bind length stitch_loop].
    unfold stitch_iteration.
    rewrite (scan_remaining_empty_contour p0 _ Best_init Hin). reflexivity.
Qed.

Lemma scan_remaining_settled pos : forall remaining st,
  nonempty_contours remaining -> best_dist st = Some 0 ->
  scan_remaining pos st remaining = Ok st.
Proof.
  induction remaining as [|c remaining IH]; intros st Hne Hd; [reflexivity|].
  inversion Hne as [|? ? Hc Hrest]; subst.
  cbn [scan_remaining]. rewrite (scan_contour_ok pos st c Hc).
  rewrite Hd. cbn [lt_best].
  rewrite (Rltb_false (dist_first pos c) 0)
    by (pose proof (norm_nonneg (psub pos (first_point c))); unfold dist_first; lra).
  rewrite Hd. cbn [lt_best].
  rewrite (Rltb_false (dist_last pos c) 0)
    by (pose proof (norm_nonneg (psub pos (last_point c))); unfold dist_last; lra).
  cbn [bind]. apply IH; assumption.
Qed.

(** From the start position the first contour is at distance 0: it is
    the one appended first, as it is. *)
Lemma stitch_first_iteration c0 rest :
  nonempty_contours (c0 :: rest) ->
  stitch_iteration (first_point c0) (c0 :: rest)
  = Ok (c0, last_point c0, filter (keep_contour c0) (c0 :: rest)).
Proof.
  intros Hne. inversion Hne as [|? ? Hc Hrest]; subst.
  unfold stitch_iteration. cbn [scan_remaining].
  rewrite (scan_contour_ok (first_point c0) Best_init c0 Hc).
  cbn [best_dist Best_init lt_best].
  assert (D0 : dist_first (first_point c0) c0 = 0) by apply norm_self.
  rewrite D0.
  rewrite (Rltb_false (dist_last (first_point c0) c0) 0)
    by (pose proof (norm_nonneg (psub (first_point c0) (last_point c0)));
        unfold dist_last; lra).
  cbn [bind]. rewrite scan_remaining_settled; [|exact Hrest | reflexivity].
  cbn [bind best_contour should_reverse].
  rewrite (index_last_ok c0 Hc). reflexivity.
Qed.

(** X3 - where the traversal starts.  On every non-empty list of
    non-empty contours the traversal begins with the first contour, in
    its original orientation, whatever the other contours are. *)
Theorem stitch_starts_with_first_contour :
  forall (c0 : contour) (rest : list contour),
    nonempty_contours (c0 :: rest) ->
    exists tail, connect_contours_tsp (c0 :: rest) = Ok (c0 ++ tail).
Proof.
  intros c0 rest Hne.
  assert (Hc : c0 <> []) by (inversion Hne; assumption).
  pose proof (stitch_first_iteration c0 rest Hne) as E.
  set (remaining' := filter (keep_contour c0) (c0 :: rest)) in *.
  assert (Hlen : (length remaining' <= length rest)%nat).
  { assert (length remaining' < length (c0 :: rest))%nat.
    { apply (filter_drops_one _ c0); [left; reflexivity|].
      apply (keep_contour_chosen false c0). }
    simpl in H. lia. }
  destruct (stitch_loop_blocks (length rest) ([] ++ [c0]) (last_point c0) remaining'
              (nonempty_contours_filter _ _ Hne) Hlen) as (blocks & Eb & _).
  exists (concat blocks).
  unfold connect_contours_tsp. cbn [index_first bind].
  rewrite (index_first_ok c0 Hc). cbn [bind length stitch_loop].
  rewrite E. cbn [bind]. fold remaining'. rewrite Eb. cbn [bind app np_concatenate concat].
  reflexivity.
Qed.

Lemma filter_partition_perm {A : Type} (f : A -> bool) (l : list A) :
  Permutation l (filter (fun x => negb (f x)) l ++ filter f l).
Proof.
  induction l as [|a l IH]; [reflexivity|].
  cbn [filter]. destruct (f a); cbn [negb app].
  - apply Permutation_cons_app. exact IH.
  - apply perm_skip. exact IH.
Qed.

Lemma keep_contour_false best c :
  keep_contour best c = false -> c = best \/ c = rev best.
Proof.
  unfold keep_contour. intros H. apply andb_false_iff in H.
  destruct H as [H|H]; apply negb_false_iff, array_equal_spec in H; auto.
Qed.

(** What one iteration takes out of [remaining]: the chosen contour and
    the contours equal to it or to its reverse. *)
Lemma iteration_removed reversed c remaining :
  In c remaining ->
  exists others,
    Permutation remaining
      ((c :: others) ++ filter (keep_contour (oriented reversed c)) remaining) /\
    Forall (fun x => x = c \/ x = rev c) others.
Proof.
  intros Hin.
  set (f := keep_contour (oriented reversed c)).
  assert (Hc : In c (filter (fun x => negb (f x)) remaining)).
  { apply filter_In. split; [exact Hin|]. unfold f.
    rewrite keep_contour_chosen. reflexivity. }
  destruct (in_split _ _ Hc) as (l1 & l2 & E).
  exists (l1 ++ l2). split.
  - eapply Permutation_trans; [apply (filter_partition_perm f)|].
    apply Permutation_app_tail. rewrite E.
    apply Permutation_sym, Permutation_middle.
  - assert (Hall : Forall (fun x => x = c \/ x = rev c)
                     (filter (fun x => negb (f x)) remaining)).
    { apply Forall_forall. intros x Hx. apply filter_In in Hx.
      destruct Hx as [_ Hx]. apply negb_true_iff in Hx.
      apply keep_contour_false in Hx. unfold oriented in Hx.
      destruct reversed; [rewrite rev_involutive in Hx|]; tauto. }
    rewrite E in Hall. apply Forall_app in Hall. destruct Hall as [H1 H2].
    inversion H2; subst. apply Forall_app. split; assumption.
Qed.

Lemma stitch_loop_accounts : forall fuel ordered pos remaining,
  nonempty_contours remaining -> (length remaining <= fuel)%nat ->
  exists blocks used dropped,
    stitch_loop fuel ordered pos remaining = Ok (ordered ++ blocks) /\
    Forall2 same_block used blocks /\
    Permutation (used ++ dropped) remaining /\
    Forall (fun c => exists u, In u used /\ (c = u \/ c = rev u)) dropped.
Proof.
  induction fuel as [|fuel IH]; intros ordered pos remaining Hne Hlen.
  - destruct remaining; [|simpl in Hlen; lia].
    exists [], [], []. rewrite app_nil_r. repeat split; constructor.
  - destruct remaining as [|r0 rest] eqn:Er.
    + exists [], [], []. rewrite app_nil_r. repeat split; constructor.
    + rewrite <- Er in *.
      assert (Hnil : remaining <> []) by (rewrite Er; discriminate).
      destruct (stitch_iteration_spec pos remaining Hnil Hne)
        as (c & reversed & Hin & _ & _ & E).
      destruct (iteration_removed reversed c remaining Hin) as (others & Hp & Ho).
      set (best := oriented reversed c) in *.
      set (remaining' := filter (keep_contour best) remaining) in *.
      assert (Hlen' : (length remaining' <= fuel)%nat).
      { apply Permutation_length in Hp. rewrite length_app in Hp.
        simpl in Hp. lia. }
      destruct (IH (ordered ++ [best]) (last_point best) remaining'
                  (nonempty_contours_filter _ _ Hne) Hlen')
        as (blocks & used & dropped & Eb & Hb & Hperm & Hd).
      exists (best :: blocks), (c :: used), (others ++ dropped).
      split; [|split; [|split]].
      * rewrite Er. cbn [stitch_loop]. rewrite <- Er. rewrite E. cbn [bind].
        rewrite Eb, <- app_assoc. reflexivity.
      * constructor; [apply oriented_same_block | exact Hb].
      * eapply Permutation_trans; [|apply Permutation_sym; exact Hp].
        cbn [app]. apply perm_skip.
        eapply Permutation_trans;
          [|apply Permutation_app_head; exact Hperm].
        rewrite !app_assoc. apply Permutation_app_tail, Permutation_app_comm.
      * apply Forall_app. split.
        -- eapply Forall_impl; [|exact Ho]. intros x Hx.
           exists c. split; [left; reflexivity | exact Hx].
        -- eapply Forall_impl; [|exact Hd]. intros x (u & Hu & Hx).
           exists u. split; [right; exact Hu | exact Hx].
Qed.

(** The blocks of the traversal against the input contours. *)
Lemma connect_contours_tsp_accounts :
  forall contours : list contour,
    contours <> [] -> nonempty_contours contours ->
    exists blocks used dropped,
      connect_contours_tsp contours = Ok (concat blocks) /\
      Forall2 same_block used blocks /\
      Permutation (used ++ dropped) contours /\
      Forall (fun c => exists u, In u used /\ (c = u \/ c = rev u)) dropped /\
      (length (concat blocks) <= total_points contours)%nat.
Proof.
  intros contours Hnil Hne. destruct contours as [|c0 rest]; [congruence|].
  assert (Hc0 : c0 <> []) by (inversion Hne; assumption).
  destruct (stitch_loop_accounts (length (c0 :: rest)) [] (first_point c0)
              (c0 :: rest) Hne (le_n _))
    as (blocks & used & dropped & E & Hb & Hp & Hd).
  exists blocks, used, dropped.
  split; [|split; [exact Hb | split; [exact Hp | split; [exact Hd|]]]].
  - unfold connect_contours_tsp. cbn [index_first bind].
    rewrite (index_first_ok c0 Hc0). cbn [bind]. rewrite E. cbn [bind app].
    destruct blocks; [|reflexivity].
    inversion Hb; subst. cbn [app] in Hp.
    destruct (stitch_loop_blocks (length (c0 :: rest)) [] (first_point c0)
                (c0 :: rest) Hne (le_n _)) as (blocks' & E' & _ & Hnb).
    rewrite E in E'. injection E' as E'. cbn [app] in E'. subst blocks'.
    exfalso. apply Hnb; [discriminate | reflexivity].
  - change (length (concat blocks)) with (total_points blocks).
    rewrite (blocks_total_points used blocks Hb).
    rewrite <- (total_points_perm _ _ Hp). unfold total_points.
    rewrite concat_app, length_app. lia.
Qed.

(** X4 - what the traversal is made of.  On every non-empty list of
    non-empty contours, the traversal is the concatenation of some of
    the input contours ([used]), each as it is or point-reversed; every
    input contour left out ([dropped]) is equal to a used one or to its
    reverse; so the traversal never has more points than the input. *)
Theorem stitch_accounts_for_every_contour :
  forall contours : list contour,
    contours <> [] -> nonempty_contours contours ->
    exists blocks used dropped,
      connect_contours_tsp contours = Ok (concat blocks) /\
      Forall2 same_block used blocks /\
      Permutation (used ++ dropped) contours /\
      Forall (fun c => exists u, In u used /\ (c = u \/ c = rev u)) dropped /\
      (length (concat blocks) <= total_points contours)%nat.
Proof. exact connect_contours_tsp_accounts. Qed.

(** X19 - the greedy step on distinct contours.  When no contour is
    empty and no two contours are equal or point-reverses of one
    another, in every state that the loop reaches [remaining] holds
    exactly the input contours that have not been appended; the
    iteration appends one of them, [c], that has an end point at minimal
    Euclidean distance from the current position among all end points of
    the contours not yet appended, point-reversed exactly when its last
    point is strictly nearer than its first; it removes [c] alone from
    [remaining] and moves the position to the last point of what it
    appended.  The loop starts at the first point of the first contour
    with all the contours remaining. *)
Theorem stitch_greedy_on_distinct_contours :
  forall (contours ordered : list contour) (pos : point) (remaining : list contour),
    nonempty_contours contours -> distinct_up_to_reversal contours ->
    loop_state contours ordered pos remaining ->
    exists used,
      Forall2 same_block used ordered /\
      Permutation (used ++ remaining) contours /\
      (ordered = [] ->
         exists c0 rest,
           contours = c0 :: rest /\ pos = first_point c0 /\ remaining = contours) /\
      (remaining <> [] ->
         exists c reversed,
           In c remaining /\
           (forall c', In c' remaining ->
              Rmin (dist_first pos c) (dist_last pos c) <= dist_first pos c' /\
              Rmin (dist_first pos c) (dist_last pos c) <= dist_last pos c') /\
           (reversed = true <-> dist_last pos c < dist_first pos c) /\
           Permutation remaining
             (c :: filter (keep_contour (oriented reversed c)) remaining) /\
           (forall fuel,
              stitch_loop (S fuel) ordered pos remaining =
                stitch_loop fuel (ordered ++ [oriented reversed c])
                  (last_point (oriented reversed c))
                  (filter (keep_contour (oriented reversed c)) remaining)) /\
           loop_state contours (ordered ++ [oriented reversed c])
             (last_point (oriented reversed c))
             (filter (keep_contour (oriented reversed c)) remaining)).
Proof.
  intros contours ordered pos remaining Hne Hd Hstate.
  destruct (loop_state_not_yet_appended contours ordered pos remaining Hne Hd Hstate)
    as (used & Hused & Hperm & _ & Hd').
  destruct (loop_state_greedy_step contours ordered pos remaining Hne Hstate)
    as (_ & Hstart & Hstep).
  exists used. split; [exact Hused|]. split; [exact Hperm|]. split.
  - intros E. destruct (Hstart E) as (c0 & rest & E1 & E2 & E3 & _).
    exists c0, rest. repeat split; assumption.
  - intros Hnil.
    destruct (Hstep Hnil) as (c & reversed & Hin & Hmin & Hrev & Hloop & Hnext).
    exists c, reversed. split; [exact Hin|]. split; [exact Hmin|].
    split; [exact Hrev|].
    split; [apply filter_removes_chosen; assumption|].
    split; [exact Hloop | exact Hnext].
Qed.

(* ================================================================== *)
(** * Further properties of the normaliser *)

Lemma normalize_points_map cfg pts :
  pts <> [] ->
  exists closed (h : point -> point),
    close_path pts = Ok closed /\
    normalize_points cfg pts = Ok (map h closed).
Proof.
  intros H. destruct (close_path_ok pts H) as (closed & Ec & Hc & _).
  assert (Hcc : center_points closed <> []).
  { intros E. apply (f_equal (@length point)) in E.
    rewrite center_points_length in E. destruct closed; [congruence | discriminate]. }
  destruct (np_max_abs_entries _ Hcc) as (m & Em & _).
  exists closed. unfold normalize_points. rewrite Ec. cbn [bind]. rewrite Em.
  cbn [bind]. destruct (Rgtb m 0).
  - exists (fun p => (fst (psub p (np_mean_axis0 closed)) / m * scale_factor cfg,
                      snd (psub p (np_mean_axis0 closed)) / m * scale_factor cfg)).
    split; [reflexivity|]. unfold scale_points, center_points.
    rewrite map_map. reflexivity.
  - exists (fun p => psub p (np_mean_axis0 closed)).
    split; [reflexivity|]. reflexivity.
Qed.

Lemma close_path_cases pts :
  pts <> [] ->
  (1 / 1000000 < norm (psub (first_point pts) (last_point pts)) ->
     close_path pts = Ok (pts ++ [first_point pts])) /\
  (norm (psub (first_point pts) (last_point pts)) <= 1 / 1000000 ->
     close_path pts = Ok pts).
Proof.
  intros H. unfold close_path.
  rewrite (index_first_ok pts H), (index_last_ok pts H). cbn [bind]. unfold Rgtb.
  split; intros Hd.
  - rewrite Rltb_true by exact Hd. reflexivity.
  - rewrite Rltb_false by lra. reflexivity.
Qed.

Lemma first_last_of_closed (h : point -> point) pts :
  pts <> [] ->
  first_point (map h (pts ++ [first_point pts]))
  = last_point (map h (pts ++ [first_point pts])).
Proof.
  intros H. unfold last_point. rewrite map_app. cbn [map]. rewrite last_last.
  destruct pts as [|p pts]; [congruence | reflexivity].
Qed.

(** X5 - closure.  When the two ends of a non-empty traversal are more
    than 1e-6 apart, normalisation returns one point more than it was
    given and its first and last points are equal; otherwise it returns
    as many points as it was given. *)
Theorem normalize_points_closes_path :
  forall (cfg : Config) (ordered_points : contour),
    ordered_points <> [] ->
    exists out,
      normalize_points cfg ordered_points = Ok out /\
      (1 / 1000000
         < norm (psub (first_point ordered_points) (last_point ordered_points)) ->
       length out = S (length ordered_points) /\
       first_point out = last_point out) /\
      (norm (psub (first_point ordered_points) (last_point ordered_points))
         <= 1 / 1000000 ->
       length out = length ordered_points).
Proof.
  intros cfg pts H.
  destruct (normalize_points_map cfg pts H) as (closed & h & Ec & En).
  destruct (close_path_cases pts H) as [Hfar Hnear].
  exists (map h closed). split; [exact En|]. split; intros Hd.
  - rewrite (Hfar Hd) in Ec. injection Ec as <-. split.
    + rewrite length_map, length_app. simpl. lia.
    + apply first_last_of_closed. exact H.
  - rewrite (Hnear Hd) in Ec. injection Ec as <-. apply length_map.
Qed.

Lemma fold_left_Rplus_acc xs : forall acc,
  fold_left Rplus xs acc = acc + fold_left Rplus xs 0.
Proof.
  induction xs as [|x xs IH]; intros acc.
  - simpl. ring.
  - cbn [fold_left]. rewrite (IH (acc + x)), (IH (0 + x)). ring.
Qed.

Lemma fold_left_Rplus_shift (a : R) xs : forall acc,
  fold_left Rplus (map (fun x => x - a) xs) acc
  = fold_left Rplus xs acc - INR (length xs) * a.
Proof.
  induction xs as [|x xs IH]; intros acc.
  - simpl. ring.
  - cbn [map fold_left length]. rewrite IH, S_INR.
    rewrite (fold_left_Rplus_acc xs (acc + (x - a))).
    rewrite (fold_left_Rplus_acc xs (acc + x)). ring.
Qed.

Lemma fold_left_Rplus_scale (k : R) xs : forall acc,
  fold_left Rplus (map (fun x => x * k) xs) (acc * k)
  = fold_left Rplus xs acc * k.
Proof.
  induction xs as [|x xs IH]; intros acc; [reflexivity|].
  cbn [map fold_left]. rewrite <- IH. f_equal. ring.
Qed.

Lemma Rsum_scale (k : R) xs : Rsum (map (fun x => x * k) xs) = Rsum xs * k.
Proof.
  unfold Rsum. rewrite <- fold_left_Rplus_scale. f_equal. ring.
Qed.

Lemma center_points_sums pts :
  pts <> [] ->
  Rsum (map fst (center_points pts)) = 0 /\
  Rsum (map snd (center_points pts)) = 0.
Proof.
  intros H.
  assert (Hn : 0 < INR (length pts)).
  { apply lt_0_INR. destruct pts; [congruence | simpl; lia]. }
  assert (Ex : map fst (center_points pts)
               = map (fun x => x - fst (np_mean_axis0 pts)) (map fst pts)).
  { unfold center_points. rewrite !map_map. apply map_ext. reflexivity. }
  assert (Ey : map snd (center_points pts)
               = map (fun y => y - snd (np_mean_axis0 pts)) (map snd pts)).
  { unfold center_points. rewrite !map_map. apply map_ext. reflexivity. }
  rewrite Ex, Ey. unfold Rsum.
  rewrite !fold_left_Rplus_shift, !length_map.
  unfold np_mean_axis0, Rsum. cbn [fst snd].
  assert (Hq : forall t n : R, 0 < n -> t - n * (t / n) = 0)
    by (intros t n Hpos; field; lra).
  split; apply Hq; exact Hn.
Qed.

Lemma scale_points_sums cfg m pts :
  Rsum (map fst pts) = 0 -> Rsum (map snd pts) = 0 ->
  Rsum (map fst (scale_points cfg m pts)) = 0 /\
  Rsum (map snd (scale_points cfg m pts)) = 0.
Proof.
  intros Hx Hy.
  assert (Ex : map fst (scale_points cfg m pts)
               = map (fun x => x * (/ m * scale_factor cfg)) (map fst pts)).
  { unfold scale_points. rewrite !map_map. apply map_ext.
    intros p. cbn [fst]. unfold Rdiv. ring. }
  assert (Ey : map snd (scale_points cfg m pts)
               = map (fun y => y * (/ m * scale_factor cfg)) (map snd pts)).
  { unfold scale_points. rewrite !map_map. apply map_ext.
    intros p. cbn [snd]. unfold Rdiv. ring. }
  rewrite Ex, Ey, !Rsum_scale, Hx, Hy. split; ring.
Qed.

Lemma normalize_points_sums cfg pts :
  pts <> [] ->
  exists out,
    normalize_points cfg pts = Ok out /\ out <> [] /\
    Rsum (map fst out) = 0 /\ Rsum (map snd out) = 0.
Proof.
  intros H. destruct (close_path_ok pts H) as (closed & Ec & Hc & _).
  assert (Hcc : center_points closed <> []).
  { intros E. apply (f_equal (@length point)) in E.
    rewrite center_points_length in E. destruct closed; [congruence | discriminate]. }
  destruct (np_max_abs_entries _ Hcc) as (m & Em & _).
  destruct (center_points_sums closed Hc) as [Hx Hy].
  unfold normalize_points. rewrite Ec. cbn [bind]. rewrite Em. cbn [bind].
  destruct (Rgtb m 0).
  - eexists. split; [reflexivity|]. split.
    + intros E. apply (f_equal (@length point)) in E.
      rewrite scale_points_length in E.
      destruct (center_points closed); [congruence | discriminate].
    + apply scale_points_sums; assumption.
  - eexists. split; [reflexivity|]. split; [exact Hcc|]. split; assumption.
Qed.

(** X6 - centring.  For every non-empty traversal the normalised points
    have coordinate sums 0 on both axes: their centroid is the origin,
    whether or not the scaling step ran. *)
Theorem normalize_points_centred :
  forall (cfg : Config) (ordered_points : contour),
    ordered_points <> [] ->
    exists out,
      normalize_points cfg ordered_points = Ok out /\
      Rsum (map fst out) = 0 /\ Rsum (map snd out) = 0 /\
      np_mean_axis0 out = (0, 0).
Proof.
  intros cfg pts H.
  destruct (normalize_points_sums cfg pts H) as (out & E & Hne & Hx & Hy).
  exists out. split; [exact E|]. split; [exact Hx|]. split; [exact Hy|].
  unfold np_mean_axis0. rewrite Hx, Hy. unfold Rdiv. rewrite !Rmult_0_l.
  reflexivity.
Qed.

Lemma total_points_uniform (M : nat) (cs : list contour) :
  Forall (fun c => length c = M) cs -> total_points cs = (length cs * M)%nat.
Proof.
  unfold total_points. induction 1 as [|c cs Hc _ IH]; [reflexivity|].
  simpl. rewrite length_app, IH, Hc. reflexivity.
Qed.

Lemma stitch_contours_size (M : nat) (cs : list contour) :
  cs <> [] -> (1 <= M)%nat -> Forall (fun c => length c = M) cs ->
  exists pts,
    stitch_contours cs = Ok pts /\ (M <= length pts <= length cs * M)%nat.
Proof.
  intros Hnil HM Hlen.
  destruct (stitch_contours_returns M cs Hnil HM Hlen) as (pts & E & Hlo).
  exists pts. split; [exact E|]. split; [exact Hlo|].
  destruct cs as [|c [|c' rest]]; [congruence | |].
  - injection E as <-. inversion Hlen; subst. simpl. lia.
  - destruct (connect_contours_tsp_accounts (c :: c' :: rest) Hnil
                (length_nonempty M _ HM Hlen)) as (blocks & _ & _ & E' & _ & _ & _ & Hhi).
    change (stitch_contours (c :: c' :: rest))
      with (connect_contours_tsp (c :: c' :: rest)) in E.
    rewrite E' in E. injection E as <-.
    rewrite (total_points_uniform M _ Hlen) in Hhi. exact Hhi.
Qed.

Lemma load_and_process_svg_no_samples cfg paths :
  samples_per_path cfg = O -> load_and_process_svg cfg paths = Raise IndexError.
Proof.
  intros HM. unfold load_and_process_svg.
  assert (E : sample_contours cfg paths = Ok (repeat [] (length paths))).
  { apply mapM_const. intros path _. unfold sample_path. rewrite HM. reflexivity. }
  rewrite E. cbn [bind]. destruct paths as [|p0 [|p1 paths]]; reflexivity.
Qed.

(** Bounds on the number of points that come out. *)
Lemma load_and_process_svg_bounds cfg paths points :
  load_and_process_svg cfg paths = Ok points ->
  paths <> [] /\ (1 <= samples_per_path cfg)%nat /\
  (samples_per_path cfg <= length points
     <= length paths * samples_per_path cfg + 1)%nat.
Proof.
  intros E.
  assert (Hnil : paths <> []) by (intros ->; discriminate E).
  assert (HM : (1 <= samples_per_path cfg)%nat).
  { destruct (samples_per_path cfg) eqn:EM; [|lia].
    rewrite (load_and_process_svg_no_samples cfg paths EM) in E. discriminate. }
  split; [exact Hnil|]. split; [exact HM|].
  unfold load_and_process_svg in E.
  destruct (sample_contours cfg paths) as [cs| |] eqn:Ecs; cbn [bind] in E;
    try discriminate.
  destruct (sample_contours_length cfg paths cs Ecs) as (Hcl & Hcm).
  destruct (stitch_contours_size (samples_per_path cfg) cs) as (pts & Es & Hlo & Hhi).
  - destruct cs; [destruct paths; [congruence | discriminate] | discriminate].
  - exact HM.
  - exact Hcm.
  - rewrite Hcl in Hhi. rewrite Es in E. cbn [bind] in E.
    assert (Hp : pts <> []) by (destruct pts; [simpl in Hlo; lia | discriminate]).
    destruct (normalize_points_map cfg pts Hp) as (closed & h & Ec & En).
    destruct (close_path_ok pts Hp) as (closed' & Ec' & _ & Hshape).
    rewrite Ec in Ec'. injection Ec' as <-.
    rewrite En in E. injection E as <-. rewrite length_map.
    destruct Hshape as [-> | ->]; [lia | rewrite length_app; simpl; lia].
Qed.

(** X7 - how many points come out.  Whenever [load_and_process_svg]
    returns, on [C] paths sampled [M] times each, there was at least one
    path and one sample per path and it returns between [M] and
    [C * M + 1] points; and on a single path sampled at least once it
    does return, [M] or [M + 1] points, when [path.point] answers at
    every sampled parameter. *)
Theorem load_and_process_svg_size :
  forall (cfg : Config) (paths : list Path),
    (forall points,
        load_and_process_svg cfg paths = Ok points ->
        paths <> [] /\ (1 <= samples_per_path cfg)%nat /\
        (samples_per_path cfg <= length points
           <= length paths * samples_per_path cfg + 1)%nat) /\
    (forall path,
        paths = [path] -> (1 <= samples_per_path cfg)%nat ->
        samples_defined cfg path ->
        exists points,
          load_and_process_svg cfg paths = Ok points /\
          (samples_per_path cfg <= length points <= samples_per_path cfg + 1)%nat).
Proof.
  intros cfg paths. split.
  - intros points E. exact (load_and_process_svg_bounds cfg paths points E).
  - intros path -> HM Hdef.
    destruct (load_and_process_svg_returns cfg [path]) as (points & E & _).
    + discriminate.
    + exact HM.
    + constructor; [exact Hdef | constructor].
    + exists points. split; [exact E|].
      destruct (load_and_process_svg_bounds cfg [path] points E) as (_ & _ & Hb).
      cbn [length] in Hb. lia.
Qed.

(* ================================================================== *)
(** * Further properties of the Fourier analysis *)

(** ** Sums of complex numbers *)

Lemma Cadd_comm a b : Cadd a b = Cadd b a.
Proof. unfold Cadd. f_equal; ring. Qed.

Lemma Cmul_comm a b : Cmul a b = Cmul b a.
Proof. unfold Cmul. f_equal; ring. Qed.

Lemma Cmul_assoc a b c : Cmul (Cmul a b) c = Cmul a (Cmul b c).
Proof. unfold Cmul. cbn [fst snd]. f_equal; ring. Qed.

Lemma Cmul_Cadd_r a b c : Cmul a (Cadd b c) = Cadd (Cmul a b) (Cmul a c).
Proof. unfold Cmul, Cadd. cbn [fst snd]. f_equal; ring. Qed.

Lemma Cmul_C0_r a : Cmul a C0 = C0.
Proof. unfold Cmul, C0. cbn [fst snd]. f_equal; ring. Qed.

Lemma Cmul_Cone_r a : Cmul a Cone = a.
Proof. destruct a as [x y]. unfold Cmul, Cone. cbn [fst snd]. f_equal; ring. Qed.

Lemma Csum_from l : forall acc, fold_left Cadd l acc = Cadd acc (Csum l).
Proof.
  unfold Csum. induction l as [|x l IH]; intros acc.
  - simpl. rewrite Cadd_C0_r. reflexivity.
  - cbn [fold_left]. rewrite (IH (Cadd acc x)), (IH (Cadd C0 x)).
    rewrite Cadd_C0_l, Cadd_assoc. reflexivity.
Qed.

Lemma Csum_cons x l : Csum (x :: l) = Cadd x (Csum l).
Proof.
  unfold Csum at 1. cbn [fold_left]. rewrite Csum_from, Cadd_C0_l. reflexivity.
Qed.

Lemma Csum_nil : Csum [] = C0.
Proof. reflexivity. Qed.

Lemma Csum_app l l' : Csum (l ++ l') = Cadd (Csum l) (Csum l').
Proof.
  induction l as [|x l IH]; cbn [app].
  - rewrite Csum_nil, Cadd_C0_l. reflexivity.
  - rewrite !Csum_cons, IH, Cadd_assoc. reflexivity.
Qed.

Lemma Csum_map_Cmul {A : Type} (a : complex) (g : A -> complex) l :
  Csum (map (fun x => Cmul a (g x)) l) = Cmul a (Csum (map g l)).
Proof.
  induction l as [|x l IH]; cbn [map].
  - rewrite Csum_nil, Cmul_C0_r. reflexivity.
  - rewrite !Csum_cons, IH, Cmul_Cadd_r. reflexivity.
Qed.

Lemma Csum_map_Cadd {A : Type} (g h : A -> complex) l :
  Csum (map (fun x => Cadd (g x) (h x)) l)
  = Cadd (Csum (map g l)) (Csum (map h l)).
Proof.
  induction l as [|x l IH]; cbn [map].
  - rewrite !Csum_nil, Cadd_C0_l. reflexivity.
  - rewrite !Csum_cons, IH, !Cadd_assoc. f_equal.
    rewrite <- !Cadd_assoc. f_equal. apply Cadd_comm.
Qed.

Lemma Csum_map_C0 {A : Type} (l : list A) : Csum (map (fun _ => C0) l) = C0.
Proof.
  induction l as [|x l IH]; cbn [map]; [reflexivity|].
  rewrite Csum_cons, IH, Cadd_C0_l. reflexivity.
Qed.

(** Two nested sums may be exchanged. *)
Lemma Csum_exchange {A B : Type} (h : A -> B -> complex) la lb :
  Csum (map (fun a => Csum (map (fun b => h a b) lb)) la)
  = Csum (map (fun b => Csum (map (fun a => h a b) la)) lb).
Proof.
  induction la as [|a la IH]; cbn [map].
  - rewrite Csum_nil. symmetry. apply Csum_map_C0.
  - rewrite Csum_cons, IH.
    rewrite <- Csum_map_Cadd. f_equal. apply map_ext.
    intros b. rewrite Csum_cons. reflexivity.
Qed.

Lemma Csum_map_ext_in {A : Type} (g h : A -> complex) l :
  (forall x, In x l -> g x = h x) -> Csum (map g l) = Csum (map h l).
Proof. intros H. f_equal. apply map_ext_in. exact H. Qed.

(** A sum whose terms all vanish but the one of index [n]. *)
Lemma Csum_to_single N (g : nat -> complex) n :
  (n < N)%nat -> (forall m, (m < N)%nat -> m <> n -> g m = C0) ->
  Csum_to N g = g n.
Proof.
  unfold Csum_to. intros Hn Hz.
  replace (seq 0 N) with (seq 0 n ++ n :: seq (S n) (N - S n)).
  - rewrite map_app. cbn [map]. rewrite Csum_app, Csum_cons.
    rewrite (Csum_map_ext_in g (fun _ => C0) (seq 0 n)).
    + rewrite (Csum_map_ext_in g (fun _ => C0) (seq (S n) (N - S n))).
      * rewrite !Csum_map_C0, Cadd_C0_l, Cadd_C0_r. reflexivity.
      * intros m Hm. apply in_seq in Hm. apply Hz; lia.
    + intros m Hm. apply in_seq in Hm. apply Hz; lia.
  - change (n :: seq (S n) (N - S n)) with (seq n (S (N - S n))).
    rewrite <- seq_app. f_equal. lia.
Qed.

(** ** Roots of unity *)

Lemma cis_add x y : cis (x + y) = Cmul (cis x) (cis y).
Proof. unfold cis, Cmul. cbn [fst snd]. rewrite cos_plus, sin_plus. f_equal; ring. Qed.

Lemma cis_0 : cis 0 = Cone.
Proof. unfold cis, Cone. rewrite cos_0, sin_0. reflexivity. Qed.

Lemma Cexp_imaginary x : Cexp (0, x) = cis x.
Proof. unfold Cexp, cis. cbn [fst snd]. rewrite exp_0. f_equal; ring. Qed.

Lemma cis_turns (k : nat) : cis (2 * PI * INR k) = Cone.
Proof.
  unfold cis, Cone.
  replace (2 * PI * INR k) with (0 + 2 * INR k * PI) by ring.
  rewrite cos_period, sin_period, cos_0, sin_0. reflexivity.
Qed.

Lemma cis_minus_turns x (k : nat) : cis (x - 2 * PI * INR k) = cis x.
Proof.
  unfold cis.
  rewrite <- (cos_period (x - 2 * PI * INR k) k).
  rewrite <- (sin_period (x - 2 * PI * INR k) k).
  f_equal; f_equal; ring.
Qed.

Lemma cis_plus_turns x (k : nat) : cis (x + 2 * PI * INR k) = cis x.
Proof.
  unfold cis.
  replace (x + 2 * PI * INR k) with (x + 2 * INR k * PI) by ring.
  rewrite cos_period, sin_period. reflexivity.
Qed.

(** Inside one turn, only the angle 0 gives the point 1. *)
Lemma cis_not_one x : 0 < x < 2 * PI -> cis x <> Cone.
Proof.
  intros [H0 H1] E. unfold cis, Cone in E. injection E as Ec _.
  replace x with (2 * (x / 2)) in Ec by field.
  rewrite cos_2a_sin in Ec.
  assert (Hs : 0 < sin (x / 2)) by (apply sin_gt_0; lra).
  nra.
Qed.

Lemma cis_not_one_neg x : - (2 * PI) < x < 0 -> cis x <> Cone.
Proof.
  intros [H0 H1] E. apply (cis_not_one (x + 2 * PI)); [lra|].
  replace (x + 2 * PI) with (x + 2 * PI * INR 1) by (simpl; ring).
  rewrite cis_plus_turns. exact E.
Qed.

Lemma Cmul_zero_l a b : Cmul a b = C0 -> a <> C0 -> b = C0.
Proof.
  destruct a as [a1 a2], b as [b1 b2]. unfold Cmul, C0. cbn [fst snd].
  intros E Ha. injection E as E1 E2.
  assert (Hpos : 0 < a1 * a1 + a2 * a2).
  { destruct (Req_dec_T a1 0) as [->|N1].
    - destruct (Req_dec_T a2 0) as [->|N2]; [congruence|]. nra.
    - nra. }
  assert (Hb1 : (a1 * a1 + a2 * a2) * b1 = 0).
  { replace ((a1 * a1 + a2 * a2) * b1)
      with (a1 * (a1 * b1 - a2 * b2) + a2 * (a1 * b2 + a2 * b1)) by ring.
    rewrite E1, E2. ring. }
  assert (Hb2 : (a1 * a1 + a2 * a2) * b2 = 0).
  { replace ((a1 * a1 + a2 * a2) * b2)
      with (a1 * (a1 * b2 + a2 * b1) - a2 * (a1 * b1 - a2 * b2)) by ring.
    rewrite E1, E2. ring. }
  apply Rmult_integral in Hb1, Hb2.
  destruct Hb1 as [Hb1|Hb1]; [lra|]. destruct Hb2 as [Hb2|Hb2]; [lra|].
  subst. reflexivity.
Qed.

(** The geometric sum of the powers of [cis a]. *)
Lemma geometric_sum a : forall n,
  Cmul (Csub (cis a) Cone) (Csum_to n (fun k => cis (a * INR k)))
  = Csub (cis (a * INR n)) Cone.
Proof.
  unfold Csum_to. induction n as [|n IH].
  - cbn [seq map]. rewrite Csum_nil, Cmul_C0_r.
    replace (a * INR 0) with 0 by (simpl; ring). rewrite cis_0.
    unfold Csub, Cone, C0. cbn [fst snd]. f_equal; ring.
  - rewrite seq_S, map_app, Csum_app, Cmul_Cadd_r, IH.
    cbn [map Nat.add]. rewrite Csum_cons, Csum_nil, Cadd_C0_r.
    rewrite S_INR.
    replace (a * (INR n + 1)) with (a + a * INR n) by ring.
    rewrite cis_add.
    unfold Csub, Cmul, Cadd, Cone. cbn [fst snd]. f_equal; ring.
Qed.

(** Orthogonality: the [N] powers of a root of unity other than 1 sum to
    0, those of 1 to [N]. *)
Lemma roots_sum_zero (N : nat) (d : R) :
  (0 < d < INR N \/ - INR N < d < 0) ->
  cis (2 * PI * d) = Cone ->
  Csum_to N (fun k => cis (2 * PI / INR N * d * INR k)) = C0.
Proof.
  intros Hd Hturn.
  assert (HN : 0 < INR N) by (destruct Hd; lra).
  apply (Cmul_zero_l (Csub (cis (2 * PI / INR N * d)) Cone)).
  - rewrite geometric_sum.
    replace (2 * PI / INR N * d * INR N) with (2 * PI * d) by (field; lra).
    rewrite Hturn. unfold Csub, Cone, C0. cbn [fst snd]. f_equal; ring.
  - intros E.
    assert (E' : cis (2 * PI / INR N * d) = Cone).
    { unfold Csub, Cone, C0, cis in E. cbn [fst snd] in E.
      injection E as E1 E2. unfold cis, Cone. f_equal; lra. }
    assert (Hpi : 0 < PI) by apply PI_RGT_0.
    assert (Hq : 0 < / INR N) by (apply Rinv_0_lt_compat; exact HN).
    assert (Hscale : 2 * PI / INR N * d = 2 * PI * (d / INR N)) by (field; lra).
    destruct Hd as [[H0 H1] | [H0 H1]].
    + apply (cis_not_one (2 * PI / INR N * d)); [|exact E'].
      rewrite Hscale.
      assert (0 < d / INR N < 1).
      { split; [apply Rmult_lt_0_compat; assumption|].
        apply Rmult_lt_reg_r with (INR N); [exact HN|].
        unfold Rdiv. rewrite Rmult_assoc, Rinv_l by lra. lra. }
      split; nra.
    + apply (cis_not_one_neg (2 * PI / INR N * d)); [|exact E'].
      rewrite Hscale.
      assert (-1 < d / INR N < 0).
      { split.
        - apply Rmult_lt_reg_r with (INR N); [exact HN|].
          unfold Rdiv. rewrite Rmult_assoc, Rinv_l by lra. lra.
        - unfold Rdiv. nra. }
      split; nra.
Qed.

Lemma Csum_ones {A : Type} (l : list A) :
  Csum (map (fun _ => Cone) l) = (INR (length l), 0).
Proof.
  induction l as [|x l IH]; [reflexivity|].
  cbn [map length]. rewrite Csum_cons, IH, S_INR.
  unfold Cadd, Cone. cbn [fst snd]. f_equal; ring.
Qed.

Lemma roots_sum_one (N : nat) (x : R) :
  Csum_to N (fun k => cis (x * 0 * INR k)) = (INR N, 0).
Proof.
  unfold Csum_to. rewrite (Csum_map_ext_in _ (fun _ => Cone)).
  - rewrite Csum_ones, length_seq. reflexivity.
  - intros k _. replace (x * 0 * INR k) with 0 by ring. apply cis_0.
Qed.

(** ** The transform as indexed sums *)

Lemma nth_map_in {A B : Type} (f : A -> B) (l : list A) i (d : A) (d' : B) :
  (i < length l)%nat -> nth i (map f l) d' = f (nth i l d).
Proof.
  intros Hi. rewrite (nth_indep _ d' (f d)) by (rewrite length_map; exact Hi).
  apply map_nth.
Qed.

Lemma combine_seq_nth (z : list complex) :
  combine (seq 0 (length z)) z = map (fun m => (m, nth m z C0)) (seq 0 (length z)).
Proof.
  apply (nth_ext _ _ (O, C0) (O, nth O z C0)).
  - rewrite length_combine, length_map, length_seq. apply Nat.min_id.
  - intros i Hi. rewrite length_combine, length_seq, Nat.min_id in Hi.
    rewrite combine_nth by (rewrite length_seq; reflexivity).
    rewrite (nth_map_in _ _ i O) by (rewrite length_seq; exact Hi).
    rewrite seq_nth by exact Hi. reflexivity.
Qed.

Lemma fft_bin_sum (z : list complex) (k : nat) :
  fft_bin z k
  = Csum_to (length z)
      (fun m => Cmul (nth m z C0)
                     (cis (- (2 * PI / INR (length z) * INR k * INR m)))).
Proof.
  unfold fft_bin, Csum_to. rewrite combine_seq_nth, map_map.
  apply Csum_map_ext_in. intros m _. cbn [fst snd].
  rewrite Cexp_imaginary. do 2 f_equal. unfold Rdiv. ring.
Qed.

Lemma fourier_sum_Csum t terms :
  fourier_sum t terms
  = Csum (map (fun fc : Z * complex =>
                 Cmul (snd fc) (cis (2 * PI * IZR (fst fc) * t))) terms).
Proof.
  induction terms as [|[f c] terms IH]; [reflexivity|].
  cbn [fourier_sum map fst snd]. rewrite Csum_cons, IH. reflexivity.
Qed.

Lemma fourier_sum_perm t terms terms' :
  Permutation terms terms' -> fourier_sum t terms = fourier_sum t terms'.
Proof.
  induction 1 as [|[f c] l l' _ IH|[f c] [f' c'] l|l l' l'' _ IH1 _ IH2].
  - reflexivity.
  - cbn [fourier_sum]. rewrite IH. reflexivity.
  - cbn [fourier_sum]. rewrite <- !Cadd_assoc. f_equal. apply Cadd_comm.
  - rewrite IH1. exact IH2.
Qed.

Lemma fftfreq_nth N i :
  (i < N)%nat ->
  nth i (fftfreq N) 0%Z = Z.of_nat i \/
  nth i (fftfreq N) 0%Z = (Z.of_nat i - Z.of_nat N)%Z.
Proof.
  intros Hi. pose proof (half_split N ltac:(lia)) as Hs. unfold fftfreq.
  destruct (lt_dec i (S ((N - 1) / 2))) as [Hlt|Hge].
  - left. rewrite app_nth1 by (rewrite length_map, length_seq; exact Hlt).
    rewrite (nth_map_in _ _ i O) by (rewrite length_seq; exact Hlt).
    rewrite seq_nth by exact Hlt. reflexivity.
  - right. rewrite app_nth2 by (rewrite length_map, length_seq; lia).
    rewrite length_map, length_seq.
    set (j := (i - S ((N - 1) / 2))%nat).
    assert (Hj : (j < N / 2)%nat) by (unfold j; lia).
    rewrite (nth_map_in _ _ j O) by (rewrite length_seq; exact Hj).
    rewrite seq_nth by exact Hj. unfold j. lia.
Qed.

(** At the sample times [n/N] a bin frequency and its index give the
    same phase. *)
Lemma fftfreq_phase N i n :
  (i < N)%nat ->
  cis (2 * PI * IZR (nth i (fftfreq N) 0%Z) * (INR n / INR N))
  = cis (2 * PI / INR N * INR i * INR n).
Proof.
  intros Hi.
  assert (HN : 0 < INR N) by (apply lt_0_INR; lia).
  destruct (fftfreq_nth N i Hi) as [-> | ->].
  - rewrite <- INR_IZR_INZ. f_equal. field. lra.
  - rewrite minus_IZR, <- !INR_IZR_INZ.
    replace (2 * PI * (INR i - INR N) * (INR n / INR N))
      with (2 * PI / INR N * INR i * INR n - 2 * PI * INR n) by (field; lra).
    apply cis_minus_turns.
Qed.

Lemma fourier_sum_bins N (cs : list complex) n :
  length cs = N -> (1 <= N)%nat ->
  fourier_sum (INR n / INR N) (combine (fftfreq N) cs)
  = Csum_to N (fun k => Cmul (nth k cs C0) (cis (2 * PI / INR N * INR k * INR n))).
Proof.
  intros Hlen HN. rewrite fourier_sum_Csum. unfold Csum_to. f_equal.
  apply (nth_ext _ _ C0 C0).
  - rewrite !length_map, length_combine, length_seq, fftfreq_length, Hlen by exact HN.
    apply Nat.min_id.
  - intros i Hi.
    rewrite length_map, length_combine, fftfreq_length, Hlen, Nat.min_id in Hi
      by exact HN.
    rewrite (nth_map_in _ _ i (0%Z, C0))
      by (rewrite length_combine, fftfreq_length, Hlen, Nat.min_id by exact HN;
          exact Hi).
    rewrite combine_nth by (rewrite fftfreq_length, Hlen by exact HN; reflexivity).
    cbn [fst snd]. rewrite fftfreq_phase by exact Hi.
    rewrite (nth_map_in _ _ i O) by (rewrite length_seq; exact Hi).
    rewrite seq_nth by exact Hi. reflexivity.
Qed.

Lemma Cdiv_real_Cmul a b r : Cmul (Cdiv_real a r) b = Cdiv_real (Cmul a b) r.
Proof. unfold Cmul, Cdiv_real. cbn [fst snd]. f_equal; unfold Rdiv; ring. Qed.

Lemma Csum_map_Cdiv_real {A : Type} (g : A -> complex) r l :
  Csum (map (fun x => Cdiv_real (g x) r) l) = Cdiv_real (Csum (map g l)) r.
Proof.
  induction l as [|x l IH]; cbn [map].
  - rewrite Csum_nil. unfold Cdiv_real, C0. cbn [fst snd]. f_equal; unfold Rdiv; ring.
  - rewrite !Csum_cons, IH. unfold Cdiv_real, Cadd. cbn [fst snd].
    f_equal; unfold Rdiv; ring.
Qed.

(** Inversion of the transform at the sample times. *)
Lemma dft_inverse (z : list complex) n :
  (n < length z)%nat ->
  fourier_sum (INR n / INR (length z))
    (combine (fftfreq (length z))
       (map (fun c => Cdiv_real c (INR (length z))) (np_fft z)))
  = nth n z C0.
Proof.
  intros Hn. set (N := length z) in *.
  assert (HN : 0 < INR N) by (apply lt_0_INR; lia).
  rewrite fourier_sum_bins;
    [| rewrite length_map, np_fft_length; reflexivity | lia].
  unfold Csum_to.
  rewrite (Csum_map_ext_in _
             (fun k => Cdiv_real
                (Csum (map (fun m => Cmul (nth m z C0)
                                       (cis (2 * PI / INR N * (INR n - INR m) * INR k)))
                           (seq 0 N))) (INR N))).
  - rewrite Csum_map_Cdiv_real, Csum_exchange.
    rewrite (Csum_map_ext_in _
               (fun m => Cmul (nth m z C0)
                           (Csum_to N (fun k =>
                              cis (2 * PI / INR N * (INR n - INR m) * INR k)))))
      by (intros m _; unfold Csum_to; apply Csum_map_Cmul).
    fold (Csum_to N (fun m => Cmul (nth m z C0)
                       (Csum_to N (fun k =>
                          cis (2 * PI / INR N * (INR n - INR m) * INR k))))).
    rewrite (Csum_to_single N _ n Hn).
    + replace (INR n - INR n) with 0 by ring. rewrite roots_sum_one.
      destruct (nth n z C0) as [x y]. unfold Cmul, Cdiv_real. cbn [fst snd].
      f_equal; field; lra.
    + intros m Hm Hneq. rewrite roots_sum_zero; [apply Cmul_C0_r | |].
      * assert (Hm' : INR m < INR N) by (apply lt_INR; exact Hm).
        assert (Hn' : INR n < INR N) by (apply lt_INR; exact Hn).
        pose proof (pos_INR m). pose proof (pos_INR n).
        destruct (lt_dec m n) as [Hlt|Hge].
        -- left. apply lt_INR in Hlt. lra.
        -- right. assert (Hgt : (n < m)%nat) by lia. apply lt_INR in Hgt. lra.
      * replace (2 * PI * (INR n - INR m)) with (2 * PI * INR n - 2 * PI * INR m)
          by ring.
        rewrite cis_minus_turns. apply cis_turns.
  - intros k Hk. apply in_seq in Hk.
    rewrite (nth_map_in _ _ k C0) by (rewrite np_fft_length; fold N; lia).
    unfold np_fft. fold N.
    rewrite (nth_map_in _ _ k O) by (rewrite length_seq; lia).
    rewrite seq_nth by lia. cbn [Nat.add].
    rewrite Cdiv_real_Cmul. f_equal. rewrite fft_bin_sum. fold N. unfold Csum_to.
    rewrite Cmul_comm, <- Csum_map_Cmul. apply Csum_map_ext_in. intros m _.
    rewrite (Cmul_comm _ (Cmul _ _)), Cmul_assoc. f_equal.
    rewrite <- cis_add. f_equal. ring.
Qed.

(** ** The coefficient set of a point sequence *)

Lemma embed_point (points : contour) :
  map (fun p : point => Cadd (Cofr (fst p)) (Cmul (0, 1) (Cofr (snd p)))) points
  = points.
Proof.
  rewrite <- (map_id points) at 2. apply map_ext.
  intros [x y]. unfold Cadd, Cmul, Cofr. cbn [fst snd]. f_equal; ring.
Qed.

Lemma fftfreq_range N :
  Forall (fun f => (- Z.of_nat (N / 2) <= f <= Z.of_nat ((N - 1) / 2))%Z) (fftfreq N).
Proof.
  unfold fftfreq. apply Forall_app. split; apply Forall_forall; intros f Hf;
    apply in_map_iff in Hf; destruct Hf as (i & <- & Hi); apply in_seq in Hi; lia.
Qed.

(** X8 - the coefficient dictionary.  On an array of no rows the
    analysis raises ValueError, from the transform; on [N >= 1] points
    it returns exactly [N] entries, keyed in order by the [N] pairwise
    different bin frequencies [0, ..., (N-1)//2, -(N//2), ..., -1]. *)
Theorem compute_fourier_coefficients_bins :
  compute_fourier_coefficients [] = Raise ValueError /\
  forall points : contour,
    points <> [] ->
    exists d,
      compute_fourier_coefficients points = Ok d /\
      length d = length points /\
      map fst d = fftfreq (length points) /\
      NoDup (map fst d) /\
      Forall (fun f => (- Z.of_nat (length points / 2) <= f
                        <= Z.of_nat ((length points - 1) / 2))%Z) (map fst d).
Proof.
  split; [reflexivity|]. intros points H.
  destruct (compute_fourier_coefficients_returns points H)
    as (fft_result & E & Hlen & _ & Hd).
  assert (HN : (1 <= length points)%nat)
    by (destruct points; [congruence | simpl; lia]).
  assert (Hk : map fst (combine (fftfreq (length points)) fft_result)
               = fftfreq (length points)).
  { apply map_fst_combine. rewrite fftfreq_length, Hlen by exact HN. reflexivity. }
  exists (combine (fftfreq (length points)) fft_result).
  split; [exact E|]. split; [exact Hd|]. rewrite Hk.
  split; [reflexivity|]. split; [apply fftfreq_NoDup | apply fftfreq_range].
Qed.

Lemma Rsum_cons x l : Rsum (x :: l) = x + Rsum l.
Proof.
  unfold Rsum. cbn [fold_left]. rewrite fold_left_Rplus_acc. ring.
Qed.

Lemma Csum_components (points : list complex) :
  Csum points = (Rsum (map fst points), Rsum (map snd points)).
Proof.
  induction points as [|[x y] points IH]; [reflexivity|].
  cbn [map fst snd]. rewrite Csum_cons, !Rsum_cons, IH. reflexivity.
Qed.

Lemma seq_nth_self (z : list complex) :
  map (fun m => nth m z C0) (seq 0 (length z)) = z.
Proof.
  apply (nth_ext _ _ C0 C0).
  - rewrite length_map, length_seq. reflexivity.
  - intros i Hi. rewrite length_map, length_seq in Hi.
    rewrite (nth_map_in _ _ i O) by (rewrite length_seq; exact Hi).
    rewrite seq_nth by exact Hi. reflexivity.
Qed.

Lemma fft_bin_zero (z : list complex) : fft_bin z 0 = Csum z.
Proof.
  rewrite fft_bin_sum. unfold Csum_to.
  rewrite (Csum_map_ext_in _ (fun m => nth m z C0)).
  - rewrite seq_nth_self. reflexivity.
  - intros m _.
    replace (- (2 * PI / INR (length z) * INR 0 * INR m)) with 0 by (simpl; ring).
    rewrite cis_0. apply Cmul_Cone_r.
Qed.

Lemma compute_fourier_coefficients_head points :
  points <> [] ->
  exists rest,
    compute_fourier_coefficients points = Ok ((0%Z, np_mean_axis0 points) :: rest).
Proof.
  intros H. rewrite (compute_fourier_coefficients_unfold points H).
  rewrite dict_of_pairs_nodup.
  - rewrite embed_point. destruct points as [|p points]; [congruence|].
    unfold np_fft, fftfreq. cbn [length seq map app combine].
    eexists. do 3 f_equal.
    change (S (length points)) with (length (p :: points)).
    rewrite fft_bin_zero, Csum_components. reflexivity.
  - rewrite map_fst_combine; [apply fftfreq_NoDup|].
    assert (HN : (1 <= length points)%nat)
      by (destruct points; [congruence | simpl; lia]).
    rewrite fftfreq_length by exact HN.
    rewrite length_map, np_fft_length, length_map. reflexivity.
Qed.

(** X9 - the constant term.  The first entry of the coefficient
    dictionary is the frequency 0 with the centroid of the points as
    coefficient; for the points that normalisation returns it is 0. *)
Theorem zero_frequency_coefficient :
  (forall points : contour,
      points <> [] ->
      exists rest,
        compute_fourier_coefficients points
        = Ok ((0%Z, np_mean_axis0 points) :: rest)) /\
  (forall (cfg : Config) (ordered_points : contour),
      ordered_points <> [] ->
      exists out rest,
        normalize_points cfg ordered_points = Ok out /\
        compute_fourier_coefficients out = Ok ((0%Z, (0, 0)) :: rest)).
Proof.
  split; [exact compute_fourier_coefficients_head|].
  intros cfg pts H.
  destruct (normalize_points_sums cfg pts H) as (out & E & Hne & Hx & Hy).
  destruct (compute_fourier_coefficients_head out Hne) as (rest & Ec).
  exists out, rest. split; [exact E|]. rewrite Ec.
  unfold np_mean_axis0. rewrite Hx, Hy. unfold Rdiv. rewrite !Rmult_0_l.
  reflexivity.
Qed.

(** What the selection returned, when it returned. *)
Lemma find_optimal_epicycles_inv cfg d K terms ratio :
  find_optimal_epicycles cfg d = Ok (K, terms, ratio) ->
  exists K0,
    smallest_reaching_prefix (energy_threshold cfg) (sorted_by_magnitude d) K0 /\
    K = clamp_count cfg K0 /\ (K <= length d)%nat /\ (1 <= length d)%nat /\
    terms = firstn K (sorted_by_magnitude d) /\
    ratio = cumulative_ratio (sorted_by_magnitude d) K.
Proof.
  intros E.
  destruct (find_optimal_epicycles_steps cfg d) as (K0 & _ & HK0 & Es).
  rewrite Es in E. clear Es.
  destruct (le_lt_dec (clamp_count cfg K0) (length d)) as [Hle|Hlt].
  - rewrite final_energies_ok in E
      by (rewrite sorted_by_magnitude_length; exact Hle).
    cbn [bind] in E.
    destruct d as [|kv d'] eqn:Ed.
    + cbn [length] in Hle. assert (EK : clamp_count cfg K0 = O) by lia.
      rewrite EK in E. cbn in E. discriminate.
    + rewrite <- Ed in *.
      rewrite (py_sum_float (energies (sorted_by_magnitude d))) in E.
      * rewrite py_truediv_float_r, py_sum_value in E. cbn [bind] in E.
        injection E as <- <- <-. exists K0.
        split; [exact HK0|]. split; [reflexivity|]. split; [exact Hle|].
        split; [rewrite Ed; simpl; lia|]. split; reflexivity.
      * intros Hnil. apply (f_equal (@length R)) in Hnil. unfold energies in Hnil.
        rewrite length_map, sorted_by_magnitude_length, Ed in Hnil. discriminate.
  - rewrite final_energies_raise in E
      by (rewrite sorted_by_magnitude_length; exact Hlt).
    discriminate.
Qed.

(** X10 - the lossless limit.  For [N >= 1] points, summing all [N]
    coefficients of the dictionary, in any order, at the [N] times
    [n/N] gives back the points: animating all the terms over [N] steps
    puts the pen on point [n] at step [n].  This is so in particular
    for the terms that the selection returns when it keeps [N] of them. *)
Theorem all_terms_reproduce_points :
  forall points : contour,
    points <> [] ->
    exists d,
      compute_fourier_coefficients points = Ok d /\
      (forall terms n p,
          Permutation terms d ->
          nth_error points n = Some p ->
          nth_error (fst (precompute_animation terms (length points))) n
          = Some (fst p, snd p, 0)) /\
      (forall cfg K terms ratio n p,
          find_optimal_epicycles cfg d = Ok (K, terms, ratio) ->
          K = length points ->
          nth_error points n = Some p ->
          nth_error (fst (precompute_animation terms (length points))) n
          = Some (fst p, snd p, 0)).
Proof.
  intros points H.
  pose proof (compute_fourier_coefficients_unfold points H) as E.
  rewrite embed_point in E.
  assert (HN : (1 <= length points)%nat)
    by (destruct points; [congruence | simpl; lia]).
  rewrite dict_of_pairs_nodup in E.
  2:{ rewrite map_fst_combine; [apply fftfreq_NoDup|].
      rewrite fftfreq_length by exact HN.
      rewrite length_map, np_fft_length. reflexivity. }
  set (d := combine (fftfreq (length points))
              (map (fun c => Cdiv_real c (INR (length points))) (np_fft points))) in *.
  assert (Hall : forall terms n p,
             Permutation terms d -> nth_error points n = Some p ->
             nth_error (fst (precompute_animation terms (length points))) n
             = Some (fst p, snd p, 0)).
  { intros terms n p Hperm Hp.
    assert (Hn : (n < length points)%nat) by (apply nth_error_Some; congruence).
    destruct (precompute_animation_nth terms (length points) n Hn) as [-> _].
    rewrite frame_at_pen, (fourier_sum_perm _ _ _ Hperm).
    assert (Hinv : fourier_sum (INR n / INR (length points)) d = p).
    { etransitivity; [exact (dft_inverse points n Hn)|].
      exact (nth_error_nth points n C0 Hp). }
    rewrite Hinv. reflexivity. }
  exists d. split; [exact E|]. split; [exact Hall|].
  intros cfg K terms ratio n p Ef EK Hp.
  destruct (find_optimal_epicycles_inv cfg d K terms ratio Ef)
    as (K0 & _ & _ & _ & _ & -> & _).
  apply Hall; [|exact Hp].
  assert (Hd : length d = length points).
  { unfold d. rewrite length_combine, fftfreq_length by exact HN.
    rewrite length_map, np_fft_length. apply Nat.min_id. }
  rewrite firstn_all2 by (rewrite sorted_by_magnitude_length; lia).
  apply sorted_by_magnitude_perm.
Qed.

(** ** What the selection keeps *)

Lemma StronglySorted_app_inv {A : Type} (R : A -> A -> Prop) l1 : forall l2,
  StronglySorted R (l1 ++ l2) ->
  forall x y, In x l1 -> In y l2 -> R x y.
Proof.
  induction l1 as [|a l1 IH]; intros l2 Hs x y Hx Hy; [destruct Hx|].
  cbn [app] in Hs. inversion Hs as [|? ? Hs' Hall]; subst.
  destruct Hx as [<-|Hx].
  - rewrite Forall_forall in Hall. apply Hall. apply in_or_app. right. exact Hy.
  - eapply IH; eassumption.
Qed.

Lemma StronglySorted_firstn {A : Type} (R : A -> A -> Prop) n l :
  StronglySorted R l -> StronglySorted R (firstn n l).
Proof.
  intros Hs. revert n. induction Hs as [|a l Hl IH Ha]; intros n.
  - rewrite firstn_nil. constructor.
  - destruct n as [|n]; [constructor|]. cbn [firstn]. constructor; [apply IH|].
    rewrite Forall_forall in *. intros x Hx. apply Ha.
    rewrite <- (firstn_skipn n l). apply in_or_app. left. exact Hx.
Qed.

(** X11 - what the selection returns.  Whenever [find_optimal_epicycles]
    returns [(K, terms, ratio)], [terms] has exactly [K] entries with
    [min_epicycles <= K <= N] (and [K <= max_epicycles] when the limits
    are ordered), in descending magnitude; together with the entries it
    leaves out it is a rearrangement of the dictionary, and no entry
    left out has a larger magnitude than an entry kept. *)
Theorem find_optimal_epicycles_keeps_largest :
  forall (cfg : Config) (d : dict) K terms ratio,
    find_optimal_epicycles cfg d = Ok (K, terms, ratio) ->
    length terms = K /\
    (min_epicycles cfg <= K <= length d)%nat /\
    ((min_epicycles cfg <= max_epicycles cfg)%nat -> (K <= max_epicycles cfg)%nat) /\
    descending_magnitude terms /\
    exists dropped,
      Permutation (terms ++ dropped) d /\
      forall x y, In x terms -> In y dropped -> Cabs (snd y) <= Cabs (snd x).
Proof.
  intros cfg d K terms ratio E.
  destruct (find_optimal_epicycles_inv cfg d K terms ratio E)
    as (K0 & HK0 & -> & Hle & _ & -> & _).
  split; [apply firstn_length_le; rewrite sorted_by_magnitude_length; exact Hle|].
  split; [split; [apply clamp_count_ge_min | exact Hle]|].
  split; [unfold clamp_count; lia|].
  split; [apply StronglySorted_firstn, sorted_by_magnitude_descending|].
  exists (skipn (clamp_count cfg K0) (sorted_by_magnitude d)). split.
  - rewrite firstn_skipn. apply sorted_by_magnitude_perm.
  - intros x y Hx Hy.
    apply (StronglySorted_app_inv (fun a b => Cabs (snd b) <= Cabs (snd a))
             (firstn (clamp_count cfg K0) (sorted_by_magnitude d))
             (skipn (clamp_count cfg K0) (sorted_by_magnitude d)));
      [|exact Hx | exact Hy].
    rewrite firstn_skipn. apply sorted_by_magnitude_descending.
Qed.

Lemma energy_nonneg c : 0 <= energy c.
Proof. unfold energy. apply pow2_ge_0. Qed.

Lemma Cabs_pos c : c <> C0 -> 0 < Cabs c.
Proof.
  destruct c as [x y]. intros H. unfold Cabs. cbn [fst snd].
  apply sqrt_lt_R0.
  destruct (Req_dec_T x 0) as [->|Nx].
  - destruct (Req_dec_T y 0) as [->|Ny]; [exfalso; apply H; reflexivity|]. nra.
  - nra.
Qed.

Lemma energy_pos c : c <> C0 -> 0 < energy c.
Proof. intros H. unfold energy. apply pow_lt, Cabs_pos, H. Qed.

Lemma Rsum_app l l' : Rsum (l ++ l') = Rsum l + Rsum l'.
Proof.
  induction l as [|x l IH]; cbn [app].
  - change (Rsum []) with 0. ring.
  - rewrite !Rsum_cons, IH. ring.
Qed.

Lemma Rsum_nonneg l : Forall (fun x => 0 <= x) l -> 0 <= Rsum l.
Proof.
  induction 1 as [|x l Hx _ IH]; [change (Rsum []) with 0; lra|].
  rewrite Rsum_cons. lra.
Qed.

Lemma Rsum_ge_member l x :
  Forall (fun x => 0 <= x) l -> In x l -> x <= Rsum l.
Proof.
  induction 1 as [|a l Ha Hl IH]; intros Hin; [destruct Hin|].
  rewrite Rsum_cons. pose proof (Rsum_nonneg l Hl).
  destruct Hin as [->|Hin]; [lra | specialize (IH Hin); lra].
Qed.

Lemma Forall_firstn_skipn {A : Type} (P : A -> Prop) n l :
  Forall P l -> Forall P (firstn n l) /\ Forall P (skipn n l).
Proof. intros H. rewrite <- (firstn_skipn n l) in H. apply Forall_app in H. exact H. Qed.

Lemma Rsum_firstn_le l k :
  Forall (fun x => 0 <= x) l -> Rsum (firstn k l) <= Rsum l.
Proof.
  intros H. rewrite <- (firstn_skipn k l) at 2. rewrite Rsum_app.
  pose proof (Rsum_nonneg _ (proj2 (Forall_firstn_skipn _ k l H))). lra.
Qed.

Lemma Rsum_firstn_mono l k k' :
  Forall (fun x => 0 <= x) l -> (k <= k')%nat ->
  Rsum (firstn k l) <= Rsum (firstn k' l).
Proof.
  intros H Hk.
  replace (firstn k l) with (firstn k (firstn k' l))
    by (rewrite firstn_firstn; f_equal; lia).
  apply Rsum_firstn_le. apply (Forall_firstn_skipn _ k' l H).
Qed.

Lemma energies_nonneg items : Forall (fun x => 0 <= x) (energies items).
Proof.
  unfold energies. apply Forall_forall. intros x Hx. apply in_map_iff in Hx.
  destruct Hx as (kv & <- & _). apply energy_nonneg.
Qed.

Lemma total_energy_pos items :
  (exists kv, In kv items /\ snd kv <> C0) -> 0 < Rsum (energies items).
Proof.
  intros (kv & Hin & Hnz).
  pose proof (energy_pos (snd kv) Hnz) as Hpos.
  assert (Hle : energy (snd kv) <= Rsum (energies items)).
  { apply Rsum_ge_member; [apply energies_nonneg|].
    unfold energies. apply in_map_iff. exists kv. split; [reflexivity | exact Hin]. }
  lra.
Qed.

Lemma cumulative_ratio_value items k :
  0 < Rsum (energies items) ->
  cumulative_ratio items k
  = Fin (Rsum (firstn k (energies items)) / Rsum (energies items)).
Proof.
  intros H. unfold cumulative_ratio, np_truediv.
  destruct (Reqb (Rsum (energies items)) 0) eqn:E; [|reflexivity].
  apply Reqb_spec in E. lra.
Qed.

(** X12 - the achieved energy ratio.  When some coefficient is not zero
    and the selection returns [(K, terms, ratio)], the ratio is a finite
    number in [0, 1]; and when moreover the threshold is at most 1 and
    [K] is below [max_epicycles], the ratio is at least the threshold. *)
Theorem find_optimal_epicycles_ratio :
  forall (cfg : Config) (d : dict) K terms ratio,
    find_optimal_epicycles cfg d = Ok (K, terms, ratio) ->
    (exists kv, In kv d /\ snd kv <> C0) ->
    exists r,
      ratio = Fin r /\ 0 <= r <= 1 /\
      (energy_threshold cfg <= 1 -> (K < max_epicycles cfg)%nat ->
       energy_threshold cfg <= r).
Proof.
  intros cfg d K terms ratio E (kv & Hin & Hnz).
  destruct (find_optimal_epicycles_inv cfg d K terms ratio E)
    as (K0 & HK0 & EK & Hle & HN & _ & ->).
  set (items := sorted_by_magnitude d) in *.
  assert (HT : 0 < Rsum (energies items)).
  { apply total_energy_pos. exists kv. split; [|exact Hnz].
    apply (Permutation_in _ (Permutation_sym (sorted_by_magnitude_perm d))).
    exact Hin. }
  pose proof (energies_nonneg items) as Hnn.
  assert (Hratio : forall k, 0 <= Rsum (firstn k (energies items)) / Rsum (energies items) <= 1).
  { intros k.
    pose proof (Rsum_nonneg _ (proj1 (Forall_firstn_skipn _ k _ Hnn))) as H0.
    pose proof (Rsum_firstn_le (energies items) k Hnn) as H1.
    assert (Hi : 0 < / Rsum (energies items)) by (apply Rinv_0_lt_compat; exact HT).
    split.
    - apply Rmult_le_pos; lra.
    - apply Rmult_le_reg_r with (Rsum (energies items)); [exact HT|].
      unfold Rdiv. rewrite Rmult_assoc, Rinv_l by lra. lra. }
  exists (Rsum (firstn K (energies items)) / Rsum (energies items)).
  split; [apply cumulative_ratio_value; exact HT|]. split; [apply Hratio|].
  intros Hthr HK.
  assert (Hlen : length items = length d) by apply sorted_by_magnitude_length.
  destruct HK0 as [(Hr & Hreach & _) | (-> & Hnone)].
  - assert (HK0K : (K0 <= K)%nat) by (subst K; unfold clamp_count in *; lia).
    unfold reaches_threshold in Hreach.
    rewrite (cumulative_ratio_value items K0 HT) in Hreach.
    cbn [np_ge] in Hreach. unfold Rgeb in Hreach. apply Rleb_spec in Hreach.
    pose proof (Rsum_firstn_mono (energies items) K0 K Hnn HK0K) as Hmono.
    assert (Hi : 0 < / Rsum (energies items)) by (apply Rinv_0_lt_compat; exact HT).
    eapply Rle_trans; [exact Hreach|].
    unfold Rdiv. apply Rmult_le_compat_r; lra.
  - exfalso. apply (Hnone (length items)); [lia|].
    unfold reaches_threshold. rewrite (cumulative_ratio_value items _ HT).
    cbn [np_ge]. unfold Rgeb. apply Rleb_spec.
    rewrite firstn_all2 by (unfold energies; rewrite length_map; lia).
    unfold Rdiv. rewrite Rinv_r by lra. exact Hthr.
Qed.

(** ** Energy of the coefficients *)

Lemma Cmul_Cadd_l a b c : Cmul (Cadd a b) c = Cadd (Cmul a c) (Cmul b c).
Proof. unfold Cmul, Cadd. cbn [fst snd]. f_equal; ring. Qed.

Lemma Csum_mul_sum {A B : Type} (f : A -> complex) (g : B -> complex) l l' :
  Cmul (Csum (map f l)) (Csum (map g l'))
  = Csum (map (fun a => Csum (map (fun b => Cmul (f a) (g b)) l')) l).
Proof.
  induction l as [|a l IH]; cbn [map].
  - rewrite Csum_nil. apply Cmul_C0_l.
  - rewrite !Csum_cons, Cmul_Cadd_l, IH, Csum_map_Cmul. reflexivity.
Qed.

Lemma Cconj_Csum {A : Type} (g : A -> complex) l :
  Cconj (Csum (map g l)) = Csum (map (fun x => Cconj (g x)) l).
Proof.
  induction l as [|a l IH]; cbn [map].
  - unfold Cconj, Csum, C0. cbn [fold_left fst snd]. f_equal. ring.
  - rewrite !Csum_cons, <- IH. unfold Cconj, Cadd. cbn [fst snd]. f_equal. ring.
Qed.

Lemma Cconj_Cmul a b : Cconj (Cmul a b) = Cmul (Cconj a) (Cconj b).
Proof. unfold Cconj, Cmul. cbn [fst snd]. f_equal; ring. Qed.

Lemma Cconj_cis x : Cconj (cis x) = cis (- x).
Proof. unfold Cconj, cis. cbn [fst snd]. rewrite cos_neg, sin_neg. reflexivity. Qed.

Lemma Cmul_conj c : Cmul c (Cconj c) = (energy c, 0).
Proof.
  destruct c as [x y]. unfold Cmul, Cconj, energy, Cabs. cbn [fst snd].
  rewrite pow2_sqrt by nra. f_equal; ring.
Qed.

Lemma Cmul_conj_norm_sq (p : point) : Cmul p (Cconj p) = (norm_sq p, 0).
Proof. destruct p as [x y]. unfold Cmul, Cconj, norm_sq. cbn [fst snd]. f_equal; ring. Qed.

Lemma Csum_real {A : Type} (r : A -> R) l :
  Csum (map (fun x => (r x, 0)) l) = (Rsum (map r l), 0).
Proof.
  induction l as [|a l IH]; [reflexivity|].
  cbn [map]. rewrite Csum_cons, Rsum_cons, IH. unfold Cadd. cbn [fst snd].
  f_equal. ring.
Qed.

Lemma Cmul_four a b c d : Cmul (Cmul a b) (Cmul c d) = Cmul (Cmul a c) (Cmul b d).
Proof. unfold Cmul. cbn [fst snd]. f_equal; ring. Qed.

Lemma Cdiv_real_sq a r :
  Cmul (Cdiv_real a r) (Cconj (Cdiv_real a r))
  = Cdiv_real (Cdiv_real (Cmul a (Cconj a)) r) r.
Proof. unfold Cmul, Cconj, Cdiv_real. cbn [fst snd]. f_equal; unfold Rdiv; ring. Qed.

(** Parseval's relation for the normalised transform. *)
Lemma parseval (z : list complex) :
  z <> [] ->
  Csum_to (length z)
    (fun k => Cmul (Cdiv_real (fft_bin z k) (INR (length z)))
                   (Cconj (Cdiv_real (fft_bin z k) (INR (length z)))))
  = (Rsum (map norm_sq z) / INR (length z), 0).
Proof.
  intros Hz. set (N := length z).
  assert (HN : 0 < INR N).
  { apply lt_0_INR. unfold N. destruct z; [congruence | simpl; lia]. }
  unfold Csum_to.
  rewrite (Csum_map_ext_in _
    (fun k => Cdiv_real (Cdiv_real
       (Csum (map (fun m => Csum (map (fun m' =>
          Cmul (Cmul (nth m z C0) (Cconj (nth m' z C0)))
               (cis (2 * PI / INR N * (INR m' - INR m) * INR k)))
          (seq 0 N))) (seq 0 N))) (INR N)) (INR N))).
  - rewrite !Csum_map_Cdiv_real, Csum_exchange.
    rewrite (Csum_map_ext_in _
      (fun m => Cmul (nth m z C0) (Cmul (Cconj (nth m z C0)) (INR N, 0)))).
    + rewrite (Csum_map_ext_in _ (fun m => (norm_sq (nth m z C0) * INR N, 0))).
      * rewrite Csum_real.
        rewrite <- (map_map (fun m => nth m z C0) (fun p => norm_sq p * INR N)).
        fold N. unfold N at 1. rewrite seq_nth_self.
        rewrite <- (map_map norm_sq (fun x => x * INR N)), Rsum_scale.
        unfold Cdiv_real. cbn [fst snd]. f_equal; field; lra.
      * intros m _. rewrite <- Cmul_assoc, Cmul_conj_norm_sq.
        unfold Cmul. cbn [fst snd]. f_equal; ring.
    + intros m Hm. apply in_seq in Hm. rewrite Csum_exchange.
      rewrite (Csum_map_ext_in _
        (fun m' => Cmul (Cmul (nth m z C0) (Cconj (nth m' z C0)))
                     (Csum_to N (fun k =>
                        cis (2 * PI / INR N * (INR m' - INR m) * INR k)))))
        by (intros m' _; unfold Csum_to; apply Csum_map_Cmul).
      fold (Csum_to N (fun m' =>
              Cmul (Cmul (nth m z C0) (Cconj (nth m' z C0)))
                (Csum_to N (fun k => cis (2 * PI / INR N * (INR m' - INR m) * INR k))))).
      rewrite (Csum_to_single N _ m ltac:(lia)).
      * replace (INR m - INR m) with 0 by ring. rewrite roots_sum_one.
        apply Cmul_assoc.
      * intros m' Hm' Hneq. rewrite roots_sum_zero; [apply Cmul_C0_r | |].
        -- assert (INR m' < INR N) by (apply lt_INR; exact Hm').
           assert (INR m < INR N) by (apply lt_INR; lia).
           pose proof (pos_INR m). pose proof (pos_INR m').
           destruct (lt_dec m m') as [Hlt|Hge].
           ++ left. apply lt_INR in Hlt. lra.
           ++ right. assert (Hgt : (m' < m)%nat) by lia. apply lt_INR in Hgt. lra.
        -- replace (2 * PI * (INR m' - INR m))
             with (2 * PI * INR m' - 2 * PI * INR m) by ring.
           rewrite cis_minus_turns. apply cis_turns.
  - intros k _. rewrite Cdiv_real_sq. do 2 f_equal.
    rewrite fft_bin_sum. fold N. unfold Csum_to.
    rewrite Cconj_Csum, Csum_mul_sum.
    apply Csum_map_ext_in. intros m _. apply Csum_map_ext_in. intros m' _.
    rewrite Cconj_Cmul, Cconj_cis, Cmul_four, <- cis_add. do 2 f_equal. ring.
Qed.

Lemma Rsum_perm l l' : Permutation l l' -> Rsum l = Rsum l'.
Proof.
  induction 1 as [|x l l' _ IH|x y l|l l' l'' _ IH1 _ IH2].
  - reflexivity.
  - rewrite !Rsum_cons, IH. reflexivity.
  - rewrite !Rsum_cons. ring.
  - rewrite IH1. exact IH2.
Qed.

(** X18 - Parseval.  The total energy of the coefficient dictionary,
    which the selection measures its ratios against, is the mean squared
    distance of the points from the origin; sorting does not change it. *)
Theorem total_energy_is_mean_square :
  forall points : contour,
    points <> [] ->
    exists d,
      compute_fourier_coefficients points = Ok d /\
      Rsum (energies d) = Rsum (map norm_sq points) / INR (length points) /\
      Rsum (energies (sorted_by_magnitude d))
        = Rsum (map norm_sq points) / INR (length points).
Proof.
  intros points H.
  pose proof (compute_fourier_coefficients_unfold points H) as E.
  rewrite embed_point in E.
  assert (HN : (1 <= length points)%nat)
    by (destruct points; [congruence | simpl; lia]).
  rewrite dict_of_pairs_nodup in E.
  2:{ rewrite map_fst_combine; [apply fftfreq_NoDup|].
      rewrite fftfreq_length by exact HN.
      rewrite length_map, np_fft_length. reflexivity. }
  set (cs := map (fun c => Cdiv_real c (INR (length points))) (np_fft points)) in *.
  set (d := combine (fftfreq (length points)) cs) in *.
  assert (Hcs : length (fftfreq (length points)) = length cs).
  { unfold cs. rewrite fftfreq_length by exact HN.
    rewrite length_map, np_fft_length. reflexivity. }
  assert (Hen : energies d = map energy cs).
  { unfold energies, d. rewrite <- (map_map snd energy).
    rewrite map_snd_combine by exact Hcs. reflexivity. }
  assert (Hsum : Rsum (energies d)
                 = Rsum (map norm_sq points) / INR (length points)).
  { pose proof (parseval points H) as P. unfold Csum_to in P.
    rewrite (Csum_map_ext_in _ (fun k => (energy (Cdiv_real (fft_bin points k)
                                            (INR (length points))), 0))) in P
      by (intros k _; apply Cmul_conj).
    rewrite Csum_real in P. injection P as P.
    rewrite Hen. unfold cs, np_fft. rewrite !map_map.
    etransitivity; [|exact P]. reflexivity. }
  exists d. split; [exact E|]. split; [exact Hsum|].
  rewrite <- Hsum. apply Rsum_perm. unfold energies.
  apply Permutation_map, sorted_by_magnitude_perm.
Qed.

(* ================================================================== *)
(** * Further properties of the animation *)

Lemma dist3_step z w : dist3 (pos_of z) (pos_of (Cadd z w)) = Cabs w.
Proof.
  unfold dist3, pos_of, Cadd, Cabs, Cre, Cim. cbn [fst snd]. f_equal. ring.
Qed.

Lemma Cabs_term_value t term : Cabs (term_value t term) = Cabs (snd term).
Proof.
  destruct term as [f [c1 c2]]. rewrite term_value_euler.
  unfold Cabs. cbn [fst snd]. f_equal.
  pose proof (sin2_cos2 (2 * PI * IZR f * t)) as H. unfold Rsqr in H.
  set (s := sin (2 * PI * IZR f * t)) in *.
  set (c := cos (2 * PI * IZR f * t)) in *.
  replace ((c1 * c - c2 * s) * (c1 * c - c2 * s) + (c1 * s + c2 * c) * (c1 * s + c2 * c))
    with ((c1 * c1 + c2 * c2) * (s * s + c * c)) by ring.
  rewrite H. ring.
Qed.

Lemma chain_vector_radius t : forall coefficients z i term,
  nth_error coefficients i = Some term ->
  exists v c,
    nth_error (chain_vectors t coefficients z (pos_of z)) i = Some v /\
    nth_error (chain_circles t coefficients z (pos_of z)) i = Some c /\
    radius c = Cabs (snd term) /\
    dist3 (start v) (end_ v) = Cabs (snd term).
Proof.
  induction coefficients as [|term0 rest IH]; intros z i term Hi.
  - destruct i; discriminate.
  - destruct i as [|i].
    + cbn [nth_error] in Hi. injection Hi as ->.
      cbn [chain_vectors chain_circles nth_error]. eexists _, _.
      split; [reflexivity|]. split; [reflexivity|]. cbn [radius start end_].
      split; [reflexivity|]. rewrite dist3_step. apply Cabs_term_value.
    + cbn [nth_error] in Hi. cbn [chain_vectors chain_circles nth_error].
      apply IH. exact Hi.
Qed.

(** X13 - each vector spans its circle.  In every frame, the vector of
    index [i] has the length of the radius of the circle of index [i],
    which is the magnitude of the coefficient of index [i]: the tip of
    each vector lies on its circle. *)
Theorem precompute_animation_vector_on_circle :
  forall (coefficients : list (Z * complex)) (num_steps s i : nat) term,
    (s < num_steps)%nat ->
    nth_error coefficients i = Some term ->
    exists frame v c,
      nth_error (snd (precompute_animation coefficients num_steps)) s = Some frame /\
      nth_error (vectors frame) i = Some v /\
      nth_error (circles frame) i = Some c /\
      radius c = Cabs (snd term) /\ 0 <= radius c /\
      dist3 (start v) (end_ v) = radius c.
Proof.
  intros coefficients num_steps s i term Hs Hi.
  destruct (precompute_animation_nth coefficients num_steps s Hs) as [_ Ef].
  destruct (chain_vector_radius (INR s / INR num_steps) coefficients C0 i term Hi)
    as (v & c & Ev & Ec & Hr & Hd).
  exists (snd (frame_at coefficients num_steps s)), v, c.
  split; [exact Ef|].
  unfold frame_at. rewrite chain_loop_lists. cbn [snd app circles vectors].
  split; [exact Ev|]. split; [exact Ec|]. split; [exact Hr|].
  rewrite Hr. split; [unfold Cabs; apply sqrt_pos | exact Hd].
Qed.

(** ** The play loop of the scene *)

Lemma play_loops_runs (timing : Timing) :
  (0 < draw_time timing)%Z ->
  forall n a,
    let runs := play_loops timing (seq a n) in
    let left := (duration timing - Z.of_nat a * draw_time timing)%Z in
    Forall (fun r => (0 < r <= draw_time timing)%Z) runs /\
    Zsum runs = Z.max 0 (Z.min left (Z.of_nat n * draw_time timing)) /\
    (length runs <= n)%nat /\
    (forall k, (k < length runs)%nat ->
       (Z.of_nat (a + k) * draw_time timing < duration timing)%Z) /\
    ((length runs < n)%nat ->
       (duration timing <= Z.of_nat (a + length runs) * draw_time timing)%Z).
Proof.
  intros HT. induction n as [|n IH]; intros a; cbn zeta.
  - cbn [seq play_loops length Zsum fold_right].
    split; [constructor|]. split; [lia|]. split; [lia|].
    split; intros; lia.
  - cbn [seq play_loops].
    destruct (Z.leb_spec
                (Z.min (draw_time timing)
                   (duration timing - Z.of_nat a * draw_time timing)) 0) as [Hle|Hgt].
    + cbn [length Zsum fold_right].
      split; [constructor|]. split; [nia|]. split; [lia|].
      split; [intros; lia|]. intros _. lia.
    + destruct (IH (S a)) as (Hall & Hsum & Hlen & Hbefore & Hbreak).
      cbn [length Zsum fold_right]. fold (Zsum (play_loops timing (seq (S a) n))).
      split; [constructor; [lia | exact Hall]|].
      split; [rewrite Hsum; nia|]. split; [lia|]. split.
      * intros [|k] Hk; [replace (a + 0)%nat with a by lia; lia|].
        replace (a + S k)%nat with (S a + k)%nat by lia. apply Hbefore. lia.
      * intros Hlt.
        replace (a + S (length (play_loops timing (seq (S a) n))))%nat
          with (S a + length (play_loops timing (seq (S a) n)))%nat by lia.
        apply Hbreak. lia.
Qed.

(** X14 - the play loop, for integer timings.  [construct] raises
    ZeroDivisionError when [draw_time] is 0, what the division raises
    when it raises, and IndexError when there is no path point.  With a
    positive [draw_time], a positive [duration] and at least one path
    point, and whatever float [q] the division returns, with
    [n = ceil(q)] the loop count of line 240: every animation played has
    a positive run time of at most [draw_time]; the run times add up to
    the smaller of [duration] and [n * draw_time], so never to more than
    [duration], and to [duration] as soon as [n * draw_time] reaches it;
    at most [n] animations are played, and the [break] is taken only
    once the whole [duration] has been played, never when
    [(n - 1) * draw_time < duration]. *)
Theorem construct_plays_duration :
  forall (float_div : Z -> Z -> outcome R) (timing : Timing)
         (path_points : list vec3),
    (draw_time timing = 0%Z ->
       construct float_div timing path_points = Raise ZeroDivisionError) /\
    (forall e,
       draw_time timing <> 0%Z ->
       float_div (duration timing) (draw_time timing) = Raise e ->
       construct float_div timing path_points = Raise e) /\
    (forall q,
       draw_time timing <> 0%Z ->
       float_div (duration timing) (draw_time timing) = Ok q ->
       path_points = [] ->
       construct float_div timing path_points = Raise IndexError) /\
    (forall q,
       (0 < draw_time timing)%Z -> (0 < duration timing)%Z ->
       float_div (duration timing) (draw_time timing) = Ok q ->
       path_points <> [] ->
       let n := Zceil q in
       exists runs,
         construct float_div timing path_points = Ok runs /\
         Forall (fun r => (0 < r <= draw_time timing)%Z) runs /\
         Zsum runs = Z.min (duration timing) (Z.max 0 n * draw_time timing) /\
         (Zsum runs <= duration timing)%Z /\
         ((duration timing <= n * draw_time timing)%Z ->
            Zsum runs = duration timing) /\
         (Z.of_nat (length runs) <= Z.max 0 n)%Z /\
         ((Z.of_nat (length runs) < n)%Z ->
            (duration timing <= Z.of_nat (length runs) * draw_time timing)%Z) /\
         (((n - 1) * draw_time timing < duration timing)%Z ->
            Z.of_nat (length runs) = Z.max 0 n)).
Proof.
  intros float_div timing path_points.
  unfold construct, num_loops, py_int_truediv. split; [|split; [|split]].
  - intros ->. reflexivity.
  - intros e HT E.
    destruct (Z.eqb_spec (draw_time timing) 0) as [E0|_]; [contradiction|].
    rewrite E. reflexivity.
  - intros q HT E ->.
    destruct (Z.eqb_spec (draw_time timing) 0) as [E0|_]; [contradiction|].
    rewrite E. reflexivity.
  - intros q HT HD E Hp. set (n := Zceil q).
    destruct (Z.eqb_spec (draw_time timing) 0) as [E0|_]; [lia|].
    rewrite E. cbn [bind]. destruct path_points as [|p0 path_points]; [congruence|].
    cbn [index_first bind]. fold n.
    destruct (play_loops_runs timing HT (Z.to_nat n) O)
      as (Hall & Hsum & Hlen & Hbefore & Hbreak).
    set (runs := play_loops timing (seq 0 (Z.to_nat n))) in *.
    assert (Hn : Z.of_nat (Z.to_nat n) = Z.max 0 n) by lia.
    rewrite Hn in Hsum. cbn [Nat.add] in Hbreak.
    exists runs. split; [reflexivity|].
    split; [exact Hall|].
    assert (Hs : Zsum runs = Z.min (duration timing) (Z.max 0 n * draw_time timing))
      by (rewrite Hsum; nia).
    split; [exact Hs|]. split; [lia|]. split; [intros; nia|].
    split; [lia|]. split; [intros Hlt; apply Hbreak; lia|].
    intros Hex.
    destruct (Nat.lt_ge_cases (length runs) (Z.to_nat n)) as [Hlt|Hge]; [|lia].
    specialize (Hbreak Hlt). nia.
Qed.

(** ** The frame that is displayed *)

Lemma py_getitem_in_range {A : Type} (l : list A) (k : nat) x :
  nth_error l k = Some x -> py_getitem l (Z.of_nat k) = Ok x.
Proof.
  intros H. unfold py_getitem.
  rewrite (proj2 (Z.leb_le 0 (Z.of_nat k))) by lia.
  unfold index_at. rewrite Nat2Z.id, H. reflexivity.
Qed.

(** X15 - the step that is displayed.  For [alpha] in [0, 1] and
    [n >= 1] path points with as many states, [update_animation] shows
    the point and the state of one step [k = floor(alpha (n - 1))], never
    out of range: step 0 at [alpha = 0], the last step only at
    [alpha = 1]. *)
Theorem update_animation_in_range :
  forall (path_points : list vec3) (epicycle_states : list Frame) (alpha : R),
    path_points <> [] ->
    length epicycle_states = length path_points ->
    0 <= alpha <= 1 ->
    exists k p state,
      (k < length path_points)%nat /\
      nth_error path_points k = Some p /\
      nth_error epicycle_states k = Some state /\
      update_animation path_points epicycle_states alpha = Ok (p, state) /\
      INR k <= alpha * INR (length path_points - 1) < INR k + 1 /\
      (alpha = 0 -> k = O) /\
      (alpha = 1 -> k = (length path_points - 1)%nat) /\
      (alpha < 1 -> (2 <= length path_points)%nat ->
       (k < length path_points - 1)%nat).
Proof.
  intros path_points epicycle_states alpha Hne Hlen [Ha0 Ha1].
  set (n := length path_points) in *.
  assert (Hn : (1 <= n)%nat) by (unfold n; destruct path_points; [congruence | simpl; lia]).
  set (x := alpha * IZR (Z.of_nat n - 1)).
  assert (Hx : x = alpha * INR (n - 1)).
  { unfold x. rewrite INR_IZR_INZ. do 2 f_equal. lia. }
  assert (Hx0 : 0 <= x) by (rewrite Hx; apply Rmult_le_pos; [exact Ha0 | apply pos_INR]).
  assert (Hx1 : x <= INR (n - 1)).
  { rewrite Hx. pose proof (pos_INR (n - 1)). nra. }
  assert (Hint : py_int x = Zfloor x).
  { unfold py_int. destruct (Rle_dec 0 x); [reflexivity | contradiction]. }
  pose proof (Zfloor_bound x) as [Hf1 Hf2].
  assert (Hf0 : (0 <= Zfloor x)%Z) by (apply Zfloor_lub; simpl; exact Hx0).
  assert (Hfn : (Zfloor x <= Z.of_nat (n - 1))%Z).
  { apply le_IZR. rewrite <- INR_IZR_INZ. lra. }
  set (k := Z.to_nat (Zfloor x)).
  assert (Hk : Z.of_nat k = Zfloor x) by (unfold k; apply Z2Nat.id; exact Hf0).
  assert (HkR : INR k = IZR (Zfloor x)) by (rewrite INR_IZR_INZ, Hk; reflexivity).
  assert (Hkn : (k < n)%nat) by lia.
  destruct (nth_error path_points k) as [p|] eqn:Ep;
    [|apply nth_error_None in Ep; fold n in Ep; lia].
  destruct (nth_error epicycle_states k) as [st|] eqn:Es;
    [|apply nth_error_None in Es; rewrite Hlen in Es; lia].
  exists k, p, st. split; [exact Hkn|]. split; [exact Ep|]. split; [exact Es|].
  split.
  - unfold update_animation. fold n. fold x. rewrite Hint, <- Hk.
    rewrite (py_getitem_in_range path_points k p Ep). cbn [bind].
    rewrite (py_getitem_in_range epicycle_states k st Es). reflexivity.
  - split; [rewrite <- Hx, HkR; lra|]. split; [|split].
    + intros ->. assert (x = 0) by (rewrite Hx; ring).
      assert (IZR (Zfloor x) <= 0) by lra. apply le_IZR in H0. lia.
    + intros ->. assert (Ex : x = IZR (Z.of_nat (n - 1)))
        by (rewrite Hx, INR_IZR_INZ; ring).
      rewrite Ex, ZfloorZ in Hk. lia.
    + intros Hlt Hn2.
      assert (Hpos : 0 < INR (n - 1)) by (apply lt_0_INR; lia).
      assert (x < INR (n - 1)) by (rewrite Hx; nra).
      assert (IZR (Zfloor x) < IZR (Z.of_nat (n - 1)))
        by (rewrite <- INR_IZR_INZ; lra).
      apply lt_IZR in H0. lia.
Qed.

(* ================================================================== *)
(** * Further properties of the whole run *)

Lemma frame_at_sizes coefficients num_steps s :
  length (circles (snd (frame_at coefficients num_steps s))) = length coefficients /\
  length (vectors (snd (frame_at coefficients num_steps s))) = length coefficients /\
  snd (fst (frame_at coefficients num_steps s)) = 0.
Proof.
  unfold frame_at. rewrite chain_loop_lists. cbn [fst snd app circles vectors].
  split; [apply chain_circles_length|]. split; [apply chain_vectors_length|].
  reflexivity.
Qed.

(** X16 - what a run hands to the renderer.  Whenever [main] returns
    [(K, ratio, path_points, epicycle_states)], there was at least one
    path and one sample per path, there are exactly [animation_steps]
    pen positions and as many states, every pen position has a zero
    third coordinate, every state has exactly [K] circles and [K]
    vectors, and [K] is at least [min_epicycles]. *)
Theorem main_result_shape :
  forall (cfg : Config) (paths : list Path) K ratio path_points epicycle_states,
    main cfg paths = Ok (K, ratio, path_points, epicycle_states) ->
    paths <> [] /\ (1 <= samples_per_path cfg)%nat /\
    length path_points = animation_steps cfg /\
    length epicycle_states = animation_steps cfg /\
    (min_epicycles cfg <= K)%nat /\
    Forall (fun p : vec3 => snd p = 0) path_points /\
    Forall (fun f => length (circles f) = K /\ length (vectors f) = K)
      epicycle_states.
Proof.
  intros cfg paths K ratio path_points epicycle_states E.
  assert (Hp : paths <> []).
  { intros ->. rewrite main_no_paths in E. discriminate. }
  assert (HM : (1 <= samples_per_path cfg)%nat).
  { destruct (samples_per_path cfg) eqn:EM; [|lia].
    unfold main in E. rewrite (load_and_process_svg_no_samples cfg paths EM) in E.
    discriminate. }
  split; [exact Hp|]. split; [exact HM|].
  unfold main in E.
  destruct (load_and_process_svg cfg paths) as [points| |]; try discriminate.
  cbn [bind] in E.
  destruct (compute_fourier_coefficients points) as [d| |]; try discriminate.
  cbn [bind] in E.
  destruct (find_optimal_epicycles cfg d) as [[[K' terms] r]| |] eqn:Ef;
    try discriminate.
  cbn [bind] in E.
  destruct (find_optimal_epicycles_inv cfg d K' terms r Ef)
    as (K0 & _ & EK & Hle & _ & Et & _).
  assert (Hlen : length terms = K').
  { rewrite Et. apply firstn_length_le. rewrite sorted_by_magnitude_length. exact Hle. }
  unfold precompute_animation in E. injection E as <- <- <- <-.
  rewrite !length_map, length_seq.
  split; [reflexivity|]. split; [reflexivity|].
  split; [rewrite EK; apply clamp_count_ge_min|].
  split; apply Forall_forall; intros x Hx; rewrite map_map in Hx;
    apply in_map_iff in Hx; destruct Hx as (s & <- & _);
    destruct (frame_at_sizes terms (animation_steps cfg) s) as (Hc & Hv & Hz).
  - exact Hz.
  - rewrite Hc, Hv, Hlen. split; reflexivity.
Qed.

Lemma sample_contours_raises cfg before path after i e :
  Forall (samples_defined cfg) before ->
  (i < samples_per_path cfg)%nat ->
  (forall j, (j < i)%nat ->
     exists p, path_point path (sample_parameter (samples_per_path cfg) path j) = Ok p) ->
  path_point path (sample_parameter (samples_per_path cfg) path i) = Raise e ->
  sample_contours cfg (before ++ path :: after) = Raise e.
Proof.
  intros Hdef Hi Hbefore Ei. apply mapM_raise.
  - intros q Hq. apply sample_path_returns.
    apply (proj1 (Forall_forall _ _) Hdef q Hq).
  - apply (sample_path_raises cfg path i e Hi Hbefore Ei).
Qed.

(** X17 - when a run fails.  [main] raises IndexError when there is no
    path or no sample per path.  What [path.point] raises first, in the
    order of the paths and of the samples, leaves [main].  Once the
    sampling has returned and the traversal [pts] is there, not empty,
    [main] raises IndexError if [min_epicycles] exceeds its length by
    more than 1, and it returns if [min_epicycles] is at most its length.
    On a single path sampled [M >= 1] times, on which [path.point]
    answers at every sampled parameter, [main] returns when
    [min_epicycles <= M]. *)
Theorem main_error_cases :
  forall (cfg : Config) (paths : list Path),
    (paths = [] \/ samples_per_path cfg = O -> main cfg paths = Raise IndexError) /\
    (forall before path after i e,
        paths = before ++ path :: after ->
        Forall (samples_defined cfg) before ->
        (i < samples_per_path cfg)%nat ->
        (forall j, (j < i)%nat ->
           exists p,
             path_point path (sample_parameter (samples_per_path cfg) path j) = Ok p) ->
        path_point path (sample_parameter (samples_per_path cfg) path i) = Raise e ->
        main cfg paths = Raise e) /\
    (forall cs pts,
        sample_contours cfg paths = Ok cs -> stitch_contours cs = Ok pts ->
        pts <> [] ->
        ((length pts + 1 < min_epicycles cfg)%nat ->
         main cfg paths = Raise IndexError) /\
        ((min_epicycles cfg <= length pts)%nat ->
         exists r, main cfg paths = Ok r)) /\
    (forall path,
        paths = [path] -> (1 <= samples_per_path cfg)%nat ->
        samples_defined cfg path ->
        (min_epicycles cfg <= samples_per_path cfg)%nat ->
        exists r, main cfg paths = Ok r).
Proof.
  intros cfg paths. split; [|split; [|split]].
  - intros [-> | HM]; [apply main_no_paths|].
    unfold main. rewrite (load_and_process_svg_no_samples cfg paths HM). reflexivity.
  - intros before path after i e -> Hdef Hi Hbefore Ei.
    unfold main, load_and_process_svg.
    rewrite (sample_contours_raises cfg before path after i e Hdef Hi Hbefore Ei).
    reflexivity.
  - intros cs pts Ecs Es Hne.
    destruct (normalize_points_map cfg pts Hne) as (closed & h & Ec & En).
    destruct (close_path_ok pts Hne) as (closed' & Ec' & _ & Hshape).
    rewrite Ec in Ec'. injection Ec' as <-.
    set (points := map h closed) in *.
    assert (Hlen : (length pts <= length points <= length pts + 1)%nat).
    { unfold points. rewrite length_map.
      destruct Hshape as [-> | ->]; [lia | rewrite length_app; simpl; lia]. }
    assert (Hpts : (1 <= length pts)%nat)
      by (destruct pts; [congruence | simpl; lia]).
    assert (Hp : points <> []).
    { destruct points; [|discriminate]. simpl in Hlen. lia. }
    destruct (compute_fourier_coefficients_returns points Hp)
      as (fft_result & Ecf & _ & _ & Hd).
    assert (El : load_and_process_svg cfg paths = Ok points).
    { unfold load_and_process_svg. rewrite Ecs. cbn [bind]. rewrite Es.
      cbn [bind]. exact En. }
    split.
    + intros Hfew. unfold main. rewrite El. cbn [bind]. rewrite Ecf. cbn [bind].
      rewrite find_optimal_epicycles_too_few by lia. reflexivity.
    + intros Hmin.
      destruct (find_optimal_epicycles_ok cfg
                  (combine (fftfreq (length points)) fft_result))
        as (K0 & K & _ & _ & Ef & _); [lia | lia |].
      unfold main. rewrite El. cbn [bind]. rewrite Ecf. cbn [bind]. rewrite Ef.
      cbn [bind]. destruct (precompute_animation _ _). eexists. reflexivity.
  - intros path -> HM Hdef Hmin. apply main_returns; try assumption.
    + discriminate.
    + constructor; [exact Hdef | constructor].
Qed.

(* ================================================================== *)
(** * The statements at concrete inputs *)

Lemma find_optimal_epicycles_spec_witness :
  exists K0 K,
    K = Nat.max 1 (Nat.min K0 2) /\
    find_optimal_epicycles (config_with_limits 1 2) [(0%Z, (1, 0))] =
      Ok (K, firstn K (sorted_by_magnitude [(0%Z, (1, 0))]),
          cumulative_ratio (sorted_by_magnitude [(0%Z, (1, 0))]) K).
Proof.
  destruct (find_optimal_epicycles_spec (config_with_limits 1 2) [(0%Z, (1, 0))])
    as (K0 & K & _ & HK & E & _).
  - simpl. lia.
  - simpl. lia.
  - exists K0, K. split; [exact HK | exact E].
Defined.

Lemma precompute_animation_frame_consistent_witness :
  exists pen frame,
    nth_error (fst (precompute_animation [(1%Z, (1, 0))] 4)) 1 = Some pen /\
    nth_error (snd (precompute_animation [(1%Z, (1, 0))] 4)) 1 = Some frame /\
    frame_consistent 1 pen frame.
Proof.
  destruct (precompute_animation_frame_consistent [(1%Z, (1, 0))] 4 1)
    as (pen & frame & Hp & Hf & Hc & _).
  - lia.
  - exists pen, frame. split; [exact Hp|]. split; [exact Hf | exact Hc].
Defined.

Lemma normalize_points_scale_witness :
  exists closed max_extent,
    close_path [(0, 0); (2, 0)] = Ok closed /\
    np_max (abs_entries (center_points closed)) = Ok max_extent /\
    (0 < max_extent ->
       exists out,
         normalize_points CONFIG [(0, 0); (2, 0)] = Ok out /\
         np_max (abs_entries out) = Ok (scale_factor CONFIG)).
Proof.
  destruct (normalize_points_scale CONFIG [(0, 0); (2, 0)])
    as (closed & m & Ec & Em & _ & Hs & _).
  - discriminate.
  - simpl. lra.
  - exists closed, m. split; [exact Ec|]. split; [exact Em | exact Hs].
Defined.

Lemma pen_position_fourier_sum_witness :
  nth_error (fst (precompute_animation [(1%Z, (1, 0))] 4)) 1
  = Some (pos_of (fourier_sum (INR 1 / INR 4) [(1%Z, (1, 0))])).
Proof.
  apply (proj1 pen_position_fourier_sum [(1%Z, (1, 0))] 4%nat 1%nat). lia.
Defined.

Lemma pre_clamp_count_monotone_witness :
  exists K1 K2,
    pre_clamp_count (1 / 2)
      (py_sum (energies (sorted_by_magnitude [(0%Z, (1, 0))])))
      (sorted_by_magnitude [(0%Z, (1, 0))]) = Ok K1 /\
    pre_clamp_count (999 / 1000)
      (py_sum (energies (sorted_by_magnitude [(0%Z, (1, 0))])))
      (sorted_by_magnitude [(0%Z, (1, 0))]) = Ok K2 /\
    (K1 <= K2)%nat.
Proof.
  apply (pre_clamp_count_monotone [(0%Z, (1, 0))] (1 / 2) (999 / 1000)). lra.
Defined.


Lemma final_energy_index_error_witness :
  find_optimal_epicycles CONFIG [(0%Z, (1, 0))] = Raise IndexError.
Proof.
  destruct (final_energy_index_error CONFIG [(0%Z, (1, 0))]) as (K0 & _ & H & _).
  apply H. simpl. lia.
Defined.

Lemma segment_path_defined cfg : samples_defined cfg segment_path.
Proof. intros i _. eexists. reflexivity. Defined.

Lemma sample_path_targets_witness :
  exists pts,
    sample_path (config_with_samples 3) segment_path = Ok pts /\
    length pts = 3%nat /\
    ~ In (sampled_row (1, 0)) pts.
Proof.
  destruct (sample_path_targets (config_with_samples 3) segment_path
              (segment_path_defined _))
    as (pts & E & Hlen & _ & _ & _ & Hend).
  exists pts. split; [exact E|]. split; [exact Hlen|].
  apply (Hend (1, 0)).
  - reflexivity.
  - intros i t _ Ht. discriminate Ht.
  - intros t p Ht Ep. cbn [segment_path path_point] in Ep.
    injection Ep as <-. intros Eq. injection Eq as Eq. lra.
Defined.

(** ** The further properties at concrete inputs *)

Lemma two_segments_nonempty :
  nonempty_contours [[(0, 0); (1, 0)]; [(5, 5); (6, 5)]].
Proof. repeat constructor; discriminate. Defined.

Lemma stitch_complete_on_distinct_contours_witness :
  exists traversal,
    connect_contours_tsp [[(0, 0); (1, 0)]; [(5, 5); (6, 5)]] = Ok traversal /\
    length traversal = total_points [[(0, 0); (1, 0)]; [(5, 5); (6, 5)]].
Proof.
  destruct (stitch_complete_on_distinct_contours
              [[(0, 0); (1, 0)]; [(5, 5); (6, 5)]])
    as (perm & blocks & traversal & E & _ & _ & _ & Hlen).
  - discriminate.
  - exact two_segments_nonempty.
  - constructor; [|constructor; [constructor | constructor]].
    constructor; [|constructor].
    split; intros E; simpl in E; injection E; intros; lra.
  - exists traversal. split; [exact E | exact Hlen].
Defined.

Lemma connect_contours_tsp_error_cases_witness :
  connect_contours_tsp [[(0, 0); (1, 0)]; []] = Raise IndexError.
Proof.
  apply (proj2 (connect_contours_tsp_error_cases [[(0, 0); (1, 0)]; []])).
  right. right. left. reflexivity.
Defined.

Lemma stitch_greedy_on_distinct_contours_witness :
  exists c reversed,
    In c [[(0, 0); (1, 0)]; [(5, 5); (6, 5)]] /\
    (reversed = true <-> dist_last (0, 0) c < dist_first (0, 0) c) /\
    loop_state [[(0, 0); (1, 0)]; [(5, 5); (6, 5)]]
      ([] ++ [oriented reversed c]) (last_point (oriented reversed c))
      (filter (keep_contour (oriented reversed c))
         [[(0, 0); (1, 0)]; [(5, 5); (6, 5)]]).
Proof.
  destruct (stitch_greedy_on_distinct_contours
              [[(0, 0); (1, 0)]; [(5, 5); (6, 5)]] [] (0, 0)
              [[(0, 0); (1, 0)]; [(5, 5); (6, 5)]])
    as (used & _ & _ & _ & H).
  - exact two_segments_nonempty.
  - constructor; [|constructor; [constructor | constructor]].
    constructor; [|constructor].
    split; intros E; simpl in E; injection E; intros; lra.
  - apply ls_init with (p0 := (0, 0)) (c0 := [(1, 0)]) (rest := [[(5, 5); (6, 5)]]).
    reflexivity.
  - destruct H as (c & reversed & Hin & _ & Hrev & _ & _ & Hnext); [discriminate|].
    exists c, reversed. split; [exact Hin|]. split; [exact Hrev | exact Hnext].
Defined.

Lemma stitch_starts_with_first_contour_witness :
  exists tail,
    connect_contours_tsp [[(0, 0); (1, 0)]; [(5, 5); (6, 5)]]
    = Ok ([(0, 0); (1, 0)] ++ tail).
Proof.
  apply (stitch_starts_with_first_contour [(0, 0); (1, 0)] [[(5, 5); (6, 5)]]).
  exact two_segments_nonempty.
Defined.

Lemma stitch_accounts_for_every_contour_witness :
  exists blocks,
    connect_contours_tsp [[(0, 0); (1, 0)]; [(0, 0); (1, 0)]] = Ok (concat blocks) /\
    Nat.le (length (concat blocks))
      (total_points [[(0, 0); (1, 0)]; [(0, 0); (1, 0)]]).
Proof.
  destruct (stitch_accounts_for_every_contour
              [[(0, 0); (1, 0)]; [(0, 0); (1, 0)]])
    as (blocks & used & dropped & E & _ & _ & _ & Hlen).
  - discriminate.
  - repeat constructor; discriminate.
  - exists blocks. split; [exact E | exact Hlen].
Defined.

Lemma normalize_points_closes_path_witness :
  exists out, normalize_points CONFIG [(0, 0); (2, 0)] = Ok out.
Proof.
  destruct (normalize_points_closes_path CONFIG [(0, 0); (2, 0)])
    as (out & E & _); [discriminate|].
  exists out. exact E.
Defined.

Lemma normalize_points_centred_witness :
  exists out,
    normalize_points CONFIG [(0, 0); (2, 0)] = Ok out /\
    np_mean_axis0 out = (0, 0).
Proof.
  destruct (normalize_points_centred CONFIG [(0, 0); (2, 0)])
    as (out & E & _ & _ & Hm); [discriminate|].
  exists out. split; [exact E | exact Hm].
Defined.

Lemma load_and_process_svg_size_witness :
  exists points,
    load_and_process_svg (config_with_samples 3) [zigzag_path] = Ok points /\
    (3 <= length points <= 1 * 3 + 1)%nat.
Proof.
  destruct (load_and_process_svg_size (config_with_samples 3) [zigzag_path])
    as [Hbounds Hreturns].
  destruct (Hreturns zigzag_path) as (points & E & _).
  - reflexivity.
  - simpl. lia.
  - apply zigzag_path_defined.
  - exists points. split; [exact E|]. apply (Hbounds points E).
Defined.

Lemma compute_fourier_coefficients_bins_witness :
  exists d,
    compute_fourier_coefficients [(0, 0); (2, 0)] = Ok d /\
    length d = 2%nat.
Proof.
  destruct (proj2 compute_fourier_coefficients_bins [(0, 0); (2, 0)])
    as (d & E & Hlen & _); [discriminate|].
  exists d. split; [exact E | exact Hlen].
Defined.

Lemma zero_frequency_coefficient_witness :
  exists rest,
    compute_fourier_coefficients [(0, 0); (2, 0)]
    = Ok ((0%Z, np_mean_axis0 [(0, 0); (2, 0)]) :: rest).
Proof.
  apply (proj1 zero_frequency_coefficient [(0, 0); (2, 0)]). discriminate.
Defined.

Lemma all_terms_reproduce_points_witness :
  exists d,
    compute_fourier_coefficients [(0, 0); (2, 0)] = Ok d /\
    nth_error (fst (precompute_animation d 2)) 1 = Some (2, 0, 0).
Proof.
  destruct (all_terms_reproduce_points [(0, 0); (2, 0)])
    as (d & E & Hall & _); [discriminate|].
  exists d. split; [exact E|].
  apply (Hall d 1%nat (2, 0)); [apply Permutation_refl | reflexivity].
Defined.

Lemma find_optimal_epicycles_keeps_largest_witness :
  exists (K : nat) (terms : list (Z * complex)),
    length terms = K /\ (1 <= K <= 1)%nat.
Proof.
  destruct (find_optimal_epicycles_ok (config_with_limits 1 2) [(0%Z, (1, 0))])
    as (K0 & K & _ & _ & E & _); [simpl; lia | simpl; lia |].
  destruct (find_optimal_epicycles_keeps_largest _ _ _ _ _ E)
    as (Hlen & Hbounds & _).
  exists K, (firstn K (sorted_by_magnitude [(0%Z, (1, 0))])).
  split; [exact Hlen | exact Hbounds].
Defined.

Lemma find_optimal_epicycles_ratio_witness :
  exists ratio r, ratio = Fin r /\ 0 <= r <= 1.
Proof.
  destruct (find_optimal_epicycles_ok (config_with_limits 1 2) [(0%Z, (1, 0))])
    as (K0 & K & _ & _ & E & _); [simpl; lia | simpl; lia |].
  destruct (find_optimal_epicycles_ratio _ _ _ _ _ E) as (r & Hr & Hb & _).
  - exists (0%Z, (1, 0)). split; [left; reflexivity|].
    cbn [snd]. intros E0. unfold C0 in E0. injection E0. intros. lra.
  - exists (cumulative_ratio (sorted_by_magnitude [(0%Z, (1, 0))]) K), r.
    split; [exact Hr | exact Hb].
Defined.

Lemma precompute_animation_vector_on_circle_witness :
  exists frame v c,
    nth_error (snd (precompute_animation [(1%Z, (1, 0))] 4)) 1 = Some frame /\
    nth_error (vectors frame) 0 = Some v /\
    nth_error (circles frame) 0 = Some c /\
    dist3 (start v) (end_ v) = radius c.
Proof.
  destruct (precompute_animation_vector_on_circle
              [(1%Z, (1, 0))] 4 1 0 (1%Z, (1, 0)))
    as (frame & v & c & Ef & Ev & Ec & _ & _ & Hd).
  - lia.
  - reflexivity.
  - exists frame, v, c. repeat split; assumption.
Defined.

Lemma construct_plays_duration_witness :
  exists runs,
    construct (fun a b => Ok (IZR a / IZR b)) TIMING [origin] = Ok runs /\
    Zsum runs = duration TIMING /\ length runs = 2%nat.
Proof.
  assert (Hn : Zceil (IZR (duration TIMING) / IZR (draw_time TIMING)) = 2%Z).
  { apply Zceil_eq. cbn [TIMING draw_time duration]. lra. }
  destruct (proj2 (proj2 (proj2 (construct_plays_duration
                                   (fun a b => Ok (IZR a / IZR b)) TIMING [origin])))
              (IZR (duration TIMING) / IZR (draw_time TIMING)))
    as (runs & E & _ & _ & _ & Hsum & _ & _ & Hlen).
  - simpl. lia.
  - simpl. lia.
  - reflexivity.
  - discriminate.
  - rewrite Hn in Hsum, Hlen. exists runs. split; [exact E|].
    split; [apply Hsum; simpl; lia|].
    apply Nat2Z.inj. rewrite Hlen; simpl; lia.
Defined.

Lemma update_animation_in_range_witness :
  exists k p state,
    (k < 2)%nat /\
    update_animation [origin; origin]
      [{| circles := []; vectors := [] |}; {| circles := []; vectors := [] |}]
      (1 / 2) = Ok (p, state).
Proof.
  destruct (update_animation_in_range [origin; origin]
              [{| circles := []; vectors := [] |}; {| circles := []; vectors := [] |}]
              (1 / 2))
    as (k & p & state & Hk & _ & _ & E & _).
  - discriminate.
  - reflexivity.
  - lra.
  - exists k, p, state. split; [exact Hk | exact E].
Defined.

Lemma main_result_shape_witness :
  exists (path_points : list vec3) (epicycle_states : list Frame),
    length path_points = animation_steps CONFIG /\
    length epicycle_states = animation_steps CONFIG.
Proof.
  destruct (main_returns CONFIG [segment_path]) as ([[[K ratio] pts] frames] & E).
  - discriminate.
  - simpl. lia.
  - simpl. lia.
  - constructor; [apply segment_path_defined | constructor].
  - destruct (main_result_shape _ _ _ _ _ _ E) as (_ & _ & Hp & Hf & _).
    exists pts, frames. split; [exact Hp | exact Hf].
Defined.

Lemma main_error_cases_witness :
  main (config_with_samples 0) [segment_path] = Raise IndexError /\
  main CONFIG [point_path] = Raise RuntimeError.
Proof.
  split.
  - apply (proj1 (main_error_cases (config_with_samples 0) [segment_path])).
    right. reflexivity.
  - apply (proj1 (proj2 (main_error_cases CONFIG [point_path]))
             [] point_path [] 1%nat RuntimeError).
    + reflexivity.
    + constructor.
    + simpl. lia.
    + intros j Hj. assert (j = O) by lia. subst j. exists (0, 0).
      unfold sample_parameter. cbn [point_path path_length path_ilength path_point].
      change (INR 0) with 0. unfold Rdiv. rewrite Rmult_0_l, Reqb_refl.
      reflexivity.
    + unfold sample_parameter. cbn [point_path path_length path_ilength path_point].
      rewrite (INR_IZR_INZ (samples_per_path CONFIG)).
      change (Z.of_nat (samples_per_path CONFIG)) with 5000%Z.
      change (INR 1) with 1.
      destruct (Reqb (1 / 5000) 0) eqn:E0; [apply Reqb_spec in E0; lra|].
      destruct (Reqb (1 / 5000) 1) eqn:E1; [apply Reqb_spec in E1; lra|].
      reflexivity.
Defined.

Lemma total_energy_is_mean_square_witness :
  exists d,
    compute_fourier_coefficients [(1, 0); (0, 1)] = Ok d /\
    Rsum (energies d)
      = Rsum (map norm_sq [(1, 0); (0, 1)]) / INR (length [(1, 0); (0, 1) : point]) /\
    Rsum (energies (sorted_by_magnitude d))
      = Rsum (map norm_sq [(1, 0); (0, 1)]) / INR (length [(1, 0); (0, 1) : point]).
Proof.
  apply (total_energy_is_mean_square [(1, 0); (0, 1)]). discriminate.
Defined.
